(** * socks5-proxy-analytics: a shallow embedding of the proxy core

    The development follows the Go packages of the repository:
    [internal/security] (Authenticator, IPWhitelist, RateLimiter),
    [internal/pipeline] (ConnectionPool, Collector, Normalizer, Publisher),
    [internal/models] (TrafficLog), [internal/proxy] (Server, trackedConn)
    and [cmd/proxy] (the shutdown sequence of main).

    Conventions.
    - Go [int] and [int64] are [Z] with the 64-bit wrap-around written
      out ([wrap64]).
    - Go [float64] is IEEE-754 binary64, taken from the Standard
      Library's [SpecFloat] at precision 53 and maximal exponent 1024.
    - Go [string] is [string]; [map[string]T] is [gmap string T].
    - [time.Time] is an instant counted in nanoseconds, the zero value
      being [0]; [time.Duration] is a 64-bit count of nanoseconds.
    - A buffered channel is its buffer, its capacity and its closed flag;
      an operation that depends on the receivers parked on the channel
      is told whether there is one.
    - Goroutines are program counters in a global state, scheduled by an
      interleaving step relation. *)

From Stdlib Require Import ZArith List Bool Lia String SpecFloat.
From stdpp Require Import base gmap strings list.

Local Open Scope Z_scope.

(* ===================================================================== *)
(** * Go base types *)
(* ===================================================================== *)

Module Go.

(** Two's complement wrap-around of a 64-bit signed integer. *)
Definition wrap64 (z : Z) : Z := (z + 2 ^ 63) mod 2 ^ 64 - 2 ^ 63.

Definition MaxInt64 : Z := 2 ^ 63 - 1.
Definition MinInt64 : Z := - 2 ^ 63.

Definition is_int64 (z : Z) : Prop := MinInt64 <= z <= MaxInt64.

(** [time.Time]: nanoseconds since the zero instant. *)
Definition Time : Type := Z.
Definition zeroTime : Time := 0.
Definition Time_IsZero (t : Time) : bool := t =? 0.

(** [time.Duration]: nanoseconds, saturating as [Time.Sub] does. *)
Definition Duration : Type := Z.

Definition Time_Sub (t u : Time) : Duration :=
  let d := t - u in
  if d <? MinInt64 then MinInt64
  else if MaxInt64 <? d then MaxInt64
  else d.

(** [Duration.Milliseconds]: integer division truncated toward zero. *)
Definition Duration_Milliseconds (d : Duration) : Z := Z.quot d 1000000.

(** The result of a call that may panic or, for a blocking operation,
    park the calling goroutine. *)
Inductive outcome (A : Type) : Type :=
| Returns (a : A)
| Blocks
| Panics (msg : string).
Arguments Returns {A} a.
Arguments Blocks {A}.
Arguments Panics {A} msg.

(** Go's [error]: [None] is [nil]. *)
Definition error : Type := option string.

(** ** float64 *)

Definition float64 : Type := spec_float.

Definition prec : Z := 53.
Definition emax : Z := 1024.

Definition fadd : float64 -> float64 -> float64 := SFadd prec emax.
Definition fsub : float64 -> float64 -> float64 := SFsub prec emax.
Definition fmul : float64 -> float64 -> float64 := SFmul prec emax.
Definition fdiv : float64 -> float64 -> float64 := SFdiv prec emax.
Definition flt : float64 -> float64 -> bool := SFltb.
(** [a >= b] is [b <= a]; it is false when either side is NaN. *)
Definition fge (a b : float64) : bool := SFleb b a.

(** The conversion [float64(n)] of an integer: round to nearest, ties to
    even. *)
Definition float64_of_int (n : Z) : float64 := binary_normalize prec emax n 0 false.

(** The constants [1.0] and [1000.0]. *)
Definition f1 : float64 := float64_of_int 1.
Definition f1000 : float64 := float64_of_int 1000.

(** ** zap logger: the entries written, oldest first *)

Inductive Level : Type := DebugLevel | InfoLevel | WarnLevel | ErrorLevel.

Record Entry : Type := { level : Level; message : string }.

Definition Logger : Type := list Entry.

Definition Log (l : Logger) (lv : Level) (msg : string) : Logger :=
  l ++ [ {| level := lv; message := msg |} ].

(** ** Buffered channels *)

(** [make(chan A, cap)]. The record holds the buffer, the capacity and
    the closed flag. The receivers parked on a channel are not part of
    it: [selectnbsend] below is told whether there is one. *)
Record chan (A : Type) : Type := {
  buf : list A;
  cap : nat;
  closed : bool
}.
Arguments buf {A} c.
Arguments cap {A} c.
Arguments closed {A} c.

Definition make_chan {A : Type} (n : nat) : chan A :=
  {| buf := []; cap := n; closed := false |}.

Definition chan_full {A : Type} (c : chan A) : bool :=
  Nat.leb (cap c) (length (buf c)).

(** The send [c <- x]: panics on a closed channel, parks on a full one. *)
Definition send {A : Type} (c : chan A) (x : A) : outcome (chan A) :=
  if closed c then Panics "send on closed channel"
  else if chan_full c then Blocks
  else Returns {| buf := buf c ++ [x]; cap := cap c; closed := false |}.

(** The receive [x, ok := <-c]: a buffered value first; on an empty
    closed channel the zero value with [ok = false], here [None]; parks
    on an empty open channel. *)
Definition recv {A : Type} (c : chan A) : outcome (option A * chan A) :=
  match buf c with
  | x :: rest => Returns (Some x, {| buf := rest; cap := cap c; closed := closed c |})
  | [] => if closed c then Returns (None, c) else Blocks
  end.

(** [close(c)]: panics when the channel is already closed. *)
Definition close {A : Type} (c : chan A) : outcome (chan A) :=
  if closed c then Panics "close of closed channel"
  else Returns {| buf := buf c; cap := cap c; closed := true |}.

(** ** The send case of a [select] that has a [default] case

    The runtime's [selectnbsend] is [chansend] without blocking: it
    panics on a closed channel; a receiver parked in its receive gets
    the value directly, whatever the buffer holds (the only way a value
    passes a channel of capacity zero); otherwise the value goes to the
    buffer when there is room; otherwise the send is not ready and the
    [default] case runs. [parked] tells whether a receiver is parked on
    the channel. *)
Inductive sent (A : Type) : Type :=
| Queued (c : chan A)   (* the value is in the buffer *)
| HandedOver (x : A)    (* the value went to the parked receiver *)
| NotReady.             (* the [default] case runs *)
Arguments Queued {A} c.
Arguments HandedOver {A} x.
Arguments NotReady {A}.

Definition selectnbsend {A : Type} (c : chan A) (parked : bool) (x : A)
  : outcome (sent A) :=
  if closed c then Panics "send on closed channel"
  else if parked then Returns (HandedOver x)
  else if chan_full c then Returns NotReady
  else Returns (Queued {| buf := buf c ++ [x]; cap := cap c; closed := false |}).

(** ** What [make] refuses, on a 64-bit platform

    [make] panics when the size asked for is negative or when the memory
    it takes exceeds [maxAlloc]; a channel also accounts for its header,
    whose size [hchanSize] differs between versions of the runtime and
    is a parameter wherever a channel is made. Sizes and the memory
    asked for are compared as integers, which agrees with the runtime's
    unsigned arithmetic on 64-bit sizes. Running out of memory is not a
    panic and is outside this development. *)
Definition maxAlloc : Z := 2 ^ 48.

Definition makeslice_panics (elemsize cap : Z) : bool :=
  (cap <? 0) || (maxAlloc <? elemsize * cap).

Definition makechan_panics (hchanSize elemsize size : Z) : bool :=
  (size <? 0) || (maxAlloc - hchanSize <? elemsize * size).

(** The size in bytes of a pointer, and of a [RawTrafficEvent] (four
    strings of sixteen bytes, an [int], a [time.Time] of twenty-four
    bytes and three [int64]). *)
Definition sizeof_pointer : Z := 8.
Definition sizeof_RawTrafficEvent : Z := 120.

End Go.

Import Go.

(* ===================================================================== *)
(** * internal/security *)
(* ===================================================================== *)

Module Security.

(** ** Authenticator ([NewAuthenticator], [Authenticate], [IsEnabled]) *)

Record Authenticator : Type := {
  username : string;
  password : string;
  auth_enabled : bool
}.

Definition NewAuthenticator (u p : string) : Authenticator :=
  {| username := u; password := p; auth_enabled := true |}.

Definition Authenticate (a : Authenticator) (u p : string) : bool :=
  if negb (auth_enabled a) then true
  else String.eqb u (username a) && String.eqb p (password a).

Definition Authenticator_IsEnabled (a : Authenticator) : bool := auth_enabled a.

(** ** IPWhitelist ([NewIPWhitelist], [IsAllowed], [AddIP], [RemoveIP]);
    the lock is not modelled, each call is one atomic step *)

Record IPWhitelist : Type := {
  allowedIPs : gmap string bool;
  wl_enabled : bool
}.

Definition NewIPWhitelist (ips : list string) : IPWhitelist :=
  {| allowedIPs := fold_left (fun m ip => <[ip := true]> m) ips ∅;
     wl_enabled := Nat.ltb 0 (length ips) |}.

(** Reading a missing key of a [map[string]bool] yields [false]. *)
Definition IsAllowed (w : IPWhitelist) (ip : string) : bool :=
  if negb (wl_enabled w) then true
  else default false (allowedIPs w !! ip).

Definition AddIP (w : IPWhitelist) (ip : string) : IPWhitelist :=
  {| allowedIPs := <[ip := true]> (allowedIPs w); wl_enabled := wl_enabled w |}.

Definition RemoveIP (w : IPWhitelist) (ip : string) : IPWhitelist :=
  {| allowedIPs := delete ip (allowedIPs w); wl_enabled := wl_enabled w |}.

(** The mutating operations of the whitelist, for runs of calls. *)
Inductive wl_op : Type :=
| OpAddIP (ip : string)
| OpRemoveIP (ip : string).

Definition wl_apply (w : IPWhitelist) (o : wl_op) : IPWhitelist :=
  match o with
  | OpAddIP ip => AddIP w ip
  | OpRemoveIP ip => RemoveIP w ip
  end.

Definition wl_run (w : IPWhitelist) (ops : list wl_op) : IPWhitelist :=
  fold_left wl_apply ops w.

(** ** RateLimiter ([NewRateLimiter], [Allow], [minFloat]); each call of
    [Allow] runs under the limiter's lock and is one atomic step *)

Record tokenBucket : Type := {
  tokens : float64;
  lastTime : Time;
  ratePerMs : float64
}.

Record RateLimiter : Type := {
  requestsPerSecond : Z;
  buckets : gmap string tokenBucket;
  rl_enabled : bool
}.

Definition NewRateLimiter (rps : Z) (en : bool) : RateLimiter :=
  {| requestsPerSecond := rps; buckets := ∅; rl_enabled := en |}.

Definition minFloat (a b : float64) : float64 := if flt a b then a else b.

(** [Allow], with the reading [now] of [time.Now()] made explicit. *)
Definition Allow (rl : RateLimiter) (now : Time) (identifier : string)
  : bool * RateLimiter :=
  if negb (rl_enabled rl) then (true, rl)
  else
    match buckets rl !! identifier with
    | None =>
        let bucket := {| tokens := float64_of_int (requestsPerSecond rl);
                         lastTime := now;
                         ratePerMs := fdiv (float64_of_int (requestsPerSecond rl)) f1000 |} in
        (true, {| requestsPerSecond := requestsPerSecond rl;
                  buckets := <[identifier := bucket]> (buckets rl);
                  rl_enabled := rl_enabled rl |})
    | Some bucket =>
        let elapsed := Duration_Milliseconds (Time_Sub now (lastTime bucket)) in
        let tokensToAdd := fmul (float64_of_int elapsed) (ratePerMs bucket) in
        let refilled := minFloat (float64_of_int (requestsPerSecond rl))
                                 (fadd (tokens bucket) tokensToAdd) in
        let ok := fge refilled f1 in
        let bucket' := {| tokens := if ok then fsub refilled f1 else refilled;
                          lastTime := now;
                          ratePerMs := ratePerMs bucket |} in
        (ok, {| requestsPerSecond := requestsPerSecond rl;
                buckets := <[identifier := bucket']> (buckets rl);
                rl_enabled := rl_enabled rl |})
    end.

(** [n] consecutive calls of [Allow] for one identifier, all of them at
    the same clock reading: the answers, oldest first, and the final
    limiter. *)
Fixpoint Allow_burst (n : nat) (rl : RateLimiter) (now : Time) (identifier : string)
  : list bool * RateLimiter :=
  match n with
  | O => ([], rl)
  | S k =>
      let '(b, rl1) := Allow rl now identifier in
      let '(bs, rl2) := Allow_burst k rl1 now identifier in
      (b :: bs, rl2)
  end.

End Security.

Import Security.

(* ===================================================================== *)
(** * internal/models *)
(* ===================================================================== *)

Module Models.

(** [gorm.DeletedAt], a [sql.NullTime]. *)
Record DeletedAt_t : Type := { NullTime_Time : Time; NullTime_Valid : bool }.

Record TrafficLog : Type := {
  ID : Z;
  SourceIP : string;
  DestinationIP : string;
  Domain : string;
  Port : Z;
  Timestamp : Time;
  LatencyMs : Z;
  BytesIn : Z;
  BytesOut : Z;
  Protocol : string;
  CreatedAt : Time;
  DeletedAt : DeletedAt_t
}.

End Models.

(* ===================================================================== *)
(** * internal/pipeline *)
(* ===================================================================== *)

Module Pipeline.

(** ** ConnectionPool (pool.go); each method runs under the pool's lock
    and is one atomic step *)

Record ConnectionPool : Type := {
  maxConnections : Z;
  activeConn : Z;
  cp_log : Logger
}.

Definition NewConnectionPool (maxc : Z) (log : Logger) : ConnectionPool :=
  {| maxConnections := maxc; activeConn := 0; cp_log := log |}.

Definition CanAccept (cp : ConnectionPool) : bool :=
  activeConn cp <? maxConnections cp.

Definition AddConnection (cp : ConnectionPool) : bool * ConnectionPool :=
  if maxConnections cp <=? activeConn cp then
    (false, {| maxConnections := maxConnections cp;
               activeConn := activeConn cp;
               cp_log := Log (cp_log cp) WarnLevel "max connections reached" |})
  else
    (true, {| maxConnections := maxConnections cp;
              activeConn := wrap64 (activeConn cp + 1);
              cp_log := cp_log cp |}).

Definition RemoveConnection (cp : ConnectionPool) : ConnectionPool :=
  if 0 <? activeConn cp then
    {| maxConnections := maxConnections cp;
       activeConn := wrap64 (activeConn cp - 1);
       cp_log := cp_log cp |}
  else cp.

Definition GetActiveConnections (cp : ConnectionPool) : Z := activeConn cp.

(** [n] consecutive calls of [AddConnection]: the answers, oldest first,
    and the final pool. *)
Fixpoint AddConnection_n (n : nat) (cp : ConnectionPool) : list bool * ConnectionPool :=
  match n with
  | O => ([], cp)
  | S k =>
      let '(b, cp1) := AddConnection cp in
      let '(bs, cp2) := AddConnection_n k cp1 in
      (b :: bs, cp2)
  end.

(** ** RawTrafficEvent and Collector (collector.go) *)

Record RawTrafficEvent : Type := {
  SourceIP : string;
  DestinationIP : string;
  Domain : string;
  Port : Z;
  Timestamp : Time;
  LatencyMs : Z;
  BytesIn : Z;
  BytesOut : Z;
  Protocol : string
}.

Record Collector : Type := {
  col_out : chan RawTrafficEvent;
  col_log : Logger
}.

Definition NewCollector (out : chan RawTrafficEvent) (log : Logger) : Collector :=
  {| col_out := out; col_log := log |}.

(** [select { case c.out <- event: return nil; default: warn; return nil }].
    [parked] tells whether a receiver is parked on [c.out]. The result
    is the error returned, the collector afterwards, and the event when
    it went directly to the parked receiver. *)
Definition Collect (c : Collector) (parked : bool) (event : RawTrafficEvent)
  : outcome (error * Collector * option RawTrafficEvent) :=
  match selectnbsend (col_out c) parked event with
  | Returns (Queued ch) => Returns (None, {| col_out := ch; col_log := col_log c |}, None)
  | Returns (HandedOver x) => Returns (None, c, Some x)
  | Returns NotReady =>
      Returns (None, {| col_out := col_out c;
                        col_log := Log (col_log c) WarnLevel
                                       "collector channel full, dropping event" |}, None)
  | Blocks => Blocks
  | Panics msg => Panics msg
  end.

(** ** Normalizer (normalizer.go) *)

(** The composite literal of [process]: nine fields are copied, the
    others keep their zero value. *)
Definition normalize (event : RawTrafficEvent) : Models.TrafficLog :=
  {| Models.ID := 0;
     Models.SourceIP := SourceIP event;
     Models.DestinationIP := DestinationIP event;
     Models.Domain := Domain event;
     Models.Port := Port event;
     Models.Timestamp := Timestamp event;
     Models.LatencyMs := LatencyMs event;
     Models.BytesIn := BytesIn event;
     Models.BytesOut := BytesOut event;
     Models.Protocol := Protocol event;
     Models.CreatedAt := zeroTime;
     Models.DeletedAt := {| Models.NullTime_Time := zeroTime;
                            Models.NullTime_Valid := false |} |}.

(** One goroutine running [process]: at the head of the [range] loop,
    holding a record before the [select], or returned. *)
Inductive worker_pc : Type :=
| WRange
| WSelect (trafficLog : Models.TrafficLog)
| WReturned.

Record Normalizer : Type := {
  n_in : chan RawTrafficEvent;
  n_out : chan Models.TrafficLog;
  n_log : Logger
}.

Definition NewNormalizer (i : chan RawTrafficEvent) (o : chan Models.TrafficLog)
  (log : Logger) : Normalizer :=
  {| n_in := i; n_out := o; n_log := log |}.

(** [Start] launches [numWorkers] goroutines and records nothing about
    them. *)
Definition Normalizer_Start (numWorkers : Z) : list worker_pc :=
  repeat WRange (Z.to_nat numWorkers).

(** One step of a [process] goroutine. *)
Definition process_step (n : Normalizer) (pc : worker_pc)
  : outcome (Normalizer * worker_pc) :=
  match pc with
  | WRange =>
      match recv (n_in n) with
      | Returns (Some event, ch) =>
          Returns ({| n_in := ch; n_out := n_out n; n_log := n_log n |},
                   WSelect (normalize event))
      | Returns (None, _) => Returns (n, WReturned)
      | Blocks => Blocks
      | Panics msg => Panics msg
      end
  | WSelect trafficLog =>
      match send (n_out n) trafficLog with
      | Returns ch =>
          Returns ({| n_in := n_in n; n_out := ch; n_log := n_log n |}, WRange)
      | Blocks =>
          Returns ({| n_in := n_in n; n_out := n_out n;
                      n_log := Log (n_log n) WarnLevel
                                   "normalizer output channel full, dropping event" |},
                   WRange)
      | Panics msg => Panics msg
      end
  | WReturned => Blocks
  end.

(** [Close] closes the output channel, whatever the workers are doing. *)
Definition Normalizer_Close (n : Normalizer) : outcome Normalizer :=
  match close (n_out n) with
  | Returns ch => Returns {| n_in := n_in n; n_out := ch; n_log := n_log n |}
  | Blocks => Blocks
  | Panics msg => Panics msg
  end.

(** ** Publisher (publisher.go) *)

(** One call of [repo.SaveTrafficLogs(ctx, batch)]: whether [ctx] was
    already cancelled when the call was made, and the records passed. *)
Record SaveCall : Type := {
  ctx_cancelled : bool;
  logs : list Models.TrafficLog
}.

(** The storage collaborator answers each call from the calls made so
    far. *)
Definition Repository : Type := list SaveCall -> SaveCall -> error.

Inductive pub_pc : Type :=
| PStart      (* processBatch not yet entered *)
| PLoop       (* at the select of the for loop *)
| PReturned.  (* processBatch returned, deferred calls done *)

Record Publisher : Type := {
  p_in : chan Models.TrafficLog;
  repo : Repository;
  batchSize : Z;
  ticker_stopped : bool;
  ctx_done : bool;
  wg : Z;
  pc : pub_pc;
  batch : list Models.TrafficLog;
  saved : list SaveCall;
  p_log : Logger
}.

(** [NewPublisher]: [time.NewTicker] panics on an interval that is not
    positive; the interval is [time.Duration(flushIntervalMs) *
    time.Millisecond], a 64-bit product. *)
Definition NewPublisher (i : chan Models.TrafficLog) (r : Repository)
  (bsize flushIntervalMs : Z) (log : Logger) : outcome Publisher :=
  if wrap64 (flushIntervalMs * 1000000) <=? 0
  then Panics "non-positive interval for NewTicker"
  else Returns {| p_in := i; repo := r; batchSize := bsize;
                  ticker_stopped := false; ctx_done := false; wg := 0;
                  pc := PStart; batch := []; saved := []; p_log := log |}.

(** [Start]: [p.wg.Add(1)] and the goroutine is launched. *)
Definition Publisher_Start (p : Publisher) : Publisher :=
  {| p_in := p_in p; repo := repo p; batchSize := batchSize p;
     ticker_stopped := ticker_stopped p; ctx_done := ctx_done p;
     wg := wg p + 1; pc := pc p; batch := batch p; saved := saved p;
     p_log := p_log p |}.

(** [flushBatch]: the context handed to the repository derives from
    [p.ctx], so it is cancelled as soon as [p.ctx] is. *)
Definition flushBatch (p : Publisher) (b : list Models.TrafficLog) : Publisher :=
  let call := {| ctx_cancelled := ctx_done p; logs := b |} in
  let line :=
    match repo p (saved p) call with
    | Some _ => {| level := ErrorLevel; message := "failed to save traffic logs" |}
    | None => {| level := DebugLevel; message := "batch saved successfully" |}
    end in
  {| p_in := p_in p; repo := repo p; batchSize := batchSize p;
     ticker_stopped := ticker_stopped p; ctx_done := ctx_done p;
     wg := wg p; pc := pc p; batch := batch p;
     saved := saved p ++ [call];
     p_log := p_log p ++ [line] |}.

Definition set_batch (p : Publisher) (b : list Models.TrafficLog) : Publisher :=
  {| p_in := p_in p; repo := repo p; batchSize := batchSize p;
     ticker_stopped := ticker_stopped p; ctx_done := ctx_done p;
     wg := wg p; pc := pc p; batch := b; saved := saved p;
     p_log := p_log p |}.

Definition set_in (p : Publisher) (c : chan Models.TrafficLog) : Publisher :=
  {| p_in := c; repo := repo p; batchSize := batchSize p;
     ticker_stopped := ticker_stopped p; ctx_done := ctx_done p;
     wg := wg p; pc := pc p; batch := batch p; saved := saved p;
     p_log := p_log p |}.

Definition set_log (p : Publisher) (l : Logger) : Publisher :=
  {| p_in := p_in p; repo := repo p; batchSize := batchSize p;
     ticker_stopped := ticker_stopped p; ctx_done := ctx_done p;
     wg := wg p; pc := pc p; batch := batch p; saved := saved p;
     p_log := l |}.

(** The deferred calls of [processBatch], run on every return: the
    closure flushing a non-empty batch and stopping the ticker, then
    [p.wg.Done()]. *)
Definition processBatch_return (p : Publisher) : Publisher :=
  let p1 := if Nat.ltb 0 (length (batch p)) then flushBatch p (batch p) else p in
  {| p_in := p_in p1; repo := repo p1; batchSize := batchSize p1;
     ticker_stopped := true; ctx_done := ctx_done p1;
     wg := wg p1 - 1; pc := PReturned; batch := batch p1; saved := saved p1;
     p_log := p_log p1 |}.

(** The body of [case log := <-p.in] for a record that is not nil. *)
Definition processBatch_receive (p : Publisher) (log : Models.TrafficLog) : Publisher :=
  let p1 := set_batch p (batch p ++ [log]) in
  if batchSize p1 <=? Z.of_nat (length (batch p1))
  then set_batch (flushBatch p1 (batch p1)) []
  else p1.

(** The case of the [select] that the runtime picks among those ready. *)
Inductive select_case : Type :=
| SelDone   (* <-p.ctx.Done() *)
| SelIn     (* log := <-p.in *)
| SelTick.  (* <-p.flushTicker.C *)

(** One step of the [processBatch] goroutine. At [PLoop] the picked case
    must be ready, otherwise the step is [Blocks]. *)
Definition processBatch_step (p : Publisher) (c : select_case) : outcome Publisher :=
  match pc p with
  | PStart =>
      if makeslice_panics sizeof_pointer (batchSize p)
      then Panics "makeslice: cap out of range"
      else Returns {| p_in := p_in p; repo := repo p; batchSize := batchSize p;
                      ticker_stopped := ticker_stopped p; ctx_done := ctx_done p;
                      wg := wg p; pc := PLoop; batch := []; saved := saved p;
                      p_log := p_log p |}
  | PLoop =>
      match c with
      | SelDone =>
          if ctx_done p then Returns (processBatch_return p) else Blocks
      | SelIn =>
          match recv (p_in p) with
          | Returns (None, _) => Returns (processBatch_return p)
          | Returns (Some log, ch) => Returns (processBatch_receive (set_in p ch) log)
          | Blocks => Blocks
          | Panics msg => Panics msg
          end
      | SelTick =>
          if ticker_stopped p then Blocks
          else if Nat.ltb 0 (length (batch p))
               then Returns (set_batch (flushBatch p (batch p)) [])
               else Returns p
      end
  | PReturned => Blocks
  end.

(** [Stop] is [p.cancel()] followed by [p.wg.Wait()]. *)
Definition Publisher_cancel (p : Publisher) : Publisher :=
  {| p_in := p_in p; repo := repo p; batchSize := batchSize p;
     ticker_stopped := ticker_stopped p; ctx_done := true;
     wg := wg p; pc := pc p; batch := batch p; saved := saved p;
     p_log := p_log p |}.

Definition Publisher_wait (p : Publisher) : outcome Publisher :=
  if wg p =? 0 then Returns p else Blocks.

(** The goroutine run under a schedule of picked cases, a case that is
    not ready being skipped; a panic ends the run. *)
Fixpoint processBatch_run (p : Publisher) (sched : list select_case) : outcome Publisher :=
  match sched with
  | [] => Returns p
  | c :: rest =>
      match processBatch_step p c with
      | Returns p1 => processBatch_run p1 rest
      | Blocks => processBatch_run p rest
      | Panics msg => Panics msg
      end
  end.

End Pipeline.

Import Pipeline.

(* ===================================================================== *)
(** * internal/config: the options read by the proxy binary *)
(* ===================================================================== *)

Module Config.

Record Config : Type := {
  Proxy_Address : string;
  Proxy_Port : Z;
  Proxy_Auth_Enabled : bool;
  Proxy_Auth_Username : string;
  Proxy_Auth_Password : string;
  Proxy_MaxConnections : Z;
  Proxy_IPWhitelist : list string;
  Pipeline_Workers : Z;
  Pipeline_BufferSize : Z;
  Pipeline_BatchSize : Z;
  Pipeline_FlushInterval : Z;
  RateLimit_Enabled : bool;
  RateLimit_RequestsPerSecond : Z
}.

End Config.

(* ===================================================================== *)
(** * internal/proxy *)
(* ===================================================================== *)

Module Proxy.

(** ** What the code uses of package [net] *)

Inductive Addr : Type :=
| TCPAddr (ip : string) (port : Z)
| OtherAddr (s : string).

(** An established upstream connection. *)
Record Conn : Type := { RemoteAddr : Addr }.

(** [net.SplitHostPort] and [fmt.Sscanf] with the verb [%d], taken as
    given. *)
Record NetLib : Type := {
  SplitHostPort : string -> option (string * string);
  Sscanf_d : string -> Z
}.

Definition parseAddress (net : NetLib) (addr : string) : string * Z :=
  match SplitHostPort net addr with
  | None => (addr, 0)
  | Some (host, portStr) => (host, Sscanf_d net portStr)
  end.

(** ** Server and trackedConn (server.go) *)

Record Server : Type := {
  cfg : Config.Config;
  log : Logger;
  collector : Collector;
  listener : bool  (* a listener is set and open *)
}.

Definition NewServer (c : Config.Config) (l : Logger) (col : Collector) : Server :=
  {| cfg := c; log := l; collector := col; listener := false |}.

(** [Start]: the SOCKS5 server is created from a configuration holding a
    resolver and [dialWithTracking] only, then the address is bound;
    [listen_ok] tells whether [net.Listen] succeeded. *)
Definition Start (s : Server) (listen_ok : bool) : error * Server :=
  if listen_ok then
    (None, {| cfg := cfg s; log := Log (log s) InfoLevel "SOCKS5 server started";
              collector := collector s; listener := true |})
  else (Some "failed to listen", s).

(** [Stop] closes the listener when there is one. *)
Definition Stop (s : Server) : Server :=
  {| cfg := cfg s; log := log s; collector := collector s; listener := false |}.

Record trackedConn : Type := {
  tc_Conn : Conn;
  destAddr : string;
  timestamp : Time;
  latency : Z;
  bytesIn : Z;
  bytesOut : Z
}.

(** The outcome of [dialer.DialContext]: the reading of the clock before
    the call, the time the call took, and the connection unless it
    failed. *)
Record Dial : Type := {
  dial_start : Time;
  dial_elapsed : Duration;
  dial_conn : option Conn
}.

(** [dialWithTracking]: [None] is the error return, after the debug
    line. *)
Definition dialWithTracking (s : Server) (addr : string) (d : Dial)
  : option trackedConn * Server :=
  match dial_conn d with
  | None =>
      (None, {| cfg := cfg s; log := Log (log s) DebugLevel "dial failed";
                collector := collector s; listener := listener s |})
  | Some conn =>
      (Some {| tc_Conn := conn; destAddr := addr; timestamp := dial_start d;
               latency := Duration_Milliseconds (dial_elapsed d);
               bytesIn := 0; bytesOut := 0 |}, s)
  end.

(** [Read] and [Write] add the [n] bytes moved by the wrapped
    connection. *)
Definition tc_Read (tc : trackedConn) (n : Z) : trackedConn :=
  {| tc_Conn := tc_Conn tc; destAddr := destAddr tc; timestamp := timestamp tc;
     latency := latency tc; bytesIn := wrap64 (bytesIn tc + n);
     bytesOut := bytesOut tc |}.

Definition tc_Write (tc : trackedConn) (n : Z) : trackedConn :=
  {| tc_Conn := tc_Conn tc; destAddr := destAddr tc; timestamp := timestamp tc;
     latency := latency tc; bytesIn := bytesIn tc;
     bytesOut := wrap64 (bytesOut tc + n) |}.

(** The event built by [Close]. *)
Definition close_event (net : NetLib) (tc : trackedConn) : RawTrafficEvent :=
  let sourceIP :=
    match RemoteAddr (tc_Conn tc) with
    | TCPAddr ip _ => ip
    | OtherAddr _ => ""
    end in
  let '(destIP, destPort) := parseAddress net (destAddr tc) in
  {| SourceIP := sourceIP;
     DestinationIP := destIP;
     Domain := "";
     Port := destPort;
     Timestamp := timestamp tc;
     LatencyMs := latency tc;
     BytesIn := bytesIn tc;
     BytesOut := bytesOut tc;
     Protocol := "tcp" |}.

(** [Close] hands the event to the collector of the server, whose answer
    is discarded. [parked] tells whether a receiver is parked on the
    collector's channel; the result holds the event when it went to that
    receiver directly. *)
Definition tc_Close (net : NetLib) (s : Server) (tc : trackedConn) (parked : bool)
  : outcome (Server * option RawTrafficEvent) :=
  match Collect (collector s) parked (close_event net tc) with
  | Returns (_, col, handed) =>
      Returns ({| cfg := cfg s; log := log s; collector := col; listener := listener s |},
               handed)
  | Blocks => Blocks
  | Panics msg => Panics msg
  end.

(** ** Sessions, as they reach the code of the repository

    The SOCKS5 library is outside the repository. [Start] hands it a
    [socks5.Config] in which it sets the resolver and the dialer,
    [dialWithTracking], and nothing else; the library then serves every
    client connection on its own. What reaches the repository's code for
    one session is what the library calls: the dialer, at most once, and
    then [Read], [Write] and [Close] on the connection the dialer
    returned. Which of these calls the library makes for a client is not
    described here: it is part of the session. *)

Inductive io_event : Type :=
| IoRead (n : Z)    (* bytes read from the destination *)
| IoWrite (n : Z).  (* bytes written to the destination *)

Record Session : Type := {
  (* who the client is *)
  client_ip : string;
  client_user : string;
  client_pass : string;
  arrival : Time;
  (* the call of the dialer, when the library makes one: the address it
     passes and what the network answers *)
  dialed : option (string * Dial);
  (* the reads and writes the library makes on the tracked connection *)
  relay : list io_event;
  (* whether the library closes the tracked connection *)
  closes_conn : bool;
  (* whether a worker is parked in its receive on the collector's
     channel when the connection is closed *)
  receiver_parked : bool
}.

Definition do_io (tc : trackedConn) (e : io_event) : trackedConn :=
  match e with
  | IoRead n => tc_Read tc n
  | IoWrite n => tc_Write tc n
  end.

(** What a session left behind: the tracked connection the dialer
    returned, as it was after the last read or write (a session relays
    when there is one); the event that [Close] handed directly to a
    parked receiver; the server afterwards, whose collector holds what
    [Collect] queued or logged. *)
Record Served : Type := {
  tracked : option trackedConn;
  handed : option RawTrafficEvent;
  server : Server
}.

(** The calls of one session run on the repository's code. *)
Definition serve (net : NetLib) (s : Server) (x : Session) : outcome Served :=
  match dialed x with
  | None => Returns {| tracked := None; handed := None; server := s |}
  | Some (addr, d) =>
      let '(conn, s1) := dialWithTracking s addr d in
      match conn with
      | None => Returns {| tracked := None; handed := None; server := s1 |}
      | Some tc =>
          let tc1 := fold_left do_io (relay x) tc in
          if closes_conn x then
            match tc_Close net s1 tc1 (receiver_parked x) with
            | Returns (s2, h) =>
                Returns {| tracked := Some tc1; handed := h; server := s2 |}
            | Blocks => Blocks
            | Panics msg => Panics msg
            end
          else Returns {| tracked := Some tc1; handed := None; server := s1 |}
      end
  end.

(** ** The four checks of the specification *)


End Proxy.

(* ===================================================================== *)
(** * cmd/proxy: the running pipeline and the shutdown sequence of main *)
(* ===================================================================== *)

Module Main.

(** Where [main] stands once the pipeline and the proxy are started. *)
Inductive main_pc : Type :=
| MSignal            (* <-sigChan *)
| MProxyStop         (* proxyServer.Stop() *)
| MPublisherCancel   (* publisher.Stop(): p.cancel() *)
| MPublisherWait     (* publisher.Stop(): p.wg.Wait() *)
| MNormalizerClose   (* normalizer.Close() *)
| MCloseCollector    (* close(collectorChan) *)
| MShutdownComplete  (* the last log line, then main returns *)
| MExited.

(** The channels and the logger are shared: each is stored once, and the
    publisher's [p_in] and [p_log] are refreshed from them before it
    moves. The repository holds two revisions of [main]: one ends with
    [close(collectorChan)], the other leaves that channel open;
    [closes_collector] tells them apart. *)
Record System : Type := {
  collectorChan : chan RawTrafficEvent;
  normalizerOutputChan : chan Models.TrafficLog;
  workers : list worker_pc;
  publisher : Publisher;
  listening : bool;
  main : main_pc;
  zapLog : Logger;
  crashed : option string;
  closes_collector : bool
}.

(** The state [main] reaches before it waits for a signal: the two
    channels are made, then the normalizer is started and the publisher
    is built and started. [hchanSize] is the size of a channel header in
    the runtime at hand. *)
Definition init (hchanSize : Z) (closes : bool) (c : Config.Config) (r : Repository)
  : outcome System :=
  let collectorChan0 := make_chan (Z.to_nat (Config.Pipeline_BufferSize c)) in
  let normalizerOutputChan0 := make_chan (Z.to_nat (Config.Pipeline_BufferSize c)) in
  if makechan_panics hchanSize sizeof_RawTrafficEvent (Config.Pipeline_BufferSize c)
  then Panics "makechan: size out of range" else
  if makechan_panics hchanSize sizeof_pointer (Config.Pipeline_BufferSize c)
  then Panics "makechan: size out of range" else
  match NewPublisher normalizerOutputChan0 r (Config.Pipeline_BatchSize c)
                     (Config.Pipeline_FlushInterval c) [] with
  | Returns p =>
      Returns {| collectorChan := collectorChan0;
                 normalizerOutputChan := normalizerOutputChan0;
                 workers := Normalizer_Start (Config.Pipeline_Workers c);
                 publisher := Publisher_Start p;
                 listening := true;
                 main := MSignal;
                 zapLog := [];
                 crashed := None;
                 closes_collector := closes |}
  | Blocks => Blocks
  | Panics msg => Panics msg
  end.

(** Who moves next. *)
Inductive label : Type :=
| LMain
| LWorker (i : nat)
| LPublisher (c : select_case)
| LSession (event : RawTrafficEvent)
    (* a tracked connection is closed and its [Collect] finds no worker
       parked in its receive *)
| LHandoffIn (event : RawTrafficEvent) (i : nat)
    (* a tracked connection is closed while worker [i] is parked in its
       receive: the event goes to that worker directly *)
| LHandoffOut (i : nat).
    (* worker [i] sends while the publisher is parked in its select: the
       record goes to the publisher directly *)

Definition crash (s : System) (msg : string) : System :=
  {| collectorChan := collectorChan s; normalizerOutputChan := normalizerOutputChan s;
     workers := workers s; publisher := publisher s; listening := listening s;
     main := main s; zapLog := zapLog s; crashed := Some msg;
     closes_collector := closes_collector s |}.

Definition set_main (s : System) (m : main_pc) : System :=
  {| collectorChan := collectorChan s; normalizerOutputChan := normalizerOutputChan s;
     workers := workers s; publisher := publisher s; listening := listening s;
     main := m; zapLog := zapLog s; crashed := crashed s;
     closes_collector := closes_collector s |}.

Definition set_zapLog (s : System) (l : Logger) : System :=
  {| collectorChan := collectorChan s; normalizerOutputChan := normalizerOutputChan s;
     workers := workers s; publisher := publisher s; listening := listening s;
     main := main s; zapLog := l; crashed := crashed s;
     closes_collector := closes_collector s |}.

Definition set_listening (s : System) (b : bool) : System :=
  {| collectorChan := collectorChan s; normalizerOutputChan := normalizerOutputChan s;
     workers := workers s; publisher := publisher s; listening := b;
     main := main s; zapLog := zapLog s; crashed := crashed s;
     closes_collector := closes_collector s |}.

Definition set_publisher (s : System) (p : Publisher) : System :=
  {| collectorChan := collectorChan s; normalizerOutputChan := normalizerOutputChan s;
     workers := workers s; publisher := p; listening := listening s;
     main := main s; zapLog := zapLog s; crashed := crashed s;
     closes_collector := closes_collector s |}.

Definition set_collectorChan (s : System) (c : chan RawTrafficEvent) : System :=
  {| collectorChan := c; normalizerOutputChan := normalizerOutputChan s;
     workers := workers s; publisher := publisher s; listening := listening s;
     main := main s; zapLog := zapLog s; crashed := crashed s;
     closes_collector := closes_collector s |}.

Definition set_normalizerOutputChan (s : System) (c : chan Models.TrafficLog) : System :=
  {| collectorChan := collectorChan s; normalizerOutputChan := c;
     workers := workers s; publisher := publisher s; listening := listening s;
     main := main s; zapLog := zapLog s; crashed := crashed s;
     closes_collector := closes_collector s |}.

Definition set_workers (s : System) (ws : list worker_pc) : System :=
  {| collectorChan := collectorChan s; normalizerOutputChan := normalizerOutputChan s;
     workers := ws; publisher := publisher s; listening := listening s;
     main := main s; zapLog := zapLog s; crashed := crashed s;
     closes_collector := closes_collector s |}.

Definition main_step (s : System) : option System :=
  match main s with
  | MSignal =>
      Some (set_main (set_zapLog s (Log (zapLog s) InfoLevel "Shutting down gracefully..."))
                     MProxyStop)
  | MProxyStop =>
      Some (set_main (set_listening s false) MPublisherCancel)
  | MPublisherCancel =>
      Some (set_main (set_publisher s (Publisher_cancel (publisher s))) MPublisherWait)
  | MPublisherWait =>
      match Publisher_wait (publisher s) with
      | Returns _ => Some (set_main s MNormalizerClose)
      | _ => None
      end
  | MNormalizerClose =>
      match Normalizer_Close (NewNormalizer (collectorChan s) (normalizerOutputChan s)
                                            (zapLog s)) with
      | Returns n =>
          Some (set_main (set_normalizerOutputChan s (n_out n))
                         (if closes_collector s then MCloseCollector
                          else MShutdownComplete))
      | Blocks => None
      | Panics msg => Some (crash s msg)
      end
  | MCloseCollector =>
      match close (collectorChan s) with
      | Returns ch => Some (set_main (set_collectorChan s ch) MShutdownComplete)
      | Blocks => None
      | Panics msg => Some (crash s msg)
      end
  | MShutdownComplete =>
      Some (set_main (set_zapLog s (Log (zapLog s) InfoLevel "Shutdown complete")) MExited)
  | MExited => None
  end.

Definition worker_step (s : System) (i : nat) : option System :=
  match workers s !! i with
  | None => None
  | Some w =>
      match process_step (NewNormalizer (collectorChan s) (normalizerOutputChan s)
                                        (zapLog s)) w with
      | Returns (n, w1) =>
          Some (set_workers
                  (set_zapLog
                     (set_normalizerOutputChan (set_collectorChan s (n_in n)) (n_out n))
                     (n_log n))
                  (<[i := w1]> (workers s)))
      | Blocks => None
      | Panics msg => Some (crash s msg)
      end
  end.

Definition publisher_step (s : System) (c : select_case) : option System :=
  match processBatch_step
          (set_log (set_in (publisher s) (normalizerOutputChan s)) (zapLog s)) c with
  | Returns p =>
      Some (set_publisher (set_zapLog (set_normalizerOutputChan s (p_in p)) (p_log p)) p)
  | Blocks => None
  | Panics msg => Some (crash s msg)
  end.

Definition session_step (s : System) (event : RawTrafficEvent) : option System :=
  match Collect (NewCollector (collectorChan s) (zapLog s)) false event with
  | Returns (_, col, _) =>
      Some (set_zapLog (set_collectorChan s (col_out col)) (col_log col))
  | Blocks => None
  | Panics msg => Some (crash s msg)
  end.

(** A receiver parks only on an open channel whose buffer is empty; the
    [Collect] that finds worker [i] there hands it the event, whatever
    the capacity. *)
Definition handoff_in_step (s : System) (event : RawTrafficEvent) (i : nat)
  : option System :=
  match workers s !! i, buf (collectorChan s), closed (collectorChan s) with
  | Some WRange, [], false =>
      match Collect (NewCollector (collectorChan s) (zapLog s)) true event with
      | Returns (_, col, Some received) =>
          Some (set_workers
                  (set_zapLog (set_collectorChan s (col_out col)) (col_log col))
                  (<[i := WSelect (normalize received)]> (workers s)))
      | _ => None
      end
  | _, _, _ => None
  end.

Definition handoff_out_step (s : System) (i : nat) : option System :=
  match workers s !! i, buf (normalizerOutputChan s), closed (normalizerOutputChan s),
        pc (publisher s) with
  | Some (WSelect trafficLog), [], false, PLoop =>
      let p := processBatch_receive
                 (set_log (set_in (publisher s) (normalizerOutputChan s)) (zapLog s))
                 trafficLog in
      Some (set_workers (set_publisher (set_zapLog s (p_log p)) p)
                        (<[i := WRange]> (workers s)))
  | _, _, _, _ => None
  end.

(** One step of the program; [None] when the chosen goroutine cannot
    move. Nothing moves after a panic or after [main] has returned. *)
Definition step (s : System) (l : label) : option System :=
  match crashed s, main s with
  | Some _, _ => None
  | None, MExited => None
  | None, _ =>
      match l with
      | LMain => main_step s
      | LWorker i => worker_step s i
      | LPublisher c => publisher_step s c
      | LSession event => session_step s event
      | LHandoffIn event i => handoff_in_step s event i
      | LHandoffOut i => handoff_out_step s i
      end
  end.

(** An execution is a sequence of enabled steps. *)
Fixpoint exec (s : System) (ls : list label) : option System :=
  match ls with
  | [] => Some s
  | l :: rest =>
      match step s l with
      | Some s1 => exec s1 rest
      | None => None
      end
  end.

Definition worker_exited (w : worker_pc) : bool :=
  match w with WReturned => true | _ => false end.

End Main.

(* ===================================================================== *)
(** * internal/pipeline: WorkerPool (pool.go) *)
(* ===================================================================== *)

Module Pool.

(** A [Task] is a closure; it is known here by an identifier, and what it
    returns when it runs is read from [run]. The nil task is [None]. *)
Definition Task : Type := nat.

(** One [worker] goroutine: at its [select], or returned. *)
Inductive worker_pc : Type := WSelect | WReturned.

(** [accepted] is not a field of the Go struct: it lists the tasks that
    [Submit] put on the channel, oldest first, for the statements about
    what the workers run. [executed] lists the tasks run so far. *)
Record WorkerPool : Type := {
  taskChan : chan (option Task);
  numWorkers : Z;
  wg : Z;
  ctx_done : bool;
  log : Logger;
  workers : list worker_pc;
  executed : list Task;
  accepted : list (option Task)
}.

(** [NewWorkerPool]: the channel has room for twice the number of
    workers, a 64-bit product; [make] panics on a size that is negative
    or too large. [hchanSize] is the size of a channel header in the
    runtime at hand. *)
Definition NewWorkerPool (hchanSize : Z) (n : Z) (l : Logger) : outcome WorkerPool :=
  if makechan_panics hchanSize sizeof_pointer (wrap64 (n * 2))
  then Panics "makechan: size out of range"
  else Returns {| taskChan := make_chan (Z.to_nat (wrap64 (n * 2)));
                  numWorkers := n; wg := 0; ctx_done := false; log := l;
                  workers := []; executed := []; accepted := [] |}.

(** [Start]: one [wg.Add(1)] and one goroutine per worker. *)
Definition Start (wp : WorkerPool) : WorkerPool :=
  {| taskChan := taskChan wp; numWorkers := numWorkers wp;
     wg := wg wp + Z.max 0 (numWorkers wp); ctx_done := ctx_done wp; log := log wp;
     workers := workers wp ++ repeat WSelect (Z.to_nat (numWorkers wp));
     executed := executed wp; accepted := accepted wp |}.

(** The case of a two-way [select] that the runtime picks. *)
Inductive choice : Type :=
| PickDone   (* <-ctx.Done() *)
| PickChan.  (* the operation on taskChan *)

Definition set_worker (wp : WorkerPool) (i : nat) (w : worker_pc) : WorkerPool :=
  {| taskChan := taskChan wp; numWorkers := numWorkers wp; wg := wg wp;
     ctx_done := ctx_done wp; log := log wp;
     workers := <[i := w]> (workers wp);
     executed := executed wp; accepted := accepted wp |}.

(** The deferred [wg.Done()] of worker [i]. *)
Definition worker_return (wp : WorkerPool) (i : nat) : WorkerPool :=
  {| taskChan := taskChan wp; numWorkers := numWorkers wp; wg := wg wp - 1;
     ctx_done := ctx_done wp; log := log wp;
     workers := <[i := WReturned]> (workers wp);
     executed := executed wp; accepted := accepted wp |}.

(** One turn of the loop of worker [i] under the picked case; [Blocks]
    when that case is not ready. A received task runs at once. *)
Definition worker (run : Task -> error) (wp : WorkerPool) (i : nat) (c : choice)
  : outcome WorkerPool :=
  match workers wp !! i with
  | Some WSelect =>
      match c with
      | PickDone => if ctx_done wp then Returns (worker_return wp i) else Blocks
      | PickChan =>
          match recv (taskChan wp) with
          | Returns (Some (Some task), ch) =>
              Returns {| taskChan := ch; numWorkers := numWorkers wp; wg := wg wp;
                         ctx_done := ctx_done wp;
                         log := match run task with
                                | Some _ => Log (log wp) ErrorLevel "task execution failed"
                                | None => log wp
                                end;
                         workers := workers wp;
                         executed := executed wp ++ [task];
                         accepted := accepted wp |}
          | Returns (Some None, ch) =>
              Returns (worker_return
                         {| taskChan := ch; numWorkers := numWorkers wp; wg := wg wp;
                            ctx_done := ctx_done wp; log := log wp;
                            workers := workers wp; executed := executed wp;
                            accepted := accepted wp |} i)
          | Returns (None, _) => Returns (worker_return wp i)
          | Blocks => Blocks
          | Panics msg => Panics msg
          end
      end
  | _ => Blocks
  end.

(** [Submit] under the picked case: the error of the context, or the
    send. *)
Definition Submit (wp : WorkerPool) (task : option Task) (c : choice)
  : outcome (error * WorkerPool) :=
  match c with
  | PickDone => if ctx_done wp then Returns (Some "context canceled", wp) else Blocks
  | PickChan =>
      match send (taskChan wp) task with
      | Returns ch =>
          Returns (None, {| taskChan := ch; numWorkers := numWorkers wp; wg := wg wp;
                            ctx_done := ctx_done wp; log := log wp;
                            workers := workers wp; executed := executed wp;
                            accepted := accepted wp ++ [task] |})
      | Blocks => Blocks
      | Panics msg => Panics msg
      end
  end.

(** [Stop] up to its wait: [wp.cancel()] then [close(wp.taskChan)]. *)
Definition Stop_close (wp : WorkerPool) : outcome WorkerPool :=
  match close (taskChan wp) with
  | Returns ch =>
      Returns {| taskChan := ch; numWorkers := numWorkers wp; wg := wg wp;
                 ctx_done := true; log := log wp; workers := workers wp;
                 executed := executed wp; accepted := accepted wp |}
  | Blocks => Blocks
  | Panics msg => Panics msg
  end.

(** [wp.wg.Wait()]. *)
Definition Stop_wait (wp : WorkerPool) : outcome WorkerPool :=
  if wg wp =? 0 then Returns wp else Blocks.

(** What happens next in a pool. *)
Inductive label : Type :=
| LSubmit (task : option Task) (c : choice)
| LWorker (i : nat) (c : choice)
| LStop.  (* cancel and close *)

(** One step; [None] when the chosen goroutine cannot move or panics. *)
Definition step (run : Task -> error) (wp : WorkerPool) (l : label) : option WorkerPool :=
  match l with
  | LSubmit task c =>
      match Submit wp task c with
      | Returns (_, wp1) => Some wp1
      | _ => None
      end
  | LWorker i c =>
      match worker run wp i c with
      | Returns wp1 => Some wp1
      | _ => None
      end
  | LStop =>
      match Stop_close wp with
      | Returns wp1 => Some wp1
      | _ => None
      end
  end.

Fixpoint exec (run : Task -> error) (wp : WorkerPool) (ls : list label)
  : option WorkerPool :=
  match ls with
  | [] => Some wp
  | l :: rest =>
      match step run wp l with
      | Some wp1 => exec run wp1 rest
      | None => None
      end
  end.

(** The tasks of a list that are not nil. *)
Definition tasks_of (l : list (option Task)) : list Task := omap id l.

(** Every worker sees the cancellation first: worker [0] to worker
    [n - 1] each pick the [Done] case once. *)
Definition all_pick_done (n : nat) : list label :=
  map (fun i => LWorker i PickDone) (seq 0 n).

(** The workers that have not returned. *)
Fixpoint running (ws : list worker_pc) : nat :=
  match ws with
  | [] => 0
  | WSelect :: rest => S (running rest)
  | WReturned :: rest => running rest
  end.

End Pool.

(* ===================================================================== *)
(** * Runs of calls on the pipeline and on the connection pool *)
(* ===================================================================== *)

Module Runs.

(** ** ConnectionPool *)

Inductive cp_op : Type := OpAdd | OpRemove.

Definition cp_apply (cp : ConnectionPool) (o : cp_op) : ConnectionPool :=
  match o with
  | OpAdd => snd (AddConnection cp)
  | OpRemove => RemoveConnection cp
  end.

Definition cp_run (cp : ConnectionPool) (ops : list cp_op) : ConnectionPool :=
  fold_left cp_apply ops cp.

(** ** Collector: the events of a list collected one after the other,
    no receiver being parked on the channel *)

Fixpoint Collect_all (c : Collector) (events : list RawTrafficEvent)
  : outcome Collector :=
  match events with
  | [] => Returns c
  | event :: rest =>
      match Collect c false event with
      | Returns (_, c1, _) => Collect_all c1 rest
      | Blocks => Blocks
      | Panics msg => Panics msg
      end
  end.

Definition dropped_warning : Entry :=
  {| level := WarnLevel; message := "collector channel full, dropping event" |}.


(** The room left in the buffer of a channel. *)
Definition free {A : Type} (c : chan A) : nat := (cap c - length (buf c))%nat.

(** ** Normalizer: one worker running alone for [k] steps, stopping where
    it parks *)


(** ** Publisher *)

(** [Close]: [close(p.in)] then [Stop], here up to the wait of [Stop]. *)
Definition Publisher_Close (p : Publisher) : outcome Publisher :=
  match close (p_in p) with
  | Returns ch => Returns (Publisher_cancel (set_in p ch))
  | Blocks => Blocks
  | Panics msg => Panics msg
  end.

(** The records handed to the repository so far, oldest first. *)
Definition stored (p : Publisher) : list Models.TrafficLog :=
  concat (map logs (saved p)).

(** The records the loop still holds. *)
Definition pending (p : Publisher) : list Models.TrafficLog :=
  match pc p with
  | PReturned => []
  | _ => batch p
  end.

(** The largest batch the loop can hand over. *)
Definition max_batch (p : Publisher) : Z := Z.max 1 (batchSize p).

(** ** trackedConn: the bytes moved by a list of reads and writes *)

Definition read_bytes (e : Proxy.io_event) : Z :=
  match e with Proxy.IoRead n => n | Proxy.IoWrite _ => 0 end.

Definition written_bytes (e : Proxy.io_event) : Z :=
  match e with Proxy.IoRead _ => 0 | Proxy.IoWrite n => n end.

Definition total (f : Proxy.io_event -> Z) (l : list Proxy.io_event) : Z :=
  fold_right (fun e acc => f e + acc) 0 l.

(** The same calls made for another client. *)
Definition set_client (x : Proxy.Session) (ip user pass : string) (t : Time)
  : Proxy.Session :=
  {| Proxy.client_ip := ip;
     Proxy.client_user := user;
     Proxy.client_pass := pass;
     Proxy.arrival := t;
     Proxy.dialed := Proxy.dialed x;
     Proxy.relay := Proxy.relay x;
     Proxy.closes_conn := Proxy.closes_conn x;
     Proxy.receiver_parked := Proxy.receiver_parked x |}.

End Runs.

(* ===================================================================== *)
(** * The records of a running program: where each one is *)
(* ===================================================================== *)

Module Ledger.

(** The record a worker holds between its receive and its send. *)
Definition holding (w : worker_pc) : list Models.TrafficLog :=
  match w with
  | WSelect trafficLog => [trafficLog]
  | _ => []
  end.

Definition held (ws : list worker_pc) : list Models.TrafficLog :=
  flat_map holding ws.

(** The records on their way: queued events (as the records they will
    become), records held by workers, records queued for the publisher,
    and the batch of the publisher. *)
Definition in_flight (s : Main.System) : list Models.TrafficLog :=
  map normalize (buf (Main.collectorChan s)) ++
  held (Main.workers s) ++
  buf (Main.normalizerOutputChan s) ++
  Runs.pending (Main.publisher s).

(** The two warnings written when an event or a record is dropped. *)
Definition is_drop (e : Entry) : bool :=
  match level e with
  | WarnLevel =>
      String.eqb (message e) "collector channel full, dropping event"
      || String.eqb (message e) "normalizer output channel full, dropping event"
  | _ => false
  end.

Fixpoint drops (l : Logger) : nat :=
  match l with
  | [] => 0
  | e :: rest => (if is_drop e then 1 else 0) + drops rest
  end.

(** The events that sessions hand over along a run. *)
Definition handed (l : Main.label) : list RawTrafficEvent :=
  match l with
  | Main.LSession event => [event]
  | Main.LHandoffIn event _ => [event]
  | _ => []
  end.

Definition offered (ls : list Main.label) : list RawTrafficEvent :=
  flat_map handed ls.

(** A call of [SaveTrafficLogs] with at least one record and at most
    [m]. *)
Definition batch_within (m : Z) (call : SaveCall) : Prop :=
  0 < Z.of_nat (length (logs call)) <= m.

End Ledger.

Module Accounts.

(** The batch is empty before the loop is entered. *)
Definition fresh (s : Main.System) : Prop :=
  pc (Main.publisher s) = PStart -> batch (Main.publisher s) = [].

(** Every record the program holds or has handed to the repository. *)
Definition ledger (s : Main.System) : list Models.TrafficLog :=
  Runs.stored (Main.publisher s) ++ Ledger.in_flight s.

End Accounts.

Import Proxy Main.

(* ===================================================================== *)
(** * The statements under study *)
(* ===================================================================== *)

(** Every value stored in the allow-list is [true]. *)
Definition all_true (m : gmap string bool) : Prop :=
  forall k v, m !! k = Some v -> v = true.

(** The claim C4 as it is worded, for one state of the whitelist. *)
Definition whitelist_claim (w : IPWhitelist) : Prop :=
  (allowedIPs w = ∅ -> forall ip, IsAllowed w ip = true) /\
  (allowedIPs w <> ∅ ->
   forall ip, IsAllowed w ip = true <-> ip ∈ dom (allowedIPs w)).


(** The claim C5 as it is worded, for a pool of maximum [maxc]: [maxc]
    calls of [AddConnection] on the fresh pool answer true; the next one
    answers false and keeps the counter; after one [RemoveConnection]
    exactly one more call answers true; [RemoveConnection] keeps a
    counter that is not negative from becoming negative. *)
Definition pool_claim (maxc : Z) : Prop :=
  let '(answers, full) :=
    AddConnection_n (Z.to_nat maxc) (NewConnectionPool maxc []) in
  let refused := AddConnection full in
  let freed := RemoveConnection (snd refused) in
  let again := AddConnection freed in
  answers = repeat true (Z.to_nat maxc) /\
  fst refused = false /\
  activeConn (snd refused) = activeConn full /\
  fst again = true /\
  fst (AddConnection (snd again)) = false /\
  (forall cp : ConnectionPool,
      is_int64 (activeConn cp) -> 0 <= activeConn cp ->
      0 <= activeConn (RemoveConnection cp)).

(** The claim C6 as it is worded, for one event: the record agrees with
    the event on the nine fields and carries a creation timestamp set by
    the normalizer. *)
Definition normalizer_claim (event : RawTrafficEvent) : Prop :=
  let r := normalize event in
  Models.SourceIP r = SourceIP event /\
  Models.DestinationIP r = DestinationIP event /\
  Models.Domain r = Domain event /\
  Models.Port r = Port event /\
  Models.Timestamp r = Timestamp event /\
  Models.LatencyMs r = LatencyMs event /\
  Models.BytesIn r = BytesIn event /\
  Models.BytesOut r = BytesOut event /\
  Models.Protocol r = Protocol event /\
  Time_IsZero (Models.CreatedAt r) = false.

(** The event of [TestCollector], taken at the instant [t]. *)
Definition test_event (t : Time) : RawTrafficEvent :=
  {| SourceIP := "192.168.1.1";
     DestinationIP := "8.8.8.8";
     Domain := "google.com";
     Port := 443;
     Timestamp := t;
     LatencyMs := 100;
     BytesIn := 1024;
     BytesOut := 512;
     Protocol := "tcp" |}.

(** The claim C7 as it is worded, for one collector, one event and one
    state of the receivers: [Collect] returns, the error is nil, and on
    a full queue the event is dropped: the queue is left as it was and
    the event reaches no receiver. *)
Definition collect_claim (c : Collector) (parked : bool) (event : RawTrafficEvent)
  : Prop :=
  exists (c' : Collector) (handed : option RawTrafficEvent),
    Collect c parked event = Returns (None, c', handed) /\
    (chan_full (col_out c) = true -> col_out c' = col_out c /\ handed = None).

(** The storage calls owed at shutdown by a publisher whose context is
    cancelled: one call with the pending batch when there is one, none
    otherwise. *)
Definition final_flush (p : Publisher) : list SaveCall :=
  match batch p with
  | [] => []
  | _ :: _ => [ {| ctx_cancelled := true; logs := batch p |} ]
  end.

(** A publisher in its loop with one record pending. *)
Definition test_publisher : Publisher :=
  {| p_in := make_chan 4; repo := fun _ _ => None; batchSize := 100;
     ticker_stopped := false; ctx_done := false; wg := 1; pc := PLoop;
     batch := [normalize (test_event 3)]; saved := []; p_log := [] |}.


(** A configuration under which the authenticator and the whitelist each
    reject the client below: credentials are required, and the whitelist
    does not hold the client's address. *)
Definition strict_config : Config.Config :=
  {| Config.Proxy_Address := "0.0.0.0";
     Config.Proxy_Port := 1080;
     Config.Proxy_Auth_Enabled := true;
     Config.Proxy_Auth_Username := "testuser";
     Config.Proxy_Auth_Password := "testpass";
     Config.Proxy_MaxConnections := 10000;
     Config.Proxy_IPWhitelist := ["192.168.1.1"];
     Config.Pipeline_Workers := 4;
     Config.Pipeline_BufferSize := 16;
     Config.Pipeline_BatchSize := 100;
     Config.Pipeline_FlushInterval := 5000;
     Config.RateLimit_Enabled := true;
     Config.RateLimit_RequestsPerSecond := 10 |}.

(** A client outside the whitelist, with wrong credentials, for which
    the library calls the dialer with 93.184.216.34:443; the network
    grants the connection, 512 bytes are written and 1024 read, and the
    connection is closed while no worker is parked on the collector's
    channel. *)
Definition intruder : Session :=
  {| client_ip := "10.0.0.1";
     client_user := "wronguser";
     client_pass := "wrongpass";
     arrival := 1700000000;
     dialed := Some ("93.184.216.34:443",
                     {| dial_start := 1700000000;
                        dial_elapsed := 25000000;
                        dial_conn := Some {| RemoteAddr := TCPAddr "93.184.216.34" 443 |} |});
     relay := [IoWrite 512; IoRead 1024];
     closes_conn := true;
     receiver_parked := false |}.

(** The answers of package [net] and of [Sscanf] on that destination. *)
Definition example_net : NetLib :=
  {| SplitHostPort := fun a =>
       if String.eqb a "93.184.216.34:443" then Some ("93.184.216.34", "443")
       else None;
     Sscanf_d := fun p => if String.eqb p "443" then 443 else 0 |}.

Definition strict_server : Server :=
  NewServer strict_config [] (NewCollector (make_chan 16) []).



(** The event that [Close] builds for a session whose dialer was called
    with [addr], got [d] from the network and the connection [conn], and
    whose reads and writes were [io]. *)
Definition session_event (net : NetLib) (addr : string) (d : Dial) (conn : Conn)
  (io : list io_event) : RawTrafficEvent :=
  {| SourceIP := match RemoteAddr conn with
                 | TCPAddr ip _ => ip
                 | OtherAddr _ => ""
                 end;
     DestinationIP := fst (parseAddress net addr);
     Domain := "";
     Port := snd (parseAddress net addr);
     Timestamp := dial_start d;
     LatencyMs := Duration_Milliseconds (dial_elapsed d);
     BytesIn := wrap64 (Runs.total Runs.read_bytes io);
     BytesOut := wrap64 (Runs.total Runs.written_bytes io);
     Protocol := "tcp" |}.

(** The claim C2 as it is worded, for one state of the program: the
    output queue is closed only if every worker has exited. *)
Definition join_barrier_claim (s : System) : Prop :=
  closed (normalizerOutputChan s) = true ->
  Forall (fun w => worker_exited w = true) (workers s).

(** The defaults set by [setDefaults]. *)
Definition default_config : Config.Config :=
  {| Config.Proxy_Address := "0.0.0.0";
     Config.Proxy_Port := 1080;
     Config.Proxy_Auth_Enabled := false;
     Config.Proxy_Auth_Username := "";
     Config.Proxy_Auth_Password := "";
     Config.Proxy_MaxConnections := 10000;
     Config.Proxy_IPWhitelist := [];
     Config.Pipeline_Workers := 4;
     Config.Pipeline_BufferSize := 10000;
     Config.Pipeline_BatchSize := 100;
     Config.Pipeline_FlushInterval := 5000;
     Config.RateLimit_Enabled := false;
     Config.RateLimit_RequestsPerSecond := 100 |}.

(** A shutdown without traffic: the publisher enters its loop, the signal
    arrives, the listener is closed, the context is cancelled, the
    publisher returns, the wait is released, the output channel is
    closed. *)
Definition quiet_shutdown : list label :=
  [LPublisher SelTick; LMain; LMain; LMain; LPublisher SelDone; LMain; LMain].

(** A shutdown with one event in flight: a session hands an event to the
    collector and a worker takes it before the shutdown above; the
    worker sends its record once the output channel is closed. *)
Definition racy_shutdown : list label :=
  [LSession (test_event 7); LWorker 0] ++ quiet_shutdown ++ [LWorker 0].

(** Whether [normalizer.Close()] has been executed. *)
Definition output_closed_at (m : main_pc) : bool :=
  match m with
  | MSignal | MProxyStop | MPublisherCancel | MPublisherWait | MNormalizerClose => false
  | MCloseCollector | MShutdownComplete | MExited => true
  end.

(** Whether [publisher.Stop()] has returned. *)
Definition publisher_joined_at (m : main_pc) : bool :=
  match m with
  | MSignal | MProxyStop | MPublisherCancel | MPublisherWait => false
  | MNormalizerClose | MCloseCollector | MShutdownComplete | MExited => true
  end.

(** Whether [close(collectorChan)] has been executed. *)
Definition collector_closed_at (closes : bool) (m : main_pc) : bool :=
  match m with
  | MShutdownComplete | MExited => closes
  | _ => false
  end.

(** What holds of every state of the program once started. *)
Definition shutdown_inv (s : System) : Prop :=
  wg (publisher s) = match pc (publisher s) with PReturned => 0 | _ => 1 end /\
  closed (normalizerOutputChan s) = output_closed_at (main s) /\
  closed (collectorChan s) = collector_closed_at (closes_collector s) (main s) /\
  (publisher_joined_at (main s) = true -> pc (publisher s) = PReturned) /\
  (main s = MCloseCollector -> closes_collector s = true) /\
  (closed (collectorChan s) = false ->
   Forall (fun w => worker_exited w = false) (workers s)).

(** Shifting a positive number left by [n] bits. *)
Definition shl (p : positive) (n : nat) : positive := Nat.iter n xO p.

(** The binary64 number of a positive integer that fits in 53 bits: the
    mantissa is shifted to 53 bits exactly. *)
Definition canon (p : positive) : float64 :=
  S754_finite false (shl p (Z.to_nat (53 - Zpos (Pos.size p)))) (Zpos (Pos.size p) - 53).

Definition is_finite_or_zero (f : float64) : bool :=
  match f with
  | S754_finite _ _ _ | S754_zero _ => true
  | _ => false
  end.

(** The bucket of a limiter of capacity [c] that holds [k] tokens and was
    last touched at [now]. *)
Definition bucket_at (c : Z) (now : Time) (k : Z) : tokenBucket :=
  {| tokens := float64_of_int k;
     lastTime := now;
     ratePerMs := fdiv (float64_of_int c) f1000 |}.

(** The claim C3 as it is worded, for a capacity [c]: on an enabled
    limiter and for an identifier it has not seen, all calls being made
    at the same instant, the first call answers true and leaves a bucket
    of [c] tokens, the [c] following calls answer true, and the call
    after them answers false. *)
Definition burst_claim (c : Z) : Prop :=
  forall (rl : RateLimiter) (now : Time) (identifier : string),
    rl_enabled rl = true ->
    requestsPerSecond rl = c ->
    buckets rl !! identifier = None ->
    let first := Allow rl now identifier in
    let burst := Allow_burst (Z.to_nat c) (snd first) now identifier in
    fst first = true /\
    tokens <$> (buckets (snd first) !! identifier) = Some (float64_of_int c) /\
    fst burst = repeat true (Z.to_nat c) /\
    fst (Allow (snd burst) now identifier) = false.

(** A limiter of capacity [2^54] right after the first call for
    [identifier]. *)
Definition saturated_limiter (now : Time) (identifier : string) : RateLimiter :=
  {| requestsPerSecond := 2 ^ 54;
     buckets := <[identifier := bucket_at (2 ^ 54) now (2 ^ 54)]> ∅;
     rl_enabled := true |}.

(** The defaults with unbuffered channels. *)
Definition unbuffered_config : Config.Config :=
  {| Config.Proxy_Address := "0.0.0.0";
     Config.Proxy_Port := 1080;
     Config.Proxy_Auth_Enabled := false;
     Config.Proxy_Auth_Username := "";
     Config.Proxy_Auth_Password := "";
     Config.Proxy_MaxConnections := 10000;
     Config.Proxy_IPWhitelist := [];
     Config.Pipeline_Workers := 4;
     Config.Pipeline_BufferSize := 0;
     Config.Pipeline_BatchSize := 100;
     Config.Pipeline_FlushInterval := 5000;
     Config.RateLimit_Enabled := false;
     Config.RateLimit_RequestsPerSecond := 100 |}.

(** How far [main] and the publisher are from the end of the shutdown. *)
Definition main_rank (m : main_pc) : nat :=
  match m with
  | MSignal => 7
  | MProxyStop => 6
  | MPublisherCancel => 5
  | MPublisherWait => 4
  | MNormalizerClose => 3
  | MCloseCollector => 2
  | MShutdownComplete => 1
  | MExited => 0
  end.

Definition pc_rank (p : pub_pc) : nat :=
  match p with
  | PStart => 2
  | PLoop => 1
  | PReturned => 0
  end.

Definition rank (s : System) : nat :=
  (3 * main_rank (main s) + pc_rank (pc (publisher s)))%nat.

(** What the shutdown relies on: the invariant of the program, a batch
    size that [make] accepts (at most 2^45 pointers, which take
    [maxAlloc] bytes), no panic so far, and the context cancelled once
    [main] waits for the publisher. *)
Definition live (s : System) : Prop :=
  shutdown_inv s /\
  0 <= batchSize (publisher s) <= 2 ^ 45 /\
  crashed s = None /\
  (main s = MPublisherWait -> ctx_done (publisher s) = true).

(* ===================================================================== *)
(** * Properties of internal/security: Authenticator and IPWhitelist *)
(* ===================================================================== *)

(** C10. An authenticator built by [NewAuthenticator u p] is enabled, so
    the always-allow branch of [Authenticate] cannot be reached through
    the constructor, and [Authenticate x y] answers true exactly when
    [x = u] and [y = p]. *)
Theorem NewAuthenticator_enabled_exact (u p : string) :
  Authenticator_IsEnabled (NewAuthenticator u p) = true /\
  (forall x y : string,
      Authenticate (NewAuthenticator u p) x y = true <-> x = u /\ y = p).
Proof.
  split; [reflexivity|].
  intros x y. unfold Authenticate. cbn.
  rewrite andb_true_iff, !String.eqb_eq. tauto.
Qed.

Lemma all_true_empty : all_true ∅.
Proof. intros k v H. rewrite lookup_empty in H. discriminate. Qed.

Lemma all_true_insert (m : gmap string bool) (ip : string) :
  all_true m -> all_true (<[ip := true]> m).
Proof.
  intros Hm k v H. destruct (decide (ip = k)) as [->|Hne].
  - rewrite lookup_insert_eq in H. congruence.
  - rewrite lookup_insert_ne in H by done. eauto.
Qed.

Lemma all_true_delete (m : gmap string bool) (ip : string) :
  all_true m -> all_true (delete ip m).
Proof.
  intros Hm k v H. destruct (decide (ip = k)) as [->|Hne].
  - rewrite lookup_delete_eq in H. discriminate.
  - rewrite lookup_delete_ne in H by done. eauto.
Qed.

Lemma all_true_fold (ips : list string) (m : gmap string bool) :
  all_true m -> all_true (fold_left (fun m ip => <[ip := true]> m) ips m).
Proof.
  revert m. induction ips as [|ip ips IH]; intros m Hm; cbn; [done|].
  apply IH, all_true_insert, Hm.
Qed.

Lemma wl_apply_enabled (w : IPWhitelist) (o : wl_op) :
  wl_enabled (wl_apply w o) = wl_enabled w.
Proof. destruct o; reflexivity. Qed.

Lemma wl_run_enabled (ops : list wl_op) (w : IPWhitelist) :
  wl_enabled (wl_run w ops) = wl_enabled w.
Proof.
  revert w. induction ops as [|o ops IH]; intros w; cbn; [done|].
  unfold wl_run in IH. rewrite IH. apply wl_apply_enabled.
Qed.

Lemma wl_run_all_true (ops : list wl_op) (w : IPWhitelist) :
  all_true (allowedIPs w) -> all_true (allowedIPs (wl_run w ops)).
Proof.
  revert w. induction ops as [|o ops IH]; intros w Hw; cbn; [done|].
  apply IH. destruct o; cbn.
  - by apply all_true_insert.
  - by apply all_true_delete.
Qed.

Lemma NewIPWhitelist_enabled (ips : list string) :
  wl_enabled (NewIPWhitelist ips) = true <-> ips <> [].
Proof.
  cbn. destruct ips; cbn; split; intros; congruence.
Qed.

(** C9. The enabled flag is the one computed by [NewIPWhitelist], true
    exactly when the initial list is non-empty, and no run of [AddIP] and
    [RemoveIP] changes it; so a whitelist built from the empty list
    allows every IP after any such run. *)
Theorem wl_enabled_fixed_at_construction :
  (forall (ips : list string) (ops : list wl_op),
      wl_enabled (wl_run (NewIPWhitelist ips) ops) = Nat.ltb 0 (length ips) /\
      (wl_enabled (wl_run (NewIPWhitelist ips) ops) = true <-> ips <> [])) /\
  (forall (w : IPWhitelist) (ip : string),
      wl_enabled (AddIP w ip) = wl_enabled w /\
      wl_enabled (RemoveIP w ip) = wl_enabled w) /\
  (forall (ops : list wl_op) (ip : string),
      IsAllowed (wl_run (NewIPWhitelist []) ops) ip = true).
Proof.
  split; [|split].
  - intros ips ops. rewrite wl_run_enabled. split; [done|].
    apply NewIPWhitelist_enabled.
  - intros w ip. split; reflexivity.
  - intros ops ip. unfold IsAllowed. by rewrite wl_run_enabled.
Qed.

(** C4, refuted as worded. A whitelist built from one address and emptied
    by [RemoveIP] denies every IP; a whitelist built empty and given one
    address by [AddIP] still allows the others. *)
Lemma whitelist_claim_counterexample :
  ~ whitelist_claim (RemoveIP (NewIPWhitelist ["192.168.1.1"]) "192.168.1.1") /\
  ~ whitelist_claim (AddIP (NewIPWhitelist []) "10.0.0.1").
Proof.
  split.
  - intros [Hempty _].
    assert (He : allowedIPs (RemoveIP (NewIPWhitelist ["192.168.1.1"]) "192.168.1.1") = ∅).
    { cbn. apply map_eq. intros k. rewrite lookup_empty.
      destruct (decide ("192.168.1.1" = k)) as [<-|Hne].
      - by rewrite lookup_delete_eq.
      - by rewrite lookup_delete_ne, lookup_insert_ne. }
    specialize (Hempty He "10.0.0.1").
    unfold IsAllowed in Hempty. cbn in Hempty.
    rewrite lookup_delete_ne, lookup_insert_ne, lookup_empty in Hempty by done.
    discriminate.
  - intros [_ Hne].
    assert (Hn : allowedIPs (AddIP (NewIPWhitelist []) "10.0.0.1") <> ∅).
    { cbn. apply insert_non_empty. }
    destruct (Hne Hn "192.168.1.1") as [H _].
    specialize (H eq_refl). cbn in H.
    rewrite dom_insert_L, dom_empty_L in H.
    apply elem_of_union in H as [H|H].
    + apply elem_of_singleton in H. discriminate.
    + by apply not_elem_of_empty in H.
Qed.

(** C4, amended. After any run of [AddIP] and [RemoveIP] on a whitelist
    built from [ips], [IsAllowed] answers true for every IP when [ips]
    was empty, and otherwise exactly for the IPs currently in the set;
    [AddIP] adds its argument to the set and [RemoveIP] takes it out. *)
Theorem whitelist_allows_by_construction
  (ips : list string) (ops : list wl_op) (ip : string) :
  (IsAllowed (wl_run (NewIPWhitelist ips) ops) ip = true <->
   ips = [] \/ ip ∈ dom (allowedIPs (wl_run (NewIPWhitelist ips) ops))) /\
  (forall (w : IPWhitelist) (x : string),
      dom (allowedIPs (AddIP w x)) = {[x]} ∪ dom (allowedIPs w) /\
      dom (allowedIPs (RemoveIP w x)) = dom (allowedIPs w) ∖ {[x]}).
Proof.
  split.
  - set (w := wl_run (NewIPWhitelist ips) ops).
    assert (Hen : wl_enabled w = Nat.ltb 0 (length ips))
      by (subst w; by rewrite wl_run_enabled).
    assert (Hall : all_true (allowedIPs w)).
    { subst w. apply wl_run_all_true. cbn. apply all_true_fold, all_true_empty. }
    unfold IsAllowed. rewrite Hen.
    destruct ips as [|i0 ips']; cbn.
    + split; [by left | done].
    + rewrite elem_of_dom. split.
      * intros H. right. destruct (allowedIPs w !! ip); [eauto | discriminate].
      * intros [H|[v Hv]]; [discriminate|].
        rewrite Hv. cbn. eapply Hall, Hv.
  - intros w x. cbn. split.
    + apply dom_insert_L.
    + apply dom_delete_L.
Qed.

(* ===================================================================== *)
(** * Properties of internal/pipeline: ConnectionPool *)
(* ===================================================================== *)

Lemma wrap64_small (z : Z) : is_int64 z -> wrap64 z = z.
Proof.
  unfold is_int64, MinInt64, MaxInt64, wrap64. intros H.
  rewrite Z.mod_small; lia.
Qed.

Lemma AddConnection_below (cp : ConnectionPool) :
  0 <= activeConn cp < maxConnections cp -> maxConnections cp <= MaxInt64 ->
  AddConnection cp =
    (true, {| maxConnections := maxConnections cp;
              activeConn := activeConn cp + 1;
              cp_log := cp_log cp |}).
Proof.
  intros Ha Hm. unfold AddConnection.
  destruct (Z.leb_spec (maxConnections cp) (activeConn cp)); [lia|].
  rewrite wrap64_small; [done|]. unfold is_int64, MinInt64, MaxInt64 in *. lia.
Qed.

Lemma AddConnection_full (cp : ConnectionPool) :
  maxConnections cp <= activeConn cp ->
  fst (AddConnection cp) = false /\
  activeConn (snd (AddConnection cp)) = activeConn cp /\
  maxConnections (snd (AddConnection cp)) = maxConnections cp.
Proof.
  intros H. unfold AddConnection.
  destruct (Z.leb_spec (maxConnections cp) (activeConn cp)); [done|lia].
Qed.

(** A run of [n] admissions that fits under the maximum succeeds at every
    call and counts each of them. *)
Lemma AddConnection_n_fits (n : nat) (cp : ConnectionPool) :
  0 <= activeConn cp -> activeConn cp + Z.of_nat n <= maxConnections cp ->
  maxConnections cp <= MaxInt64 ->
  fst (AddConnection_n n cp) = repeat true n /\
  activeConn (snd (AddConnection_n n cp)) = activeConn cp + Z.of_nat n /\
  maxConnections (snd (AddConnection_n n cp)) = maxConnections cp.
Proof.
  revert cp. induction n as [|n IH]; intros cp H0 Hfit Hmax.
  - cbn. repeat split; lia.
  - cbn [AddConnection_n]. rewrite AddConnection_below by lia.
    set (cp1 := {| maxConnections := maxConnections cp;
                   activeConn := activeConn cp + 1; cp_log := cp_log cp |}).
    destruct (IH cp1) as (Hb & Ha & Hm); [cbn; lia .. |].
    destruct (AddConnection_n n cp1) as [bs cp2]. cbn in *.
    repeat split; [by rewrite Hb | lia | done].
Qed.

Lemma RemoveConnection_nonneg (cp : ConnectionPool) :
  is_int64 (activeConn cp) -> 0 <= activeConn cp ->
  0 <= activeConn (RemoveConnection cp).
Proof.
  intros Hi H0. unfold RemoveConnection.
  destruct (Z.ltb_spec 0 (activeConn cp)); [|done].
  cbn. rewrite wrap64_small; [lia|].
  unfold is_int64, MinInt64, MaxInt64 in *. lia.
Qed.

(** C5, refuted as worded: with a maximum of zero no call of
    [AddConnection] ever answers true, also after [RemoveConnection]. *)
Lemma pool_claim_counterexample : ~ pool_claim 0.
Proof.
  unfold pool_claim. cbn. intros (_ & _ & _ & H & _). discriminate.
Qed.

(** C5, amended. For a pool of maximum [maxc] with [1 <= maxc], from zero
    active connections: [maxc] consecutive calls of [AddConnection]
    answer true; the next one answers false and leaves the counter
    unchanged; after one [RemoveConnection] exactly one more call answers
    true; and [RemoveConnection] never takes the counter below zero. *)
Theorem pool_admits_exactly_max (maxc : Z) :
  1 <= maxc <= MaxInt64 -> pool_claim maxc.
Proof.
  intros Hm. unfold pool_claim.
  destruct (AddConnection_n_fits (Z.to_nat maxc) (NewConnectionPool maxc []))
    as (Hb & Ha & Hx); [cbn; lia .. |].
  destruct (AddConnection_n (Z.to_nat maxc) (NewConnectionPool maxc []))
    as [answers full]. cbn [fst snd] in *.
  cbn in Ha, Hx. rewrite Z2Nat.id in Ha by lia. rewrite Z.add_0_l in Ha.
  destruct (AddConnection_full full) as (Hr & Hra & Hrm); [lia|].
  set (refused := AddConnection full) in *.
  assert (Hfreed : activeConn (RemoveConnection (snd refused)) = maxc - 1 /\
                   maxConnections (RemoveConnection (snd refused)) = maxc).
  { unfold RemoveConnection. rewrite Hra, Ha.
    destruct (Z.ltb_spec 0 maxc); [|lia]. cbn.
    rewrite wrap64_small, Hrm, Hx; [done|].
    unfold is_int64, MinInt64, MaxInt64 in *. lia. }
  destruct Hfreed as [Hfa Hfm].
  set (freed := RemoveConnection (snd refused)) in *.
  rewrite (AddConnection_below freed) by lia. cbn [fst snd].
  repeat split; try done.
  - apply AddConnection_full. cbn. lia.
  - apply RemoveConnection_nonneg.
Qed.

Lemma pool_admits_exactly_max_witness : 1 <= 5 <= MaxInt64 /\ pool_claim 5.
Proof.
  assert (H : 1 <= 5 <= MaxInt64) by (unfold MaxInt64; lia).
  split; [exact H | exact (pool_admits_exactly_max 5 H)].
Defined.

(* ===================================================================== *)
(** * Properties of internal/pipeline: Normalizer and Collector *)
(* ===================================================================== *)

(** C6, refuted as worded: the record built for the test event has the
    zero creation time, whatever the instant of the event. *)
Lemma normalizer_claim_counterexample : ~ normalizer_claim (test_event 1700000000).
Proof.
  unfold normalizer_claim. cbn. intros (_ & _ & _ & _ & _ & _ & _ & _ & _ & H).
  discriminate.
Qed.

(** C6, amended. The record built by a normalizer worker equals the event
    on the nine source fields, the domain included as it is; its ID, its
    creation time and its deletion mark are left at their zero values.
    A worker that receives the event holds exactly this record for its
    send, and a send that succeeds puts this record on the output queue. *)
Theorem normalize_copies_nine_fields (event : RawTrafficEvent) :
  let r := normalize event in
  (Models.SourceIP r = SourceIP event /\
   Models.DestinationIP r = DestinationIP event /\
   Models.Domain r = Domain event /\
   Models.Port r = Port event /\
   Models.Timestamp r = Timestamp event /\
   Models.LatencyMs r = LatencyMs event /\
   Models.BytesIn r = BytesIn event /\
   Models.BytesOut r = BytesOut event /\
   Models.Protocol r = Protocol event) /\
  (Models.ID r = 0 /\ Models.CreatedAt r = zeroTime /\
   Models.DeletedAt r = {| Models.NullTime_Time := zeroTime;
                           Models.NullTime_Valid := false |}) /\
  (forall (n : Normalizer) (rest : list RawTrafficEvent),
      buf (n_in n) = event :: rest ->
      exists n1, process_step n WRange = Returns (n1, WSelect r) /\
                 buf (n_in n1) = rest /\ n_out n1 = n_out n) /\
  (forall n : Normalizer,
      closed (n_out n) = false -> chan_full (n_out n) = false ->
      exists n1, process_step n (WSelect r) = Returns (n1, WRange) /\
                 buf (n_out n1) = buf (n_out n) ++ [r]).
Proof.
  cbn zeta. repeat split.
  - intros n rest Hb. unfold process_step, recv. rewrite Hb.
    eexists. split; [reflexivity|]. by cbn.
  - intros n Hc Hf. unfold process_step, send. rewrite Hc, Hf.
    eexists. split; [reflexivity|]. by cbn.
Qed.

Lemma normalize_copies_nine_fields_witness :
  exists n1,
    process_step (NewNormalizer {| buf := [test_event 7]; cap := 4; closed := false |}
                                (make_chan 4) [])
                 WRange = Returns (n1, WSelect (normalize (test_event 7))) /\
    buf (n_in n1) = [] /\ n_out n1 = make_chan 4.
Proof.
  exact (proj1 (proj2 (proj2 (normalize_copies_nine_fields (test_event 7))))
               (NewNormalizer {| buf := [test_event 7]; cap := 4; closed := false |}
                              (make_chan 4) [])
               [] eq_refl).
Defined.

Lemma Collect_cases (c : Collector) (parked : bool) (event : RawTrafficEvent) :
  closed (col_out c) = false ->
  Collect c parked event =
  Returns (if parked then (None, c, Some event)
           else if chan_full (col_out c)
                then (None, {| col_out := col_out c;
                               col_log := Log (col_log c) WarnLevel
                                              "collector channel full, dropping event" |},
                      None)
                else (None, {| col_out := {| buf := buf (col_out c) ++ [event];
                                             cap := cap (col_out c); closed := false |};
                               col_log := col_log c |}, None)).
Proof.
  intros Hopen. unfold Collect, selectnbsend. rewrite Hopen.
  destruct parked; [reflexivity|]. by destruct (chan_full (col_out c)).
Qed.

Lemma Collect_nil_error (c c' : Collector) (parked : bool) (event : RawTrafficEvent)
  (e : error) (h : option RawTrafficEvent) :
  Collect c parked event = Returns (e, c', h) ->
  e = None /\ closed (col_out c) = false /\ closed (col_out c') = false.
Proof.
  unfold Collect, selectnbsend. destruct (closed (col_out c)) eqn:Hc; [discriminate|].
  destruct parked; [intros [= <- <- <-]; by rewrite Hc|].
  destruct (chan_full (col_out c)); intros [= <- <- <-]; by rewrite ?Hc.
Qed.

(** C7, refuted as worded: on a closed intake queue [Collect] does not
    return, the send panics; and on a queue of capacity zero, which is
    full at all times, an event sent while a worker is parked in its
    receive is not dropped: it goes to that worker. *)
Lemma collect_claim_counterexample :
  ~ collect_claim
      (NewCollector {| buf := []; cap := 10; closed := true |} []) false
      (test_event 1700000000) /\
  ~ collect_claim (NewCollector (make_chan 0) []) true (test_event 1700000000).
Proof.
  split.
  - intros (c' & h & H & _). cbn in H. discriminate.
  - intros (c' & h & H & Hfull). cbn in H. injection H as <- <-.
    destruct (Hfull eq_refl) as [_ Hh]. discriminate.
Qed.

(** C7, amended. On an intake queue that has not been closed, [Collect]
    returns at once with a nil error for every event. When a receiver is
    parked on the queue the event goes to it directly, the queue and the
    log being left as they were; otherwise, when the queue is full, the
    event is dropped: the queue is left as it was, no receiver gets the
    event and a warning is logged; otherwise the event is appended to
    the queue. *)
Theorem Collect_never_blocks_nor_fails
  (c : Collector) (parked : bool) (event : RawTrafficEvent) :
  closed (col_out c) = false ->
  (parked = false -> collect_claim c parked event) /\
  exists (c' : Collector) (handed : option RawTrafficEvent),
    Collect c parked event = Returns (None, c', handed) /\
    if parked then c' = c /\ handed = Some event
    else if chan_full (col_out c)
         then col_out c' = col_out c /\
              col_log c' = Log (col_log c) WarnLevel
                               "collector channel full, dropping event" /\
              handed = None
         else buf (col_out c') = buf (col_out c) ++ [event] /\
              cap (col_out c') = cap (col_out c) /\
              closed (col_out c') = false /\
              col_log c' = col_log c /\
              handed = None.
Proof.
  intros Hopen. pose proof (Collect_cases c parked event Hopen) as H.
  split.
  - intros ->. unfold collect_claim. rewrite H.
    destruct (chan_full (col_out c)); eexists; eexists;
      (split; [reflexivity|]); [by cbn | intros; discriminate].
  - rewrite H. destruct parked; [by eexists; eexists|].
    destruct (chan_full (col_out c)); eexists; eexists; (split; [reflexivity|]); by cbn.
Qed.

Lemma Collect_never_blocks_nor_fails_witness :
  collect_claim (NewCollector {| buf := [test_event 5]; cap := 1; closed := false |} [])
                false (test_event 7).
Proof.
  exact (proj1 (Collect_never_blocks_nor_fails
                  (NewCollector {| buf := [test_event 5]; cap := 1; closed := false |} [])
                  false (test_event 7) eq_refl) eq_refl).
Defined.

(* ===================================================================== *)
(** * Properties of internal/pipeline: Publisher *)
(* ===================================================================== *)

Lemma processBatch_return_saved (p : Publisher) :
  ctx_done p = true ->
  saved (processBatch_return p) = saved p ++ final_flush p /\
  pc (processBatch_return p) = PReturned /\
  wg (processBatch_return p) = wg p - 1 /\
  ticker_stopped (processBatch_return p) = true.
Proof.
  intros Hd. unfold processBatch_return, final_flush.
  destruct (batch p) as [|x b] eqn:Hb; cbn.
  - by rewrite app_nil_r.
  - by rewrite Hd.
Qed.

Lemma processBatch_step_returned (p : Publisher) (c : select_case) :
  pc p = PReturned -> processBatch_step p c = Blocks.
Proof. intros H. unfold processBatch_step. by rewrite H. Qed.

Lemma processBatch_run_returned (sched : list select_case) (p : Publisher) :
  pc p = PReturned -> processBatch_run p sched = Returns p.
Proof.
  intros H. induction sched as [|c sched IH]; cbn; [done|].
  by rewrite processBatch_step_returned.
Qed.

Lemma processBatch_run_app (s1 s2 : list select_case) (p : Publisher) :
  processBatch_run p (s1 ++ s2) =
  match processBatch_run p s1 with
  | Returns p1 => processBatch_run p1 s2
  | Blocks => Blocks
  | Panics msg => Panics msg
  end.
Proof.
  revert p. induction s1 as [|c s1 IH]; intros p; cbn; [done|].
  destruct (processBatch_step p c); by rewrite ?IH.
Qed.

(** Receiving a record changes the batch, the calls made and the log,
    nothing else. *)
Lemma processBatch_receive_frame (p : Publisher) (l : Models.TrafficLog) :
  ctx_done (processBatch_receive p l) = ctx_done p /\
  wg (processBatch_receive p l) = wg p /\
  pc (processBatch_receive p l) = pc p /\
  p_in (processBatch_receive p l) = p_in p.
Proof.
  unfold processBatch_receive. cbn.
  destruct (batchSize p <=? _); by cbn.
Qed.

(** No step of the goroutine resets the cancellation. *)
Lemma processBatch_step_ctx_done (p q : Publisher) (c : select_case) :
  processBatch_step p c = Returns q -> ctx_done q = ctx_done p.
Proof.
  unfold processBatch_step. destruct (pc p).
  - destruct (makeslice_panics sizeof_pointer (batchSize p)); [discriminate|]. by intros [= <-].
  - destruct c.
    + destruct (ctx_done p) eqn:Hd; [|discriminate]. intros [= <-].
      unfold processBatch_return. destruct (0 <? length (batch p))%nat; cbn; congruence.
    + unfold recv. destruct (buf (p_in p)) as [|x rest].
      * destruct (closed (p_in p)); [|discriminate]. intros [= <-].
        unfold processBatch_return. destruct (0 <? length (batch p))%nat; by cbn.
      * intros [= <-]. by destruct (processBatch_receive_frame
                                      (set_in p {| buf := rest; cap := cap (p_in p);
                                                   closed := closed (p_in p) |}) x)
          as (-> & _).
    + destruct (ticker_stopped p); [discriminate|].
      destruct (0 <? length (batch p))%nat; by intros [= <-].
  - discriminate.
Qed.

Lemma processBatch_run_ctx_done (sched : list select_case) (p q : Publisher) :
  processBatch_run p sched = Returns q -> ctx_done q = ctx_done p.
Proof.
  revert p. induction sched as [|c sched IH]; intros p; cbn.
  - by intros [= <-].
  - destruct (processBatch_step p c) as [p1| |] eqn:Hs; [|by apply IH|discriminate].
    intros H. rewrite (IH _ H). eapply processBatch_step_ctx_done, Hs.
Qed.

(** C8. Once [Stop] has cancelled the context, the consumer loop ends as
    soon as it picks the cancellation case: it returns, calling the
    storage bulk insert exactly once with exactly the pending records
    when the pending batch is not empty, and not at all when it is
    empty; nothing is saved afterwards and the wait of [Stop] is
    released. The same holds for the batch pending after any cases the
    loop picked between the cancellation and that moment. *)
Theorem publisher_stop_flushes_pending_once (p : Publisher) :
  pc p = PLoop ->
  let q := processBatch_return (Publisher_cancel p) in
  processBatch_step (Publisher_cancel p) SelDone = Returns q /\
  pc q = PReturned /\
  saved q = saved p ++ final_flush p /\
  (forall sched, processBatch_run q sched = Returns q) /\
  (wg p = 1 -> Publisher_wait q = Returns q) /\
  (forall (before after : list select_case) (p1 : Publisher),
      processBatch_run (Publisher_cancel p) before = Returns p1 ->
      pc p1 = PLoop ->
      exists q1,
        processBatch_run (Publisher_cancel p) (before ++ SelDone :: after) = Returns q1 /\
        pc q1 = PReturned /\
        saved q1 = saved p1 ++ final_flush p1).
Proof.
  intros Hpc q.
  destruct (processBatch_return_saved (Publisher_cancel p) eq_refl)
    as (Hs & Hr & Hw & _).
  split; [|split; [|split; [|split; [|split]]]].
  - unfold processBatch_step. cbn. by rewrite Hpc.
  - exact Hr.
  - exact Hs.
  - intros sched. by apply processBatch_run_returned.
  - intros H1. unfold Publisher_wait. subst q. rewrite Hw. cbn. by rewrite H1.
  - intros before after p1 Hrun Hp1.
    assert (Hd : ctx_done p1 = true) by (by rewrite (processBatch_run_ctx_done _ _ _ Hrun)).
    destruct (processBatch_return_saved p1 Hd) as (Hs1 & Hr1 & _).
    exists (processBatch_return p1).
    rewrite processBatch_run_app, Hrun. cbn.
    unfold processBatch_step at 1. rewrite Hp1, Hd.
    by rewrite processBatch_run_returned.
Qed.

Lemma publisher_stop_flushes_pending_once_witness :
  pc test_publisher = PLoop /\
  saved (processBatch_return (Publisher_cancel test_publisher)) =
  [ {| ctx_cancelled := true; logs := [normalize (test_event 3)] |} ].
Proof.
  split; [reflexivity|].
  exact (proj1 (proj2 (proj2
           (publisher_stop_flushes_pending_once test_publisher eq_refl)))).
Defined.

(* ===================================================================== *)
(** * Properties of internal/proxy: what a session goes through *)
(* ===================================================================== *)

(** The tracked connection the dialer returns. *)
Lemma dialWithTracking_cases (s : Server) (addr : string) (d : Dial) :
  dialWithTracking s addr d =
  match dial_conn d with
  | Some conn =>
      (Some {| tc_Conn := conn; destAddr := addr; timestamp := dial_start d;
               latency := Duration_Milliseconds (dial_elapsed d);
               bytesIn := 0; bytesOut := 0 |}, s)
  | None =>
      (None, {| cfg := cfg s; log := Log (log s) DebugLevel "dial failed";
                collector := collector s; listener := listener s |})
  end.
Proof. unfold dialWithTracking. by destruct (dial_conn d). Qed.

(** What a session that ran to its end did. *)
Lemma serve_cases (net : NetLib) (s : Server) (x : Session) (r : Served) :
  serve net s x = Returns r ->
  (exists addr d conn,
      dialed x = Some (addr, d) /\ dial_conn d = Some conn /\
      let tc := fold_left do_io (relay x)
                  {| tc_Conn := conn; destAddr := addr; timestamp := dial_start d;
                     latency := Duration_Milliseconds (dial_elapsed d);
                     bytesIn := 0; bytesOut := 0 |} in
      tracked r = Some tc /\
      if closes_conn x
      then Collect (collector s) (receiver_parked x) (close_event net tc)
           = Returns (None, collector (server r), handed r)
      else collector (server r) = collector s /\ handed r = None) \/
  ((dialed x = None \/ exists addr d, dialed x = Some (addr, d) /\ dial_conn d = None) /\
   tracked r = None /\ handed r = None /\ collector (server r) = collector s).
Proof.
  unfold serve. destruct (dialed x) as [[addr d]|] eqn:Hx.
  2: { intros [= <-]. right. cbn. repeat split. by left. }
  rewrite dialWithTracking_cases. destruct (dial_conn d) as [conn|] eqn:Hd.
  2: { intros [= <-]. right. cbn. repeat split. right. eauto. }
  destruct (closes_conn x).
  - unfold tc_Close. destruct (Collect _ _ _) as [[[e col] h]| |] eqn:Hc; [|discriminate..].
    intros [= <-]. left. exists addr, d, conn. cbn.
    destruct (Collect_nil_error _ _ _ _ _ _ Hc) as (-> & _). by repeat split.
  - intros [= <-]. left. exists addr, d, conn. cbn. by repeat split.
Qed.




(* ===================================================================== *)
(** * Properties of cmd/proxy: the order of the shutdown *)
(* ===================================================================== *)

Lemma send_closed {A : Type} (c c' : chan A) (x : A) :
  send c x = Returns c' -> closed c' = closed c.
Proof.
  unfold send. destruct (closed c) eqn:Hc; [discriminate|].
  destruct (chan_full c); [discriminate|]. by intros [= <-].
Qed.

Lemma recv_closed {A : Type} (c c' : chan A) (o : option A) :
  recv c = Returns (o, c') -> closed c' = closed c.
Proof.
  unfold recv. destruct (buf c).
  - destruct (closed c) eqn:Hc; [|discriminate]. intros [= <- <-]. exact Hc.
  - by intros [= <- <-].
Qed.

Lemma recv_None_closed {A : Type} (c c' : chan A) :
  recv c = Returns (None, c') -> closed c = true.
Proof.
  unfold recv. destruct (buf c); [|discriminate].
  by destruct (closed c).
Qed.

Lemma init_inv (h : Z) (closes : bool) (c : Config.Config) (r : Repository) (s : System) :
  init h closes c r = Returns s -> shutdown_inv s.
Proof.
  unfold init, NewPublisher.
  destruct (makechan_panics h sizeof_RawTrafficEvent _); [discriminate|].
  destruct (makechan_panics h sizeof_pointer _); [discriminate|].
  destruct (wrap64 _ <=? 0); [discriminate|].
  intros [= <-]. unfold shutdown_inv. cbn.
  repeat split; try done.
  intros _. unfold Normalizer_Start.
  induction (Z.to_nat (Config.Pipeline_Workers c)); cbn; by constructor.
Qed.

Lemma crash_inv (s : System) (msg : string) : shutdown_inv s -> shutdown_inv (crash s msg).
Proof. done. Qed.

Lemma main_step_inv (s s' : System) :
  shutdown_inv s -> main_step s = Some s' -> shutdown_inv s'.
Proof.
  intros (Hwg & Hout & Hin & Hj & Hcc & Hw). unfold main_step.
  destruct (main s) eqn:Hm; cbn in Hout, Hin, Hj.
  - intros [= <-]. unfold shutdown_inv. cbn. repeat split; done.
  - intros [= <-]. unfold shutdown_inv. cbn. repeat split; done.
  - intros [= <-]. unfold shutdown_inv. cbn. repeat split; done.
  - unfold Publisher_wait. destruct (Z.eqb_spec (wg (publisher s)) 0) as [Hle|]; [|done].
    intros [= <-]. unfold shutdown_inv. cbn.
    repeat split; try done. intros _.
    destruct (pc (publisher s)); [lia | lia | done].
  - unfold Normalizer_Close, close. cbn. rewrite Hout.
    intros [= <-]. unfold shutdown_inv. cbn.
    destruct (closes_collector s) eqn:Hc; cbn; repeat split; auto; try done.
  - unfold close. rewrite Hin.
    intros [= <-]. unfold shutdown_inv. cbn.
    rewrite (Hcc eq_refl). repeat split; auto; try done.
  - intros [= <-]. unfold shutdown_inv. cbn. repeat split; auto; done.
  - discriminate.
Qed.

Lemma session_step_inv (s s' : System) (event : RawTrafficEvent) :
  shutdown_inv s -> session_step s event = Some s' -> shutdown_inv s'.
Proof.
  intros Hinv. unfold session_step.
  destruct (Collect _ _ _) as [[[e col] h]| |] eqn:Hc; [|discriminate|].
  - intros [= <-].
    destruct (Collect_nil_error _ _ _ _ _ _ Hc) as (_ & H1 & H2). cbn in H1.
    assert (Hcl : closed (col_out col) = closed (collectorChan s)) by congruence.
    destruct Hinv as (Hwg & Hout & Hin & Hj & Hcc & Hw).
    unfold shutdown_inv. cbn. rewrite Hcl. repeat split; auto.
  - intros [= <-]. by apply crash_inv.
Qed.

(** The hand-over to a parked worker, spelled out. *)
Lemma handoff_in_step_cases (s s' : System) (event : RawTrafficEvent) (i : nat) :
  handoff_in_step s event i = Some s' ->
  workers s !! i = Some WRange /\
  buf (collectorChan s) = [] /\
  closed (collectorChan s) = false /\
  s' = set_workers (set_zapLog (set_collectorChan s (collectorChan s)) (zapLog s))
                   (<[i := WSelect (normalize event)]> (workers s)).
Proof.
  unfold handoff_in_step, Collect, selectnbsend. cbn [NewCollector col_out col_log].
  destruct (workers s !! i) as [[| |]|]; try discriminate.
  destruct (buf (collectorChan s)); [|discriminate].
  destruct (closed (collectorChan s)) eqn:Hc; [discriminate|].
  cbn. by intros [= <-].
Qed.

Lemma Forall_insert_running (ws : list worker_pc) (i : nat) (w : worker_pc) :
  worker_exited w = false ->
  Forall (fun w => worker_exited w = false) ws ->
  Forall (fun w => worker_exited w = false) (<[i := w]> ws).
Proof.
  intros Hw Hall. revert i. induction Hall as [|x l Hx Hl IH]; intros i; cbn.
  - constructor.
  - destruct i; cbn; constructor; auto.
Qed.

Lemma worker_step_inv (s s' : System) (i : nat) :
  shutdown_inv s -> worker_step s i = Some s' -> shutdown_inv s'.
Proof.
  intros Hinv. unfold worker_step.
  destruct (workers s !! i) as [w|]; [|discriminate].
  destruct (process_step _ w) as [[n w1]| |] eqn:Hp; [|discriminate|].
  2: { intros [= <-]. by apply crash_inv. }
  intros [= <-].
  destruct Hinv as (Hwg & Hout & Hin & Hj & Hcc & Hw).
  unfold process_step in Hp. cbn in Hp.
  assert (Hn : closed (n_in n) = closed (collectorChan s) /\
               closed (n_out n) = closed (normalizerOutputChan s) /\
               (closed (collectorChan s) = false -> worker_exited w1 = false)).
  { destruct w as [|l|].
    - destruct (recv (collectorChan s)) as [[[e|] ch]| |] eqn:Hr; try discriminate.
      + injection Hp as <- <-. cbn. split; [eapply recv_closed, Hr | done].
      + injection Hp as <- <-. cbn. repeat split.
        intros Hopen. apply recv_None_closed in Hr. congruence.
    - destruct (send (normalizerOutputChan s) l) as [ch| |] eqn:Hs; try discriminate.
      + injection Hp as <- <-. cbn. split; [done|]. split; [eapply send_closed, Hs | done].
      + injection Hp as <- <-. by cbn.
    - discriminate. }
  destruct Hn as (Hni & Hno & Hw1).
  unfold shutdown_inv. cbn. rewrite Hni, Hno. repeat split; auto.
  intros Hopen. apply Forall_insert_running; auto.
Qed.

Lemma processBatch_step_inv (p q : Publisher) (c : select_case) :
  processBatch_step p c = Returns q ->
  wg p = match pc p with PReturned => 0 | _ => 1 end ->
  wg q = match pc q with PReturned => 0 | _ => 1 end /\
  closed (p_in q) = closed (p_in p) /\
  pc p <> PReturned.
Proof.
  unfold processBatch_step. destruct (pc p) eqn:Hpc.
  - destruct (makeslice_panics sizeof_pointer (batchSize p)); [discriminate|]. intros [= <-] Hw. by cbn.
  - intros Hs Hw.
    assert (Hret : wg (processBatch_return p) = 0 /\
                   pc (processBatch_return p) = PReturned /\
                   p_in (processBatch_return p) = p_in p).
    { unfold processBatch_return.
      destruct (0 <? length (batch p))%nat; cbn; repeat split; lia. }
    destruct Hret as (Hr1 & Hr2 & Hr3).
    destruct c.
    + destruct (ctx_done p); [|discriminate]. injection Hs as <-.
      by rewrite Hr1, Hr2, Hr3.
    + destruct (recv (p_in p)) as [[[l|] ch]| |] eqn:Hr; try discriminate.
      * apply recv_closed in Hr. injection Hs as <-.
        destruct (processBatch_receive_frame (set_in p ch) l) as (_ & -> & -> & ->).
        cbn. by rewrite Hpc.
      * injection Hs as <-. by rewrite Hr1, Hr2, Hr3.
    + destruct (ticker_stopped p); [discriminate|].
      destruct (0 <? length (batch p))%nat; injection Hs as <-; cbn; by rewrite ?Hpc.
  - discriminate.
Qed.

Lemma publisher_step_inv (s s' : System) (c : select_case) :
  shutdown_inv s -> publisher_step s c = Some s' -> shutdown_inv s'.
Proof.
  intros Hinv. unfold publisher_step.
  destruct (processBatch_step _ c) as [p| |] eqn:Hp; [|discriminate|].
  2: { intros [= <-]. by apply crash_inv. }
  intros [= <-].
  destruct Hinv as (Hwg & Hout & Hin & Hj & Hcc & Hw).
  apply processBatch_step_inv in Hp as (Hq & Hcl & Hne); [|exact Hwg].
  cbn in Hcl, Hne.
  unfold shutdown_inv. cbn. rewrite Hcl. repeat split; auto.
  intros Hjoined. elim Hne. auto.
Qed.

Lemma handoff_in_step_inv (s s' : System) (event : RawTrafficEvent) (i : nat) :
  shutdown_inv s -> handoff_in_step s event i = Some s' -> shutdown_inv s'.
Proof.
  intros (Hwg & Hout & Hin & Hj & Hcc & Hw) H.
  apply handoff_in_step_cases in H as (_ & _ & Hc & ->).
  unfold shutdown_inv. cbn. rewrite Hc in *.
  repeat split; auto. intros _. apply Forall_insert_running; auto.
Qed.

Lemma handoff_out_step_inv (s s' : System) (i : nat) :
  shutdown_inv s -> handoff_out_step s i = Some s' -> shutdown_inv s'.
Proof.
  intros (Hwg & Hout & Hin & Hj & Hcc & Hw). unfold handoff_out_step.
  destruct (workers s !! i) as [[|l|]|]; try discriminate.
  destruct (buf (normalizerOutputChan s)); [|discriminate].
  destruct (closed (normalizerOutputChan s)) eqn:Hc; [discriminate|].
  destruct (pc (publisher s)) eqn:Hpc; try discriminate.
  intros [= <-].
  destruct (processBatch_receive_frame
              (set_log (set_in (publisher s) (normalizerOutputChan s)) (zapLog s)) l)
    as (_ & Hw' & Hp' & _).
  cbn in Hw', Hp'.
  unfold shutdown_inv. cbn. rewrite Hw', Hp', Hpc, Hc.
  split; [exact Hwg|]. split; [exact Hout|]. split; [exact Hin|].
  split; [exact Hj|]. split; [exact Hcc|].
  intros Hopen. apply Forall_insert_running; auto.
Qed.

Lemma step_inv (s s' : System) (l : label) :
  shutdown_inv s -> step s l = Some s' -> shutdown_inv s'.
Proof.
  intros Hinv. unfold step.
  destruct (crashed s); [discriminate|].
  destruct l.
  - destruct (main s); try discriminate; by apply main_step_inv.
  - destruct (main s); try discriminate; by apply worker_step_inv.
  - destruct (main s); try discriminate; by apply publisher_step_inv.
  - destruct (main s); try discriminate; by apply session_step_inv.
  - destruct (main s); try discriminate; by apply handoff_in_step_inv.
  - destruct (main s); try discriminate; by apply handoff_out_step_inv.
Qed.

Lemma exec_inv (ls : list label) (s s' : System) :
  shutdown_inv s -> exec s ls = Some s' -> shutdown_inv s'.
Proof.
  revert s. induction ls as [|l ls IH]; intros s Hinv; cbn.
  - by intros [= <-].
  - destruct (step s l) as [s1|] eqn:Hs; [|discriminate].
    apply IH. eapply step_inv; eauto.
Qed.

(** The join barrier is missing already in a shutdown without traffic:
    afterwards the output queue is closed and the four workers are all
    still at the head of their loop. *)
Lemma join_barrier_counterexample :
  exists s0 s : System,
    init 112 true default_config (fun _ _ => None) = Returns s0 /\
    exec s0 quiet_shutdown = Some s /\
    workers s = [WRange; WRange; WRange; WRange] /\
    ~ join_barrier_claim s.
Proof.
  eexists. eexists.
  split; [reflexivity|]. split; [vm_compute; reflexivity|].
  split; [reflexivity|].
  intros H. specialize (H eq_refl). cbn in H.
  inversion H as [|w ws Hw _]. discriminate.
Qed.

(** What the missing barrier allows: a worker that holds a record when
    the output queue is closed sends on the closed channel, and the
    program panics. *)
Example worker_sends_on_closed_output :
  exists s0 s : System,
    init 112 true default_config (fun _ _ => None) = Returns s0 /\
    exec s0 racy_shutdown = Some s /\
    crashed s = Some "send on closed channel".
Proof.
  eexists. eexists.
  split; [reflexivity|]. split; vm_compute; reflexivity.
Qed.

(** With unbuffered channels an event still reaches the publisher, handed
    from the session to a parked worker and from that worker to the
    parked publisher. *)
Example unbuffered_pipeline_delivers :
  exists s0 s : System,
    init 112 true unbuffered_config (fun _ _ => None) = Returns s0 /\
    exec s0 [LPublisher SelTick; LHandoffIn (test_event 7) 0; LHandoffOut 0] = Some s /\
    batch (publisher s) = [normalize (test_event 7)] /\
    workers s = [WRange; WRange; WRange; WRange].
Proof.
  eexists. eexists.
  split; [reflexivity|]. split; [vm_compute; reflexivity|]. split; reflexivity.
Qed.

(** C2, as the code breaks it. [Normalizer.Close] closes the output
    queue without waiting for any worker. In the shutdown below, run on
    the default configuration with one event in flight, the output queue
    is closed while worker 0 still holds the record it made from that
    event: the join barrier of the claim does not hold in that state,
    and the next step of the worker is a send on the closed queue, on
    which the program panics. *)
Theorem join_barrier_broken :
  exists s0 s1 s2 : System,
    init 112 true default_config (fun _ _ => None) = Returns s0 /\
    exec s0 ([LSession (test_event 7); LWorker 0] ++ quiet_shutdown) = Some s1 /\
    closed (normalizerOutputChan s1) = true /\
    workers s1 !! 0%nat = Some (WSelect (normalize (test_event 7))) /\
    ~ join_barrier_claim s1 /\
    exec s1 [LWorker 0] = Some s2 /\
    crashed s2 = Some "send on closed channel".
Proof.
  eexists. eexists. eexists.
  split; [reflexivity|]. split; [vm_compute; reflexivity|].
  split; [reflexivity|]. split; [reflexivity|].
  split; [|split; [vm_compute; reflexivity | reflexivity]].
  intros H. specialize (H eq_refl). cbn in H.
  inversion H as [|w ws Hw _]. discriminate.
Qed.

(** What the order of the shutdown does give. In every execution, in
    both revisions of [main], the output queue is closed only after the
    publisher's consumer loop has returned; the input queue is closed,
    if at all, only after the output queue; and a worker exits only once
    the input queue is closed, so that no worker has exited as long as
    the input queue is open, the output queue being closed or not. *)
Theorem output_closed_after_publisher_not_workers
  (h : Z) (closes : bool) (c : Config.Config) (r : Repository)
  (s0 s : System) (ls : list label) :
  init h closes c r = Returns s0 ->
  exec s0 ls = Some s ->
  (closed (normalizerOutputChan s) = true -> pc (publisher s) = PReturned) /\
  (closed (collectorChan s) = true -> closed (normalizerOutputChan s) = true) /\
  (closed (collectorChan s) = false ->
   Forall (fun w => worker_exited w = false) (workers s)) /\
  (forall w, In w (workers s) -> worker_exited w = true ->
     closed (collectorChan s) = true /\ closed (normalizerOutputChan s) = true).
Proof.
  intros Hinit Hexec.
  pose proof (exec_inv ls s0 s (init_inv h closes c r s0 Hinit) Hexec)
    as (Hwg & Hout & Hin & Hj & Hcc & Hw).
  assert (H1 : closed (normalizerOutputChan s) = true -> pc (publisher s) = PReturned).
  { rewrite Hout. intros Ho. apply Hj. by destruct (main s). }
  assert (H2 : closed (collectorChan s) = true -> closed (normalizerOutputChan s) = true).
  { rewrite Hout, Hin. by destruct (main s). }
  split; [exact H1|]. split; [exact H2|]. split; [exact Hw|].
  intros w Hin_w Hex.
  destruct (closed (collectorChan s)) eqn:Hc.
  - split; [done | by apply H2].
  - specialize (Hw eq_refl). rewrite Forall_forall in Hw.
    apply list_elem_of_In in Hin_w. specialize (Hw w Hin_w). congruence.
Qed.

Lemma output_closed_after_publisher_not_workers_witness :
  exists s0 s : System,
    init 112 true default_config (fun _ _ => None) = Returns s0 /\
    exec s0 quiet_shutdown = Some s /\
    (closed (normalizerOutputChan s) = true -> pc (publisher s) = PReturned).
Proof.
  eexists. eexists.
  split; [reflexivity|]. split; [vm_compute; reflexivity|].
  refine (proj1 (output_closed_after_publisher_not_workers 112 true default_config
                   (fun _ _ => None) _ _ quiet_shutdown eq_refl _)).
  vm_compute. reflexivity.
Defined.

(* ===================================================================== *)
(** * binary64 arithmetic on integers of at most 53 bits *)
(* ===================================================================== *)

Lemma digits2_size (p : positive) : digits2_pos p = Pos.size p.
Proof. induction p; cbn; congruence. Qed.

Lemma iter_pos_nat {A : Type} (f : A -> A) (n : positive) (x : A) :
  SpecFloat.iter_pos f n x = Nat.iter (Pos.to_nat n) f x.
Proof.
  revert x. induction n as [n IH|n IH|]; intros x; cbn [SpecFloat.iter_pos].
  - rewrite !IH, Pos2Nat.inj_xI.
    replace (S (2 * Pos.to_nat n)) with (Pos.to_nat n + (Pos.to_nat n + 1))%nat by lia.
    rewrite !Nat.iter_add. reflexivity.
  - rewrite !IH, Pos2Nat.inj_xO.
    replace (2 * Pos.to_nat n)%nat with (Pos.to_nat n + Pos.to_nat n)%nat by lia.
    rewrite Nat.iter_add. reflexivity.
  - reflexivity.
Qed.

Lemma Pos_iter_shl (p n : positive) : Pos.iter xO p n = shl p (Pos.to_nat n).
Proof. unfold shl. rewrite Pos2Nat.inj_iter. reflexivity. Qed.

Lemma shl_S (p : positive) (n : nat) : shl p (S n) = xO (shl p n).
Proof. reflexivity. Qed.

Lemma shl_add (p : positive) (a b : nat) : shl (shl p a) b = shl p (a + b).
Proof. unfold shl. rewrite Nat.add_comm, Nat.iter_add. reflexivity. Qed.

Lemma shl_Z (p : positive) (n : nat) : Zpos (shl p n) = Zpos p * 2 ^ Z.of_nat n.
Proof.
  induction n as [|n IH].
  - cbn. lia.
  - rewrite shl_S, Pos2Z.inj_xO, IH, Nat2Z.inj_succ, Z.pow_succ_r by lia. lia.
Qed.

Lemma shl_size (p : positive) (n : nat) :
  Zpos (Pos.size (shl p n)) = Zpos (Pos.size p) + Z.of_nat n.
Proof.
  induction n as [|n IH].
  - cbn. lia.
  - rewrite shl_S. cbn [Pos.size]. rewrite Pos2Z.inj_succ, IH. lia.
Qed.

Lemma shr_shl (p : positive) (n : nat) :
  Nat.iter n shr_1 (Build_shr_record (Zpos (shl p n)) false false) =
  Build_shr_record (Zpos p) false false.
Proof.
  induction n as [|n IH].
  - reflexivity.
  - rewrite Nat.iter_succ_r. rewrite shl_S. cbn [shr_1 orb]. exact IH.
Qed.

Lemma shl_align_le (mx : positive) (ex ex' : Z) :
  ex' <= ex -> shl_align mx ex ex' = (shl mx (Z.to_nat (ex - ex')), ex').
Proof.
  intros H. unfold shl_align.
  destruct (ex' - ex) as [|q|q] eqn:Hd; try lia.
  - replace (ex - ex') with 0 by lia. cbn. f_equal. lia.
  - rewrite Pos_iter_shl. do 2 f_equal. lia.
Qed.

Lemma shr_exact (p : positive) (n : nat) (e : Z) :
  shr (Build_shr_record (Zpos (shl p n)) false false) e (Z.of_nat n) =
  (Build_shr_record (Zpos p) false false, e + Z.of_nat n).
Proof.
  unfold shr. destruct n as [|n].
  - cbn. f_equal. lia.
  - change (Z.of_nat (S n)) with (Zpos (Pos.of_succ_nat n)). cbv beta iota.
    rewrite iter_pos_nat, SuccNat2Pos.id_succ, shr_shl. reflexivity.
Qed.

(** A mantissa of 53 bits within the exponent range is its own rounding. *)
Lemma binary_round_aux_53 (s : bool) (m : positive) (e : Z) :
  Zpos (Pos.size m) = 53 -> -1074 <= e <= 971 ->
  binary_round_aux prec emax s (Zpos m) e loc_Exact = S754_finite s m e.
Proof.
  intros Hd He. unfold binary_round_aux, shr_fexp, fexp, emin, prec, emax.
  cbn [Zdigits2 shr_record_of_loc]. rewrite digits2_size, Hd.
  replace (Z.max (53 + e - 53) (3 - 1024 - 53) - e) with 0 by lia.
  cbn [shr shr_m loc_of_shr_record round_nearest_even Zdigits2].
  rewrite digits2_size, Hd.
  replace (Z.max (53 + e - 53) (3 - 1024 - 53) - e) with 0 by lia.
  cbn [shr shr_m].
  destruct (Z.leb_spec e (1024 - 53)); [reflexivity | lia].
Qed.

(** The rounding of [p * 2^t * 2^e] is exact when [p] fits in 53 bits. *)
Lemma binary_round_exact (p : positive) (t : nat) (e : Z) :
  Zpos (Pos.size p) <= 53 ->
  -1074 <= e + Z.of_nat t - (53 - Zpos (Pos.size p)) <= 971 ->
  binary_round prec emax false (shl p t) e =
  S754_finite false (shl p (Z.to_nat (53 - Zpos (Pos.size p))))
              (e + Z.of_nat t - (53 - Zpos (Pos.size p))).
Proof.
  intros Hd He. set (d := Zpos (Pos.size p)) in *.
  assert (HD : Zpos (Pos.size (shl p t)) = d + Z.of_nat t) by apply shl_size.
  unfold binary_round. rewrite digits2_size, HD.
  assert (Hf : fexp prec emax (d + Z.of_nat t + e) = d + Z.of_nat t + e - 53)
    by (unfold fexp, emin, prec, emax; lia).
  rewrite Hf.
  destruct (Z_le_gt_dec (d + Z.of_nat t) 53) as [Hle|Hgt].
  - rewrite shl_align_le by lia. rewrite shl_add.
    replace (t + Z.to_nat (e - (d + Z.of_nat t + e - 53)))%nat
      with (Z.to_nat (53 - d)) by lia.
    replace (d + Z.of_nat t + e - 53) with (e + Z.of_nat t - (53 - d)) by lia.
    apply binary_round_aux_53; [|lia].
    rewrite shl_size. fold d. lia.
  - unfold shl_align.
    destruct (d + Z.of_nat t + e - 53 - e) as [|q|q] eqn:Hq; try lia.
    unfold binary_round_aux, shr_fexp. cbn [Zdigits2 shr_record_of_loc].
    rewrite digits2_size, HD, Hf.
    replace (d + Z.of_nat t + e - 53 - e) with (Z.of_nat (Z.to_nat (d + Z.of_nat t - 53))) by lia.
    replace (shl p t) with (shl (shl p (Z.to_nat (53 - d))) (Z.to_nat (d + Z.of_nat t - 53))).
    2: { rewrite shl_add. f_equal. lia. }
    rewrite shr_exact.
    cbn [shr_m loc_of_shr_record round_nearest_even].
    set (m := shl p (Z.to_nat (53 - d))).
    set (e1 := e + Z.of_nat (Z.to_nat (d + Z.of_nat t - 53))).
    assert (Hm : Zpos (Pos.size m) = 53) by (subst m; rewrite shl_size; fold d; lia).
    assert (He1 : e1 = e + Z.of_nat t - (53 - d)) by (subst e1; lia).
    unfold shr_fexp. cbn [Zdigits2 shr_record_of_loc].
    rewrite digits2_size, Hm.
    replace (fexp prec emax (53 + e1) - e1) with 0
      by (unfold fexp, emin, prec, emax; lia).
    cbn [shr shr_m]. rewrite <- He1.
    unfold emax, prec. destruct (Z.leb_spec e1 (1024 - 53)); [reflexivity | lia].
Qed.


Lemma size_bounds (p : positive) :
  2 ^ (Zpos (Pos.size p) - 1) <= Zpos p < 2 ^ Zpos (Pos.size p).
Proof.
  pose proof (Pos.size_gt p) as Hgt. pose proof (Pos.size_le p) as Hle.
  apply Pos2Z.pos_lt_pos in Hgt. apply Pos2Z.pos_le_pos in Hle.
  rewrite Pos2Z.inj_pow in Hgt, Hle. change (Zpos p~0) with (2 * Zpos p) in Hle.
  split; [|exact Hgt].
  replace (Zpos (Pos.size p)) with (Z.succ (Zpos (Pos.size p) - 1)) in Hle by lia.
  rewrite Z.pow_succ_r in Hle by lia. lia.
Qed.

Lemma size_le_of_lt (p : positive) (n : Z) :
  0 <= n -> Zpos p < 2 ^ n -> Zpos (Pos.size p) <= n.
Proof.
  intros Hn Hp. pose proof (size_bounds p) as [Hlo _].
  destruct (Z_le_gt_dec (Zpos (Pos.size p)) n) as [|Hgt]; [done|].
  assert (2 ^ n <= 2 ^ (Zpos (Pos.size p) - 1)) by (apply Z.pow_le_mono_r; lia).
  lia.
Qed.

Lemma size_mono (p q : positive) :
  (p <= q)%positive -> Zpos (Pos.size p) <= Zpos (Pos.size q).
Proof.
  intros H. apply size_le_of_lt; [lia|].
  pose proof (size_bounds q). lia.
Qed.

Lemma float64_of_int_canon (p : positive) :
  Zpos (Pos.size p) <= 53 -> float64_of_int (Zpos p) = canon p.
Proof.
  intros Hd. unfold float64_of_int, binary_normalize, canon.
  change p with (shl p 0) at 1.
  rewrite binary_round_exact by (cbn; lia).
  f_equal. cbn. lia.
Qed.

Lemma f1_canon : f1 = canon 1%positive.
Proof. reflexivity. Qed.

Lemma fsub_one (p : positive) :
  Zpos (Pos.size p) <= 53 ->
  fsub (canon p) f1 = float64_of_int (Zpos p - 1).
Proof.
  intros Hd. rewrite f1_canon. unfold fsub, canon at 1 2, SFsub.
  set (d := Zpos (Pos.size p)) in *.
  assert (Hd1 : 1 <= d) by (subst d; lia).
  change (Zpos (Pos.size 1%positive) - 53) with (-52).
  change (Z.to_nat (53 - Zpos (Pos.size 1%positive))) with 52%nat.
  replace (Z.min (d - 53) (-52)) with (-52) by lia.
  rewrite !shl_align_le by lia. cbn [fst cond_Zopp].
  rewrite !shl_add.
  replace (Z.to_nat (53 - d) + Z.to_nat (d - 53 - -52))%nat with 52%nat by lia.
  change (52 + Z.to_nat (-52 - -52))%nat with 52%nat.
  destruct (Pos.eq_dec p 1%positive) as [->|Hne].
  - reflexivity.
  - assert (Hp : Zpos (shl p 52) - Zpos (shl 1%positive 52) = Zpos (shl (p - 1)%positive 52)).
    { rewrite !shl_Z. rewrite Pos2Z.inj_sub by lia. lia. }
    rewrite Hp. unfold binary_normalize.
    assert (Hd' : Zpos (Pos.size (p - 1)%positive) <= d) by (apply size_mono; lia).
    rewrite binary_round_exact by lia.
    replace (Zpos p - 1) with (Zpos (p - 1)%positive) by lia.
    rewrite float64_of_int_canon by lia. unfold canon. f_equal. lia.
Qed.

Lemma shl_compare (p q : positive) (n : nat) :
  Pos.compare (shl p n) (shl q n) = Pos.compare p q.
Proof. induction n as [|n IH]; [reflexivity|]. rewrite !shl_S. exact IH. Qed.

Lemma canon_compare (p q : positive) :
  SFcompare (canon p) (canon q) = Some (Pos.compare p q).
Proof.
  unfold canon, SFcompare. f_equal.
  pose proof (size_bounds p) as [Hp1 Hp2]. pose proof (size_bounds q) as [Hq1 Hq2].
  destruct (Z.compare_spec (Zpos (Pos.size p) - 53) (Zpos (Pos.size q) - 53)) as [He|Hl|Hg].
  - assert (Hs : Zpos (Pos.size p) = Zpos (Pos.size q)) by lia. rewrite Hs.
    apply shl_compare.
  - symmetry. apply Pos.compare_lt_iff.
    assert (2 ^ Zpos (Pos.size p) <= 2 ^ (Zpos (Pos.size q) - 1))
      by (apply Z.pow_le_mono_r; lia). lia.
  - symmetry. apply Pos.compare_gt_iff.
    assert (2 ^ Zpos (Pos.size q) <= 2 ^ (Zpos (Pos.size p) - 1))
      by (apply Z.pow_le_mono_r; lia). lia.
Qed.

Lemma Zdigits2_le (m n : Z) : 0 <= n -> 0 <= m < 2 ^ n -> Zdigits2 m <= n.
Proof.
  intros Hn [H0 Hm]. destruct m as [|p|p]; [done| |lia].
  cbn. rewrite digits2_size. by apply size_le_of_lt.
Qed.

Lemma shr_1_bounds (r : shr_record) :
  0 <= shr_m r -> 0 <= shr_m (shr_1 r) <= shr_m r.
Proof.
  destruct r as [m r s]. cbn [shr_m]. intros H.
  destruct m as [|[p|p|]|p]; cbn; lia.
Qed.

Lemma shr_bounds (r : shr_record) (e n : Z) :
  0 <= shr_m r ->
  0 <= shr_m (fst (shr r e n)) <= shr_m r /\
  (snd (shr r e n) = e \/ snd (shr r e n) = e + n).
Proof.
  intros H. unfold shr. destruct n as [|q|q]; cbn [fst snd]; try (split; [lia | by left]).
  split; [|by right]. rewrite iter_pos_nat.
  induction (Pos.to_nat q) as [|k IH]; [cbn; lia|].
  rewrite Nat.iter_succ.
  pose proof (shr_1_bounds (Nat.iter k shr_1 r) (proj1 IH)). lia.
Qed.

Lemma shr_fexp_bounds (m e : Z) (l : location) :
  0 <= m ->
  0 <= shr_m (fst (shr_fexp prec emax m e l)) <= m /\
  (snd (shr_fexp prec emax m e l) = e \/
   snd (shr_fexp prec emax m e l) = fexp prec emax (Zdigits2 m + e)).
Proof.
  intros H. unfold shr_fexp.
  assert (Hm : shr_m (shr_record_of_loc m l) = m) by (by destruct l as [|[]]).
  pose proof (shr_bounds (shr_record_of_loc m l) e
                (fexp prec emax (Zdigits2 m + e) - e)) as Hb.
  rewrite Hm in Hb. destruct (Hb H) as [Hb1 Hb2].
  split; [exact Hb1|]. destruct Hb2 as [->| ->]; [by left | right; lia].
Qed.

Lemma round_nearest_even_bounds (m : Z) (l : location) :
  m <= round_nearest_even m l <= m + 1.
Proof.
  unfold round_nearest_even. destruct l as [|[]]; try lia.
  destruct (Z.even m); lia.
Qed.

(** A quotient of moderate size and exponent rounds to a finite number. *)
Lemma binary_round_aux_bounded (s : bool) (mx ex : Z) (lx : location) :
  0 <= mx < 2 ^ 60 -> -1000 <= ex <= 900 ->
  is_finite_or_zero (binary_round_aux prec emax s mx ex lx) = true.
Proof.
  intros Hm He. unfold binary_round_aux.
  pose proof (shr_fexp_bounds mx ex lx (proj1 Hm)) as [Hb1 Hb2].
  assert (Hd1 : Zdigits2 mx <= 60) by (by apply Zdigits2_le).
  destruct (shr_fexp prec emax mx ex lx) as [mrs' e'] eqn:E1. cbn [fst snd] in *.
  set (m2 := round_nearest_even (shr_m mrs') (loc_of_shr_record mrs')).
  pose proof (round_nearest_even_bounds (shr_m mrs') (loc_of_shr_record mrs')) as Hr.
  fold m2 in Hr.
  assert (Hm2 : 0 <= m2 < 2 ^ 61).
  { split; [lia|]. change (2 ^ 61) with (2 ^ 60 + 2 ^ 60). lia. }
  pose proof (shr_fexp_bounds m2 e' loc_Exact (proj1 Hm2)) as [Hc1 Hc2].
  assert (Hd2 : Zdigits2 m2 <= 61) by (by apply Zdigits2_le).
  assert (Zdigits2_nonneg : forall z, 0 <= Zdigits2 z) by (intros [| |]; cbn; lia).
  pose proof (Zdigits2_nonneg mx). pose proof (Zdigits2_nonneg m2).
  destruct (shr_fexp prec emax m2 e' loc_Exact) as [mrs'' e''] eqn:E2. cbn [fst snd] in *.
  assert (He'' : e'' <= 971).
  { unfold fexp, emin, prec, emax in *. lia. }
  destruct (shr_m mrs'') as [|q|q]; [done| |lia].
  unfold emax, prec. destruct (Z.leb_spec e'' (1024 - 53)); [done|lia].
Qed.

Lemma f1000_canon : f1000 = canon 1000%positive.
Proof. reflexivity. Qed.

Lemma fdiv_canon_finite (p q : positive) :
  Zpos (Pos.size p) <= 53 -> Zpos (Pos.size q) <= 53 ->
  is_finite_or_zero (fdiv (canon p) (canon q)) = true.
Proof.
  intros Hp Hq. unfold fdiv, canon, SFdiv.
  set (mp := shl p (Z.to_nat (53 - Zpos (Pos.size p)))).
  set (mq := shl q (Z.to_nat (53 - Zpos (Pos.size q)))).
  set (ep := Zpos (Pos.size p) - 53). set (eq := Zpos (Pos.size q) - 53).
  assert (Hdp : Zpos (Pos.size mp) = 53) by (subst mp; rewrite shl_size; lia).
  assert (Hdq : Zpos (Pos.size mq) = 53) by (subst mq; rewrite shl_size; lia).
  assert (Hep : -52 <= ep <= 0) by (subst ep; lia).
  assert (Heq : -52 <= eq <= 0) by (subst eq; lia).
  unfold SFdiv_core_binary. cbn [Zdigits2].
  rewrite (digits2_size mp), (digits2_size mq), Hdp, Hdq.
  assert (He' : Z.min (fexp prec emax (53 + ep - (53 + eq))) (ep - eq) = ep - eq - 53)
    by (unfold fexp, emin, prec, emax; lia).
  rewrite He'.
  replace (ep - eq - (ep - eq - 53)) with 53 by lia.
  change (IntDef.Z.div_eucl ?a ?b) with (Z.div_eucl a b).
  destruct (Z.div_eucl (Z.shiftl (Zpos mp) 53) (Zpos mq)) as [qu r] eqn:E.
  assert (Hqu : qu = Z.shiftl (Zpos mp) 53 / Zpos mq) by (unfold Z.div; by rewrite E).
  apply binary_round_aux_bounded; [|lia].
  rewrite Hqu, Z.shiftl_mul_pow2 by lia.
  pose proof (size_bounds mp) as [_ Hmp]. rewrite Hdp in Hmp.
  split.
  - apply Z.div_pos; lia.
  - apply Z.div_lt_upper_bound; [lia|].
    pose proof (size_bounds mq) as [Hmq _]. rewrite Hdq in Hmq.
    change (2 ^ (53 - 1)) with (2 ^ 52) in Hmq. lia.
Qed.

(* ===================================================================== *)
(** * Properties of internal/security: RateLimiter *)
(* ===================================================================== *)

Lemma int_canon (k : Z) :
  1 <= k < 2 ^ 53 ->
  float64_of_int k = canon (Z.to_pos k) /\ Zpos (Pos.size (Z.to_pos k)) <= 53.
Proof.
  intros Hk. destruct k as [|p|p]; try lia. cbn [Z.to_pos].
  assert (Hs : Zpos (Pos.size p) <= 53) by (apply size_le_of_lt; lia).
  split; [by apply float64_of_int_canon | exact Hs].
Qed.

Lemma fsub_int (k : Z) :
  1 <= k <= 2 ^ 53 -> fsub (float64_of_int k) f1 = float64_of_int (k - 1).
Proof.
  intros Hk. destruct (Z.eq_dec k (2 ^ 53)) as [->|Hne].
  - vm_compute. reflexivity.
  - destruct (int_canon k) as [Hc Hs]; [lia|].
    rewrite Hc, fsub_one by exact Hs. f_equal. lia.
Qed.

Lemma fge_int (k : Z) :
  0 <= k <= 2 ^ 53 -> fge (float64_of_int k) f1 = (1 <=? k).
Proof.
  intros Hk. destruct (Z.eq_dec k (2 ^ 53)) as [->|Hne]; [by vm_compute|].
  destruct (Z.eq_dec k 0) as [->|Hne0]; [by vm_compute|].
  destruct (int_canon k) as [Hc Hs]; [lia|].
  rewrite Hc, f1_canon. unfold fge, SFleb. rewrite canon_compare.
  destruct (Z.leb_spec 1 k); [|lia].
  destruct (Pos.compare_spec 1 (Z.to_pos k)); try done. lia.
Qed.

Lemma flt_int (c k : Z) :
  1 <= c <= 2 ^ 53 -> 0 <= k <= c ->
  flt (float64_of_int c) (float64_of_int k) = false.
Proof.
  intros Hc Hk. unfold flt, SFltb.
  destruct (Z.eq_dec k 0) as [->|Hk0].
  { destruct (Z.eq_dec c (2 ^ 53)) as [->|Hne]; [by vm_compute|].
    destruct (int_canon c) as [Ec _]; [lia|]. by rewrite Ec. }
  destruct (Z.eq_dec k (2 ^ 53)) as [->|Hk53].
  { assert (c = 2 ^ 53) as -> by lia. by vm_compute. }
  destruct (int_canon k) as [Ek Sk]; [lia|]. rewrite Ek.
  destruct (Z.eq_dec c (2 ^ 53)) as [->|Hne].
  - change (float64_of_int (2 ^ 53)) with (S754_finite false 4503599627370496 1).
    unfold canon, SFcompare.
    destruct (Z.compare_spec 1 (Zpos (Pos.size (Z.to_pos k)) - 53)); try done; lia.
  - destruct (int_canon c) as [Ec Sc]; [lia|]. rewrite Ec, canon_compare.
    destruct (Pos.compare_spec (Z.to_pos c) (Z.to_pos k)); try done. lia.
Qed.

Lemma int_finite_or_zero (k : Z) :
  0 <= k <= 2 ^ 53 ->
  float64_of_int k = S754_zero false \/
  exists m e, float64_of_int k = S754_finite false m e.
Proof.
  intros Hk. destruct (Z.eq_dec k 0) as [->|Hk0]; [by left|]. right.
  destruct (Z.eq_dec k (2 ^ 53)) as [->|Hk53]; [by eexists _, _|].
  destruct (int_canon k) as [Ek _]; [lia|]. rewrite Ek. by eexists _, _.
Qed.

Lemma fadd_int_zero (k : Z) (s : bool) :
  0 <= k <= 2 ^ 53 -> fadd (float64_of_int k) (S754_zero s) = float64_of_int k.
Proof.
  intros Hk. destruct (int_finite_or_zero k Hk) as [->|(m & e & ->)].
  - by destruct s.
  - reflexivity.
Qed.

Lemma fmul_zero_finite (r : float64) :
  is_finite_or_zero r = true -> exists s, fmul (float64_of_int 0) r = S754_zero s.
Proof. destruct r; try done; intros _; by eexists. Qed.

Lemma rate_finite (c : Z) :
  1 <= c <= 2 ^ 53 -> is_finite_or_zero (fdiv (float64_of_int c) f1000) = true.
Proof.
  intros Hc. destruct (Z.eq_dec c (2 ^ 53)) as [->|Hne]; [by vm_compute|].
  destruct (int_canon c) as [Ec Sc]; [lia|]. rewrite Ec, f1000_canon.
  apply fdiv_canon_finite; [exact Sc | by vm_compute].
Qed.

Lemma elapsed_zero (now : Time) : Duration_Milliseconds (Time_Sub now now) = 0.
Proof. unfold Time_Sub. rewrite Z.sub_diag. reflexivity. Qed.

(** The first call for an identifier creates the full bucket and answers
    true. *)
Lemma Allow_new (rl : RateLimiter) (now : Time) (id : string) :
  rl_enabled rl = true -> buckets rl !! id = None ->
  Allow rl now id =
    (true, {| requestsPerSecond := requestsPerSecond rl;
              buckets := <[id := bucket_at (requestsPerSecond rl) now
                                           (requestsPerSecond rl)]> (buckets rl);
              rl_enabled := true |}).
Proof. intros He Hb. unfold Allow. rewrite He, Hb. reflexivity. Qed.

(** A later call at the same instant takes one token when there is one. *)
Lemma Allow_at (rl : RateLimiter) (now : Time) (id : string) (c k : Z) :
  rl_enabled rl = true -> requestsPerSecond rl = c ->
  1 <= c <= 2 ^ 53 -> 0 <= k <= c ->
  buckets rl !! id = Some (bucket_at c now k) ->
  Allow rl now id =
    (1 <=? k,
     {| requestsPerSecond := c;
        buckets := <[id := bucket_at c now (if 1 <=? k then k - 1 else k)]> (buckets rl);
        rl_enabled := true |}).
Proof.
  intros He Hr Hc Hk Hb. unfold Allow. rewrite He, Hb, Hr. cbn [negb].
  cbn [bucket_at tokens lastTime ratePerMs]. rewrite elapsed_zero.
  destruct (fmul_zero_finite _ (rate_finite c Hc)) as [s ->].
  rewrite fadd_int_zero by lia.
  unfold minFloat. rewrite flt_int by lia. rewrite fge_int by lia.
  destruct (Z.leb_spec 1 k).
  - rewrite fsub_int by lia. reflexivity.
  - reflexivity.
Qed.

Lemma Allow_burst_at (n : nat) (rl : RateLimiter) (now : Time) (id : string) (c k : Z) :
  rl_enabled rl = true -> requestsPerSecond rl = c ->
  1 <= c <= 2 ^ 53 -> Z.of_nat n <= k <= c ->
  buckets rl !! id = Some (bucket_at c now k) ->
  fst (Allow_burst n rl now id) = repeat true n /\
  rl_enabled (snd (Allow_burst n rl now id)) = true /\
  requestsPerSecond (snd (Allow_burst n rl now id)) = c /\
  buckets (snd (Allow_burst n rl now id)) !! id = Some (bucket_at c now (k - Z.of_nat n)).
Proof.
  revert rl k. induction n as [|n IH]; intros rl k He Hr Hc Hk Hb.
  - cbn. rewrite Z.sub_0_r. done.
  - cbn [Allow_burst]. rewrite (Allow_at rl now id c k) by (done || lia).
    destruct (Z.leb_spec 1 k); [|lia].
    set (rl1 := {| requestsPerSecond := c;
                   buckets := <[id := bucket_at c now (k - 1)]> (buckets rl);
                   rl_enabled := true |}).
    destruct (IH rl1 (k - 1)) as (H1 & H2 & H3 & H4);
      [done | done | lia | lia | apply lookup_insert_eq |].
    destruct (Allow_burst n rl1 now id) as [bs rl2]. cbn [fst snd] in *.
    repeat split; [by rewrite H1 | done | done |].
    rewrite H4. do 2 f_equal. lia.
Qed.

(** C3, amended. For an enabled limiter of capacity [c] with
    [1 <= c <= 2^53] and an identifier it has not seen, all calls being
    made at the same instant: the first call answers true and leaves a
    bucket of [c] tokens, the [c] following calls answer true, and the
    call after them answers false. *)
Theorem rate_limiter_burst (c : Z) : 1 <= c <= 2 ^ 53 -> burst_claim c.
Proof.
  intros Hc rl now id He Hr Hb. cbn zeta.
  rewrite (Allow_new rl now id He Hb), Hr. cbn [fst snd].
  set (rl1 := {| requestsPerSecond := c;
                 buckets := <[id := bucket_at c now c]> (buckets rl);
                 rl_enabled := true |}).
  destruct (Allow_burst_at (Z.to_nat c) rl1 now id c c) as (H1 & H2 & H3 & H4);
    [done | done | lia | lia | apply lookup_insert_eq |].
  split; [done|].
  split; [subst rl1; cbn [buckets]; by rewrite lookup_insert_eq|].
  split; [exact H1|].
  rewrite (Allow_at _ now id c (c - Z.of_nat (Z.to_nat c))) by (done || lia).
  cbn [fst]. apply Z.leb_gt. lia.
Qed.

Lemma rate_limiter_burst_witness : 1 <= 10 <= 2 ^ 53 /\ burst_claim 10.
Proof.
  assert (H : 1 <= 10 <= 2 ^ 53) by lia.
  split; [exact H | exact (rate_limiter_burst 10 H)].
Defined.

(** At a capacity of [2^54] the bucket never empties: taking [1.0] from
    [2^54] rounds back to [2^54]. *)
Lemma Allow_saturated (now : Time) (id : string) :
  Allow (saturated_limiter now id) now id = (true, saturated_limiter now id).
Proof.
  unfold Allow, saturated_limiter. cbn [rl_enabled negb buckets requestsPerSecond].
  rewrite lookup_insert_eq. cbn [bucket_at tokens lastTime ratePerMs].
  rewrite elapsed_zero.
  assert (E1 : minFloat (float64_of_int (2 ^ 54))
                 (fadd (float64_of_int (2 ^ 54))
                       (fmul (float64_of_int 0)
                             (fdiv (float64_of_int (2 ^ 54)) f1000))) =
               float64_of_int (2 ^ 54)) by (vm_compute; reflexivity).
  assert (E2 : fge (float64_of_int (2 ^ 54)) f1 = true) by (vm_compute; reflexivity).
  assert (E3 : fsub (float64_of_int (2 ^ 54)) f1 = float64_of_int (2 ^ 54))
    by (vm_compute; reflexivity).
  rewrite E1, E2, E3, insert_insert_eq. reflexivity.
Qed.

Lemma Allow_burst_saturated (n : nat) (now : Time) (id : string) :
  Allow_burst n (saturated_limiter now id) now id =
  (repeat true n, saturated_limiter now id).
Proof.
  induction n as [|n IH]; [reflexivity|].
  cbn [Allow_burst]. rewrite Allow_saturated, IH. reflexivity.
Qed.

(** C3, refuted as worded: at a capacity of [2^54] every call at the same
    instant answers true, the one after the [c] following calls
    included. *)
Lemma burst_claim_counterexample : ~ burst_claim (2 ^ 54).
Proof.
  intros H.
  specialize (H (NewRateLimiter (2 ^ 54) true) 0 "test-client"
                eq_refl eq_refl (lookup_empty _)).
  cbv zeta in H. destruct H as (_ & _ & _ & H).
  revert H. generalize (Z.to_nat (2 ^ 54)). intros n H.
  rewrite (Allow_new (NewRateLimiter (2 ^ 54) true) 0 "test-client") in H
    by (reflexivity || apply lookup_empty).
  cbn [snd NewRateLimiter requestsPerSecond buckets] in H.
  change {| requestsPerSecond := 2 ^ 54;
            buckets := <["test-client" := bucket_at (2 ^ 54) 0 (2 ^ 54)]> ∅;
            rl_enabled := true |}
    with (saturated_limiter 0 "test-client") in H.
  rewrite Allow_burst_saturated in H. cbn [snd] in H.
  rewrite Allow_saturated in H. discriminate.
Qed.

(* ===================================================================== *)
(** * Further properties of internal/security *)
(* ===================================================================== *)

(** X1. A disabled limiter allows every call and keeps no books: the
    limiter is left as it was, for one call at any instant and for any
    burst. *)
Theorem Allow_disabled_keeps_no_books (rl : RateLimiter) :
  rl_enabled rl = false ->
  (forall (now : Time) (id : string), Allow rl now id = (true, rl)) /\
  (forall (n : nat) (now : Time) (id : string),
      Allow_burst n rl now id = (repeat true n, rl)).
Proof.
  intros Hd.
  assert (H1 : forall now id, Allow rl now id = (true, rl))
    by (intros now id; unfold Allow; by rewrite Hd).
  split; [exact H1|].
  intros n now id. induction n as [|n IH]; [reflexivity|].
  cbn [Allow_burst]. by rewrite H1, IH.
Qed.

Lemma Allow_disabled_keeps_no_books_witness :
  Allow_burst 100 (NewRateLimiter 10 false) 0 "test-client" =
  (repeat true 100, NewRateLimiter 10 false).
Proof.
  exact (proj2 (Allow_disabled_keeps_no_books (NewRateLimiter 10 false) eq_refl)
               100%nat 0 "test-client").
Defined.

(** X2. Buckets are per identifier and are never evicted: a call for one
    identifier leaves the bucket of every other identifier as it was,
    keeps every bucket that existed, and changes neither the capacity
    nor the enabled flag. *)
Theorem Allow_isolates_identifiers
  (rl : RateLimiter) (now : Time) (id other : string) :
  id <> other ->
  buckets (snd (Allow rl now id)) !! other = buckets rl !! other /\
  (forall k, is_Some (buckets rl !! k) ->
             is_Some (buckets (snd (Allow rl now id)) !! k)) /\
  requestsPerSecond (snd (Allow rl now id)) = requestsPerSecond rl /\
  rl_enabled (snd (Allow rl now id)) = rl_enabled rl.
Proof.
  intros Hne. unfold Allow.
  destruct (rl_enabled rl) eqn:He; cbn [negb]; [|cbn [snd]; by eauto].
  destruct (buckets rl !! id) as [b|] eqn:Hb; cbn [snd buckets requestsPerSecond rl_enabled].
  - split; [by rewrite lookup_insert_ne|]. split; [|done].
    intros k Hk. destruct (decide (id = k)) as [<-|Hk'].
    + rewrite lookup_insert_eq. eauto.
    + by rewrite lookup_insert_ne.
  - split; [by rewrite lookup_insert_ne|]. split; [|done].
    intros k Hk. destruct (decide (id = k)) as [<-|Hk'].
    + rewrite lookup_insert_eq. eauto.
    + by rewrite lookup_insert_ne.
Qed.

Lemma Allow_isolates_identifiers_witness :
  buckets (snd (Allow (saturated_limiter 0 "test-client") 5 "other-client"))
    !! "test-client"
  = buckets (saturated_limiter 0 "test-client") !! "test-client".
Proof.
  refine (proj1 (Allow_isolates_identifiers (saturated_limiter 0 "test-client") 5
                   "other-client" "test-client" _)).
  intros H. discriminate H.
Defined.

Lemma Allow_burst_from (n : nat) (rl : RateLimiter) (now : Time) (id : string) (c k : Z) :
  rl_enabled rl = true -> requestsPerSecond rl = c ->
  1 <= c <= 2 ^ 53 -> 0 <= k <= c ->
  buckets rl !! id = Some (bucket_at c now k) ->
  fst (Allow_burst n rl now id) =
  repeat true (Nat.min n (Z.to_nat k)) ++ repeat false (n - Z.to_nat k).
Proof.
  revert rl k. induction n as [|n IH]; intros rl k He Hr Hc Hk Hb; [reflexivity|].
  cbn [Allow_burst]. rewrite (Allow_at rl now id c k) by (done || lia).
  set (k' := if 1 <=? k then k - 1 else k).
  set (rl1 := {| requestsPerSecond := c;
                 buckets := <[id := bucket_at c now k']> (buckets rl);
                 rl_enabled := true |}).
  assert (Hk' : 0 <= k' <= c) by (subst k'; destruct (1 <=? k) eqn:E; lia).
  pose proof (IH rl1 k' eq_refl eq_refl Hc Hk' (lookup_insert_eq _ _ _)) as IH1.
  destruct (Allow_burst n rl1 now id) as [bs rl2]. cbn [fst] in *. rewrite IH1.
  subst k'. destruct (Z.leb_spec 1 k).
  - replace (Z.to_nat k) with (S (Z.to_nat (k - 1))) by lia.
    cbn [Nat.min repeat Nat.sub app]. reflexivity.
  - replace k with 0 by lia. cbn [Z.to_nat Nat.min]. rewrite !Nat.sub_0_r.
    rewrite Nat.min_0_r. reflexivity.
Qed.

(** X3. Among any number of calls made at the same instant for an
    identifier the limiter has not seen, exactly the first [c + 1] are
    allowed: the free first call and one per token; every later call is
    refused, however many follow (capacity [c] with [1 <= c <= 2^53]). *)
Theorem Allow_burst_allows_first_c_plus_one
  (c : Z) (n : nat) (rl : RateLimiter) (now : Time) (id : string) :
  1 <= c <= 2 ^ 53 ->
  rl_enabled rl = true -> requestsPerSecond rl = c -> buckets rl !! id = None ->
  fst (Allow_burst (S n) rl now id) =
  true :: repeat true (Nat.min n (Z.to_nat c)) ++ repeat false (n - Z.to_nat c).
Proof.
  intros Hc He Hr Hb. cbn [Allow_burst].
  rewrite (Allow_new rl now id He Hb), Hr.
  set (rl1 := {| requestsPerSecond := c;
                 buckets := <[id := bucket_at c now c]> (buckets rl);
                 rl_enabled := true |}).
  pose proof (Allow_burst_from n rl1 now id c c eq_refl eq_refl Hc
                ltac:(lia) (lookup_insert_eq _ _ _)) as H.
  destruct (Allow_burst n rl1 now id) as [bs rl2]. cbn [fst] in *. by rewrite H.
Qed.

Lemma Allow_burst_allows_first_c_plus_one_witness :
  fst (Allow_burst 6 (NewRateLimiter 3 true) 0 "test-client") =
  [true; true; true; true; false; false].
Proof.
  assert (H : 1 <= 3 <= 2 ^ 53) by lia.
  exact (Allow_burst_allows_first_c_plus_one 3 5 (NewRateLimiter 3 true) 0
           "test-client" H eq_refl eq_refl (lookup_empty _)).
Defined.

Lemma NewIPWhitelist_lookup (ips : list string) (m : gmap string bool) (ip : string) :
  fold_left (fun m ip => <[ip := true]> m) ips m !! ip =
  if decide (ip ∈ ips) then Some true else m !! ip.
Proof.
  revert m. induction ips as [|i ips IH]; intros m; cbn [fold_left].
  - destruct (decide (ip ∈ [])) as [H|]; [|done]. by apply elem_of_nil in H.
  - rewrite IH. destruct (decide (ip ∈ ips)) as [Hin|Hnin].
    + destruct (decide (ip ∈ i :: ips)) as [|Hn]; [done|]. elim Hn. by right.
    + destruct (decide (i = ip)) as [->|Hne].
      * rewrite lookup_insert_eq.
        destruct (decide (ip ∈ ip :: ips)) as [|Hn]; [done|]. elim Hn. by left.
      * rewrite lookup_insert_ne by done.
        destruct (decide (ip ∈ i :: ips)) as [H|]; [|reflexivity].
        apply elem_of_cons in H as [H|H]; [by subst | done].
Qed.

(** X4. A whitelist as constructed allows an IP exactly when the list was
    empty or holds that IP, whatever the order and the repetitions in
    the list. *)
Theorem NewIPWhitelist_allows_listed (ips : list string) (ip : string) :
  IsAllowed (NewIPWhitelist ips) ip = true <-> ips = [] \/ In ip ips.
Proof.
  unfold IsAllowed, NewIPWhitelist. cbn [wl_enabled allowedIPs].
  destruct ips as [|i ips']; [cbn; tauto|].
  cbn [length Nat.ltb Nat.leb negb]. rewrite NewIPWhitelist_lookup, lookup_empty.
  destruct (decide (ip ∈ i :: ips')) as [Hin|Hnin]; cbn.
  - apply list_elem_of_In in Hin. split; [by right | done].
  - split; [done | intros [H|H]; [discriminate |]].
    elim Hnin. apply list_elem_of_In. exact H.
Qed.

(* ===================================================================== *)
(** * Further properties of internal/pipeline: ConnectionPool *)
(* ===================================================================== *)

Lemma cp_apply_bounds (cp : ConnectionPool) (o : Runs.cp_op) :
  maxConnections cp <= MaxInt64 ->
  0 <= activeConn cp <= Z.max 0 (maxConnections cp) ->
  maxConnections (Runs.cp_apply cp o) = maxConnections cp /\
  0 <= activeConn (Runs.cp_apply cp o) <= Z.max 0 (maxConnections cp).
Proof.
  intros Hm Ha. destruct o; cbn [Runs.cp_apply].
  - unfold AddConnection.
    destruct (Z.leb_spec (maxConnections cp) (activeConn cp)); cbn; [lia|].
    rewrite wrap64_small; [lia|]. unfold is_int64, MinInt64, MaxInt64 in *. lia.
  - unfold RemoveConnection. destruct (Z.ltb_spec 0 (activeConn cp)); cbn; [|lia].
    rewrite wrap64_small; [lia|]. unfold is_int64, MinInt64, MaxInt64 in *. lia.
Qed.

(** X5. Whatever the sequence of [AddConnection] and [RemoveConnection]
    calls on a new pool, the active count stays between zero and the
    maximum (at zero when the maximum is negative), the maximum is never
    changed, and [CanAccept] answers what the next [AddConnection] would
    answer. *)
Theorem pool_count_stays_within_bounds (maxc : Z) (l : Logger) (ops : list Runs.cp_op) :
  maxc <= MaxInt64 ->
  let cp := Runs.cp_run (NewConnectionPool maxc l) ops in
  maxConnections cp = maxc /\
  0 <= GetActiveConnections cp <= Z.max 0 maxc /\
  CanAccept cp = fst (AddConnection cp).
Proof.
  intros Hm cp.
  assert (H : maxConnections cp = maxc /\ 0 <= activeConn cp <= Z.max 0 maxc).
  { subst cp. unfold Runs.cp_run.
    assert (Hgen : forall c0, maxConnections c0 = maxc ->
                     0 <= activeConn c0 <= Z.max 0 maxc ->
                     maxConnections (fold_left Runs.cp_apply ops c0) = maxc /\
                     0 <= activeConn (fold_left Runs.cp_apply ops c0) <= Z.max 0 maxc).
    { induction ops as [|o ops IH]; intros c0 H1 H2; cbn [fold_left]; [done|].
      destruct (cp_apply_bounds c0 o) as [H3 H4]; [lia | by rewrite H1 |].
      apply IH; [congruence | by rewrite <- H1]. }
    apply Hgen; cbn; lia. }
  destruct H as [H1 H2]. split; [exact H1|]. split; [exact H2|].
  unfold CanAccept, AddConnection.
  destruct (Z.leb_spec (maxConnections cp) (activeConn cp));
    destruct (Z.ltb_spec (activeConn cp) (maxConnections cp)); cbn; lia || done.
Qed.

Lemma pool_count_stays_within_bounds_witness :
  0 <= GetActiveConnections
         (Runs.cp_run (NewConnectionPool 2 [])
            [Runs.OpRemove; Runs.OpAdd; Runs.OpAdd; Runs.OpAdd; Runs.OpRemove])
    <= Z.max 0 2.
Proof.
  assert (H : 2 <= MaxInt64) by (unfold MaxInt64; lia).
  exact (proj1 (proj2 (pool_count_stays_within_bounds 2 []
           [Runs.OpRemove; Runs.OpAdd; Runs.OpAdd; Runs.OpAdd; Runs.OpRemove] H))).
Defined.

(** X6. A slot taken is given back: after an [AddConnection] that
    succeeds, [RemoveConnection] restores the count; and a refused
    [AddConnection] writes one warning where a successful one writes
    none. *)
Theorem pool_add_then_remove (cp : ConnectionPool) :
  0 <= activeConn cp -> maxConnections cp <= MaxInt64 ->
  (fst (AddConnection cp) = true ->
   activeConn (RemoveConnection (snd (AddConnection cp))) = activeConn cp /\
   cp_log (snd (AddConnection cp)) = cp_log cp) /\
  (fst (AddConnection cp) = false ->
   snd (AddConnection cp) =
   {| maxConnections := maxConnections cp; activeConn := activeConn cp;
      cp_log := cp_log cp ++ [ {| level := WarnLevel;
                                  message := "max connections reached" |} ] |}).
Proof.
  intros H0 Hm. unfold AddConnection.
  destruct (Z.leb_spec (maxConnections cp) (activeConn cp)); cbn [fst snd].
  - split; [discriminate | done].
  - split; [|discriminate]. intros _. unfold RemoveConnection. cbn.
    assert (Hw : wrap64 (activeConn cp + 1) = activeConn cp + 1).
    { apply wrap64_small. unfold is_int64, MinInt64, MaxInt64 in *. lia. }
    rewrite Hw. destruct (Z.ltb_spec 0 (activeConn cp + 1)); [|lia]. cbn.
    split; [|done]. rewrite wrap64_small; [lia|].
    unfold is_int64, MinInt64, MaxInt64 in *. lia.
Qed.

Lemma pool_add_then_remove_witness :
  activeConn (RemoveConnection (snd (AddConnection (NewConnectionPool 5 [])))) = 0.
Proof.
  assert (H0 : 0 <= activeConn (NewConnectionPool 5 [])) by (cbn; lia).
  assert (Hm : maxConnections (NewConnectionPool 5 []) <= MaxInt64)
    by (unfold MaxInt64; cbn; lia).
  exact (proj1 (proj1 (pool_add_then_remove (NewConnectionPool 5 []) H0 Hm) eq_refl)).
Defined.

(* ===================================================================== *)
(** * Further properties of internal/pipeline: Collector and Normalizer *)
(* ===================================================================== *)

Lemma free_full {A : Type} (c : chan A) :
  chan_full c = true -> Runs.free c = 0%nat.
Proof. unfold chan_full, Runs.free. intros H%Nat.leb_le. lia. Qed.

Lemma free_room {A : Type} (c : chan A) :
  chan_full c = false -> exists k, Runs.free c = S k.
Proof.
  unfold chan_full, Runs.free. intros H%Nat.leb_gt.
  exists (cap c - length (buf c) - 1)%nat. lia.
Qed.

Lemma free_send {A : Type} (c : chan A) (x : A) (k : nat) :
  Runs.free c = S k ->
  Runs.free {| buf := buf c ++ [x]; cap := cap c; closed := false |} = k.
Proof. unfold Runs.free. cbn. rewrite length_app. cbn. lia. Qed.

(** X7. A run of [Collect] calls on an open queue on which no receiver
    is parked never blocks and never fails: the events that find room
    are queued in order behind those already there, each of the others
    is dropped with one warning, and the queue is never filled beyond
    its capacity nor closed. *)
Theorem Collect_all_queues_then_drops (events : list RawTrafficEvent) (c : Collector) :
  closed (col_out c) = false ->
  exists c',
    Runs.Collect_all c events = Returns c' /\
    buf (col_out c') = buf (col_out c) ++ take (Runs.free (col_out c)) events /\
    cap (col_out c') = cap (col_out c) /\
    closed (col_out c') = false /\
    col_log c' = col_log c ++
                 repeat Runs.dropped_warning (length events - Runs.free (col_out c)).
Proof.
  revert c. induction events as [|e rest IH]; intros c Hopen.
  - exists c. cbn. rewrite take_nil, !app_nil_r. done.
  - cbn [Runs.Collect_all]. rewrite (Collect_cases c false e Hopen).
    destruct (chan_full (col_out c)) eqn:Hfull.
    + destruct (IH {| col_out := col_out c;
                      col_log := Log (col_log c) WarnLevel
                                     "collector channel full, dropping event" |} Hopen)
        as (c' & Hrun & Hbuf & Hcap & Hcl & Hlog).
      exists c'. cbn [col_out col_log] in *.
      rewrite (free_full _ Hfull) in *. rewrite take_0 in *.
      split; [exact Hrun|]. split; [exact Hbuf|]. split; [exact Hcap|].
      split; [exact Hcl|]. rewrite Hlog. unfold Log. rewrite <- app_assoc.
      rewrite !Nat.sub_0_r. reflexivity.
    + destruct (free_room _ Hfull) as [k Hk].
      destruct (IH {| col_out := {| buf := buf (col_out c) ++ [e];
                                    cap := cap (col_out c); closed := false |};
                      col_log := col_log c |} eq_refl)
        as (c' & Hrun & Hbuf & Hcap & Hcl & Hlog).
      exists c'. cbn [col_out col_log] in *.
      rewrite (free_send _ e k Hk) in *. cbn [buf cap] in *.
      split; [exact Hrun|]. rewrite Hk.
      split; [by rewrite Hbuf, <- app_assoc|]. split; [exact Hcap|].
      split; [exact Hcl|]. rewrite Hlog. reflexivity.
Qed.

Lemma Collect_all_queues_then_drops_witness :
  exists c',
    Runs.Collect_all (NewCollector (make_chan 2) [])
                     [test_event 1; test_event 2; test_event 3] = Returns c' /\
    buf (col_out c') = [test_event 1; test_event 2] /\
    col_log c' = [Runs.dropped_warning].
Proof.
  destruct (Collect_all_queues_then_drops [test_event 1; test_event 2; test_event 3]
              (NewCollector (make_chan 2) []) eq_refl)
    as (c' & H1 & H2 & _ & _ & H5).
  exists c'. split; [exact H1|]. split; [exact H2 | exact H5].
Defined.




(* ===================================================================== *)
(** * Further properties of internal/pipeline: Publisher *)
(* ===================================================================== *)

Lemma drops_app (a b : Logger) :
  Ledger.drops (a ++ b) = (Ledger.drops a + Ledger.drops b)%nat.
Proof. induction a as [|e a IH]; cbn; [done|]. rewrite IH. lia. Qed.

Lemma stored_flushBatch (p : Publisher) (b : list Models.TrafficLog) :
  Runs.stored (flushBatch p b) = Runs.stored p ++ b.
Proof.
  unfold Runs.stored, flushBatch. cbn [saved].
  rewrite map_app, concat_app. cbn. by rewrite app_nil_r.
Qed.

Lemma drops_flushBatch (p : Publisher) (b : list Models.TrafficLog) :
  Ledger.drops (p_log (flushBatch p b)) = Ledger.drops (p_log p).
Proof.
  unfold flushBatch. cbn [p_log]. rewrite drops_app.
  destruct (repo p (saved p) _); cbn; lia.
Qed.

Lemma stored_set_batch (p : Publisher) (b : list Models.TrafficLog) :
  Runs.stored (set_batch p b) = Runs.stored p.
Proof. reflexivity. Qed.

Lemma processBatch_receive_ledger (p : Publisher) (l : Models.TrafficLog) :
  pc p = PLoop ->
  Runs.stored (processBatch_receive p l) ++ Runs.pending (processBatch_receive p l)
    = Runs.stored p ++ Runs.pending p ++ [l] /\
  pc (processBatch_receive p l) = PLoop /\
  p_in (processBatch_receive p l) = p_in p /\
  Ledger.drops (p_log (processBatch_receive p l)) = Ledger.drops (p_log p).
Proof.
  intros Hpc. unfold processBatch_receive.
  destruct (batchSize (set_batch p (batch p ++ [l])) <=? _).
  - rewrite stored_set_batch, stored_flushBatch, stored_set_batch.
    unfold Runs.pending. cbn [pc batch set_batch flushBatch p_in].
    rewrite Hpc, app_nil_r.
    split; [reflexivity|]. split; [reflexivity|]. split; [reflexivity|].
    change (p_log (set_batch ?x ?b)) with (p_log x).
    by rewrite drops_flushBatch.
  - rewrite stored_set_batch. unfold Runs.pending. cbn. by rewrite Hpc.
Qed.

Lemma processBatch_return_ledger (p : Publisher) :
  pc p = PLoop ->
  Runs.stored (processBatch_return p) = Runs.stored p ++ Runs.pending p /\
  pc (processBatch_return p) = PReturned /\
  p_in (processBatch_return p) = p_in p /\
  wg (processBatch_return p) = wg p - 1 /\
  Ledger.drops (p_log (processBatch_return p)) = Ledger.drops (p_log p).
Proof.
  intros Hpc.
  assert (Hs : Runs.stored (processBatch_return p) =
               Runs.stored (if Nat.ltb 0 (length (batch p))
                            then flushBatch p (batch p) else p)) by reflexivity.
  assert (Hl : p_log (processBatch_return p) =
               p_log (if Nat.ltb 0 (length (batch p))
                      then flushBatch p (batch p) else p)) by reflexivity.
  rewrite Hs, Hl. unfold Runs.pending. rewrite Hpc.
  split; [|split; [reflexivity|split; [|split]]].
  - destruct (batch p) as [|x b] eqn:Hb; cbn [length Nat.ltb Nat.leb].
    + by rewrite app_nil_r.
    + by rewrite stored_flushBatch.
  - unfold processBatch_return. by destruct (Nat.ltb 0 (length (batch p))).
  - unfold processBatch_return. by destruct (Nat.ltb 0 (length (batch p))).
  - destruct (Nat.ltb 0 (length (batch p))); [apply drops_flushBatch | reflexivity].
Qed.

Lemma recv_buf {A : Type} (c c' : chan A) (o : option A) :
  recv c = Returns (o, c') ->
  buf c = match o with Some x => x :: buf c' | None => [] end /\
  cap c' = cap c.
Proof.
  unfold recv. destruct (buf c) as [|x rest] eqn:Hb.
  - destruct (closed c); [|discriminate]. by intros [= <- <-].
  - by intros [= <- <-].
Qed.

Lemma processBatch_step_ledger (p q : Publisher) (c : select_case) :
  processBatch_step p c = Returns q ->
  (pc p = PStart -> batch p = []) ->
  Runs.stored q ++ Runs.pending q ++ buf (p_in q)
    = Runs.stored p ++ Runs.pending p ++ buf (p_in p) /\
  Ledger.drops (p_log q) = Ledger.drops (p_log p) /\
  (pc q = PStart -> batch q = []).
Proof.
  unfold processBatch_step. destruct (pc p) eqn:Hpc.
  - destruct (makeslice_panics sizeof_pointer (batchSize p)); [discriminate|]. intros [= <-] Hb.
    unfold Runs.pending, Runs.stored. cbn. rewrite Hpc, (Hb eq_refl). done.
  - intros Hs _.
    destruct (processBatch_return_ledger p Hpc) as (R1 & R2 & R3 & _ & R5).
    assert (Hret : Runs.stored (processBatch_return p) ++
                   Runs.pending (processBatch_return p) ++ buf (p_in (processBatch_return p))
                   = Runs.stored p ++ Runs.pending p ++ buf (p_in p)).
    { rewrite R1, R3. unfold Runs.pending at 2. rewrite R2. cbn [app].
      by rewrite <- app_assoc. }
    destruct c.
    + destruct (ctx_done p); [|discriminate]. injection Hs as <-.
      split; [exact Hret|]. split; [exact R5|]. by rewrite R2.
    + destruct (recv (p_in p)) as [[[l|] ch]| |] eqn:Hr; try discriminate.
      * injection Hs as <-. apply recv_buf in Hr as [Hr _].
        destruct (processBatch_receive_ledger (set_in p ch) l Hpc) as (E1 & E2 & E3 & E4).
        rewrite app_assoc, E1, E3, Hr. cbn [set_in p_in].
        split; [|split; [exact E4 | by rewrite E2]].
        unfold Runs.pending, Runs.stored. cbn [pc saved batch set_in].
        by rewrite <- !app_assoc.
      * injection Hs as <-.
        split; [exact Hret|]. split; [exact R5|]. by rewrite R2.
    + destruct (ticker_stopped p); [discriminate|].
      destruct (batch p) as [|x b] eqn:Hb; cbn [length Nat.ltb Nat.leb] in Hs;
        injection Hs as <-; [by rewrite Hpc|].
      rewrite stored_set_batch, stored_flushBatch.
      unfold Runs.pending. cbn [pc set_batch flushBatch batch p_in]. rewrite Hpc, Hb.
      cbn [app]. rewrite <- app_assoc.
      split; [reflexivity|]. split; [|discriminate].
      change (p_log (set_batch ?x ?b)) with (p_log x). by rewrite drops_flushBatch.
  - discriminate.
Qed.

(** X9. The consumer loop neither loses, duplicates nor reorders
    records, whatever cases its [select] picks and whatever the
    repository answers: the records handed to the repository so far,
    then the batch in hand, then the queue, always make up the same
    list. In particular a batch whose save failed is not kept for
    another attempt: it counts as handed over. *)
Theorem processBatch_run_keeps_every_record
  (sched : list select_case) (p q : Publisher) :
  (pc p = PStart -> batch p = []) ->
  processBatch_run p sched = Returns q ->
  Runs.stored q ++ Runs.pending q ++ buf (p_in q)
    = Runs.stored p ++ Runs.pending p ++ buf (p_in p).
Proof.
  revert p. induction sched as [|c rest IH]; intros p Hb; cbn [processBatch_run].
  - by intros [= <-].
  - destruct (processBatch_step p c) as [p1| |] eqn:Hs; [| |discriminate].
    + intros Hrun. destruct (processBatch_step_ledger p p1 c Hs Hb) as (E & _ & Hb1).
      rewrite <- E. by apply IH.
    + by apply IH.
Qed.

Lemma processBatch_run_keeps_every_record_witness :
  exists q,
    processBatch_run
      (set_in test_publisher
              {| buf := [normalize (test_event 4); normalize (test_event 5)];
                 cap := 4; closed := false |})
      [SelIn; SelTick; SelIn; SelDone; SelIn] = Returns q /\
    Runs.stored q ++ Runs.pending q ++ buf (p_in q) =
    [normalize (test_event 3); normalize (test_event 4); normalize (test_event 5)].
Proof.
  eexists. split; [vm_compute; reflexivity|].
  refine (processBatch_run_keeps_every_record
            [SelIn; SelTick; SelIn; SelDone; SelIn]
            (set_in test_publisher
                    {| buf := [normalize (test_event 4); normalize (test_event 5)];
                       cap := 4; closed := false |}) _ _ _).
  - discriminate.
  - vm_compute. reflexivity.
Defined.

Lemma processBatch_receive_flags (p : Publisher) (l : Models.TrafficLog) :
  ctx_done (processBatch_receive p l) = ctx_done p /\
  ticker_stopped (processBatch_receive p l) = ticker_stopped p /\
  batchSize (processBatch_receive p l) = batchSize p /\
  wg (processBatch_receive p l) = wg p.
Proof. unfold processBatch_receive. cbn. by destruct (batchSize p <=? _). Qed.

(** X10. When the queue has been closed and the loop keeps taking its
    input case, every queued record reaches the repository: after one
    step per record and one more the loop has returned, the calls made
    hold the batch in hand followed by the queue, in order, the queue is
    empty and the wait group is released. *)
Theorem processBatch_drains_closed_queue (p : Publisher) :
  pc p = PLoop -> closed (p_in p) = true ->
  exists q,
    processBatch_run p (repeat SelIn (S (length (buf (p_in p))))) = Returns q /\
    pc q = PReturned /\
    Runs.stored q = Runs.stored p ++ batch p ++ buf (p_in p) /\
    buf (p_in q) = [] /\
    wg q = wg p - 1.
Proof.
  remember (buf (p_in p)) as ls eqn:Hls.
  revert p Hls. induction ls as [|l rest IH]; intros p Hls Hpc Hcl.
  - exists (processBatch_return p). cbn [length repeat processBatch_run].
    unfold processBatch_step, recv. rewrite Hpc, <- Hls, Hcl.
    destruct (processBatch_return_ledger p Hpc) as (R1 & R2 & R3 & R4 & _).
    split; [reflexivity|]. split; [exact R2|].
    split; [rewrite R1; unfold Runs.pending; by rewrite Hpc, app_nil_r|].
    split; [by rewrite R3, <- Hls | exact R4].
  - cbn [length repeat processBatch_run].
    unfold processBatch_step at 1, recv. rewrite Hpc, <- Hls.
    set (p0 := set_in p {| buf := rest; cap := cap (p_in p); closed := closed (p_in p) |}).
    destruct (processBatch_receive_ledger p0 l Hpc) as (E1 & E2 & E3 & _).
    destruct (processBatch_receive_flags p0 l) as (_ & _ & _ & F4).
    destruct (IH (processBatch_receive p0 l)) as (q & Hrun & Hq1 & Hq2 & Hq3 & Hq4).
    + by rewrite E3.
    + exact E2.
    + rewrite E3. exact Hcl.
    + exists q. split; [exact Hrun|]. split; [exact Hq1|].
      split; [|split; [exact Hq3 | by rewrite Hq4, F4]].
      rewrite Hq2. unfold Runs.pending in E1. rewrite E2 in E1.
      rewrite app_assoc, E1. cbn [pc p0 set_in]. rewrite Hpc.
      unfold Runs.stored. cbn [saved p0 set_in batch].
      by rewrite <- !app_assoc.
Qed.

Lemma processBatch_drains_closed_queue_witness :
  exists q,
    processBatch_run
      (set_in test_publisher
              {| buf := [normalize (test_event 4); normalize (test_event 5)];
                 cap := 4; closed := true |})
      [SelIn; SelIn; SelIn] = Returns q /\
    Runs.stored q =
    [normalize (test_event 3); normalize (test_event 4); normalize (test_event 5)].
Proof.
  destruct (processBatch_drains_closed_queue
              (set_in test_publisher
                      {| buf := [normalize (test_event 4); normalize (test_event 5)];
                         cap := 4; closed := true |}) eq_refl eq_refl)
    as (q & H1 & _ & H3 & _).
  exists q. split; [exact H1 | exact H3].
Defined.

(** X11. [Normalizer.Close] and [Publisher.Close] both close the queue
    that joins the two stages: once one of them has run, the other
    panics, in either order; [Publisher.Close] on its own cancels the
    context and leaves the queue closed. *)
Theorem closing_both_stages_panics (n : Normalizer) (p : Publisher) :
  n_out n = p_in p ->
  (forall n', Normalizer_Close n = Returns n' ->
     Runs.Publisher_Close (set_in p (n_out n')) = Panics "close of closed channel") /\
  (forall p', Runs.Publisher_Close p = Returns p' ->
     ctx_done p' = true /\ closed (p_in p') = true /\
     Normalizer_Close {| n_in := n_in n; n_out := p_in p'; n_log := n_log n |}
       = Panics "close of closed channel").
Proof.
  intros Hshared. split.
  - intros n'. unfold Normalizer_Close, Runs.Publisher_Close, close.
    destruct (closed (n_out n)); [discriminate|]. by intros [= <-].
  - intros p'. unfold Normalizer_Close, Runs.Publisher_Close, close.
    destruct (closed (p_in p)); [discriminate|]. by intros [= <-].
Qed.

Lemma closing_both_stages_panics_witness :
  Runs.Publisher_Close
    (set_in test_publisher {| buf := []; cap := 4; closed := true |})
  = Panics "close of closed channel".
Proof.
  exact (proj1 (closing_both_stages_panics
                  (NewNormalizer (make_chan 4) (make_chan 4) []) test_publisher eq_refl)
               _ eq_refl).
Defined.

(* ===================================================================== *)
(** * Further properties of cmd/proxy: the running program *)
(* ===================================================================== *)

Section PublisherInvariant.

(** A property of the publisher that each of its moves keeps is kept
    along every execution of the program. *)
Variable P : Publisher -> Prop.
Hypothesis P_set_in : forall p ch, P p -> P (set_in p ch).
Hypothesis P_set_log : forall p l, P p -> P (set_log p l).
Hypothesis P_cancel : forall p, P p -> P (Publisher_cancel p).
Hypothesis P_step : forall p c q, P p -> processBatch_step p c = Returns q -> P q.
Hypothesis P_receive :
  forall p l, P p -> pc p = PLoop -> P (processBatch_receive p l).

Lemma main_step_publisher (s s' : System) :
  main_step s = Some s' -> P (publisher s) -> P (publisher s').
Proof.
  unfold main_step. destruct (main s).
  - by intros [= <-].
  - by intros [= <-].
  - intros [= <-]. cbn. apply P_cancel.
  - destruct (Publisher_wait (publisher s)); [|discriminate..]. by intros [= <-].
  - destruct (Normalizer_Close _); [|discriminate|]; by intros [= <-].
  - destruct (close _); [|discriminate|]; by intros [= <-].
  - by intros [= <-].
  - discriminate.
Qed.

Lemma step_publisher (s s' : System) (l : label) :
  step s l = Some s' -> P (publisher s) -> P (publisher s').
Proof.
  unfold step. destruct (crashed s); [discriminate|].
  assert (H : match l with
              | LMain => main_step s
              | LWorker i => worker_step s i
              | LPublisher c => publisher_step s c
              | LSession event => session_step s event
              | LHandoffIn event i => handoff_in_step s event i
              | LHandoffOut i => handoff_out_step s i
              end = Some s' -> P (publisher s) -> P (publisher s')).
  { destruct l.
    - apply main_step_publisher.
    - unfold worker_step. destruct (workers s !! i); [|discriminate].
      destruct (process_step _ _) as [[n w1]| |]; [|discriminate|]; by intros [= <-].
    - unfold publisher_step.
      destruct (processBatch_step _ c) as [p| |] eqn:Hp; [|discriminate|].
      + intros [= <-] HP. cbn. eapply P_step; [|exact Hp]. by apply P_set_log, P_set_in.
      + by intros [= <-].
    - unfold session_step.
      destruct (Collect _ _ _) as [[[e col] hd]| |]; [|discriminate|]; by intros [= <-].
    - intros Hh. apply handoff_in_step_cases in Hh as (_ & _ & _ & ->). cbn. auto.
    - unfold handoff_out_step.
      destruct (workers s !! i) as [[|t|]|]; try discriminate.
      destruct (buf (normalizerOutputChan s)); [|discriminate].
      destruct (closed (normalizerOutputChan s)); [discriminate|].
      destruct (pc (publisher s)) eqn:Hpc; try discriminate.
      intros [= <-] HP. cbn. apply P_receive; [by apply P_set_log, P_set_in | exact Hpc]. }
  destruct (main s); try discriminate; exact H.
Qed.

Lemma exec_publisher (ls : list label) (s s' : System) :
  exec s ls = Some s' -> P (publisher s) -> P (publisher s').
Proof.
  revert s. induction ls as [|l ls IH]; intros s; cbn.
  - by intros [= <-].
  - destruct (step s l) as [s1|] eqn:Hs; [|discriminate].
    intros He HP. apply (IH s1 He). eapply step_publisher; eauto.
Qed.

End PublisherInvariant.

Lemma flushBatch_within (m : Z) (p : Publisher) (b : list Models.TrafficLog) :
  Forall (Ledger.batch_within m) (saved p) ->
  0 < Z.of_nat (length b) <= m ->
  Forall (Ledger.batch_within m) (saved (flushBatch p b)).
Proof.
  intros Hs Hb. unfold flushBatch. cbn [saved].
  apply Forall_app. split; [exact Hs|]. constructor; [exact Hb | constructor].
Qed.

Lemma processBatch_return_within (m : Z) (p : Publisher) :
  Forall (Ledger.batch_within m) (saved p) ->
  Z.of_nat (length (batch p)) < m ->
  Forall (Ledger.batch_within m) (saved (processBatch_return p)).
Proof.
  intros Hs Hb.
  assert (E : saved (processBatch_return p) =
              saved (if Nat.ltb 0 (length (batch p))
                     then flushBatch p (batch p) else p)) by reflexivity.
  rewrite E. destruct (Nat.ltb_spec 0 (length (batch p))); [|exact Hs].
  apply flushBatch_within; [exact Hs | lia].
Qed.

Lemma processBatch_receive_within (m : Z) (p : Publisher) (l : Models.TrafficLog) :
  Z.max 1 (batchSize p) = m ->
  Forall (Ledger.batch_within m) (saved p) ->
  Z.of_nat (length (batch p)) < m ->
  Forall (Ledger.batch_within m) (saved (processBatch_receive p l)) /\
  Z.of_nat (length (batch (processBatch_receive p l))) < m.
Proof.
  intros Hm Hs Hb. unfold processBatch_receive.
  cbn [batchSize batch set_batch]. rewrite length_app. cbn [length].
  destruct (Z.leb_spec (batchSize p) (Z.of_nat (length (batch p) + 1))).
  - cbn [saved batch set_batch length]. split; [|lia].
    apply (flushBatch_within m (set_batch p (batch p ++ [l]))); [exact Hs|].
    rewrite length_app. cbn [length]. lia.
  - cbn [saved batch set_batch]. split; [exact Hs|]. rewrite length_app. cbn [length]. lia.
Qed.

Lemma processBatch_step_within (m : Z) (p q : Publisher) (c : select_case) :
  processBatch_step p c = Returns q ->
  Z.max 1 (batchSize p) = m ->
  Forall (Ledger.batch_within m) (saved p) ->
  (pc p = PLoop -> Z.of_nat (length (batch p)) < m) ->
  Z.max 1 (batchSize q) = m /\
  Forall (Ledger.batch_within m) (saved q) /\
  (pc q = PLoop -> Z.of_nat (length (batch q)) < m).
Proof.
  unfold processBatch_step. destruct (pc p) eqn:Hpc.
  - destruct (makeslice_panics sizeof_pointer (batchSize p)); [discriminate|]. intros [= <-] Hm Hs _. cbn.
    split; [exact Hm|]. split; [exact Hs|]. intros _. lia.
  - intros Hstep Hm Hs Hb. specialize (Hb eq_refl).
    assert (Hret : Z.max 1 (batchSize (processBatch_return p)) = m /\
                   Forall (Ledger.batch_within m) (saved (processBatch_return p)) /\
                   (pc (processBatch_return p) = PLoop ->
                    Z.of_nat (length (batch (processBatch_return p))) < m)).
    { split; [|split; [by apply processBatch_return_within | discriminate]].
      unfold processBatch_return. by destruct (Nat.ltb 0 (length (batch p))). }
    destruct c.
    + destruct (ctx_done p); [|discriminate]. by injection Hstep as <-.
    + destruct (recv (p_in p)) as [[[l|] ch]| |]; try discriminate.
      * injection Hstep as <-.
        destruct (processBatch_receive_within m (set_in p ch) l Hm Hs Hb) as [W1 W2].
        destruct (processBatch_receive_flags (set_in p ch) l) as (_ & _ & F3 & _).
        rewrite F3. split; [exact Hm|]. split; [exact W1|]. intros _. exact W2.
      * by injection Hstep as <-.
    + destruct (ticker_stopped p); [discriminate|].
      destruct (Nat.ltb_spec 0 (length (batch p))); injection Hstep as <-.
      * cbn [batchSize set_batch flushBatch saved batch length pc].
        split; [exact Hm|]. split; [|intros _; lia].
        apply (flushBatch_within m p); [exact Hs | lia].
      * split; [exact Hm|]. split; [exact Hs|]. intros _. exact Hb.
  - discriminate.
Qed.

(** X12. In every execution of the program, each call of
    [SaveTrafficLogs] carries at least one record and at most the
    configured batch size (one record when the configured size is
    zero): the repository is never called with an empty batch nor with
    an oversized one, whatever the interleaving of sessions, workers,
    ticks and shutdown. *)
Theorem every_save_is_a_bounded_batch
  (h : Z) (closes : bool) (c : Config.Config) (r : Repository)
  (s0 s : System) (ls : list label) :
  init h closes c r = Returns s0 ->
  exec s0 ls = Some s ->
  Forall (Ledger.batch_within (Z.max 1 (Config.Pipeline_BatchSize c)))
         (saved (publisher s)).
Proof.
  intros Hinit Hexec.
  set (m := Z.max 1 (Config.Pipeline_BatchSize c)).
  pose (P := fun p : Publisher =>
               Z.max 1 (batchSize p) = m /\
               Forall (Ledger.batch_within m) (saved p) /\
               (pc p = PLoop -> Z.of_nat (length (batch p)) < m)).
  assert (HP : P (publisher s)).
  { apply (exec_publisher P) with (ls := ls) (s := s0); try exact Hexec.
    - by intros p ch.
    - by intros p l.
    - by intros p.
    - intros p sc q (H1 & H2 & H3) Hstep.
      exact (processBatch_step_within m p q sc Hstep H1 H2 H3).
    - intros p l (H1 & H2 & H3) Hpc.
      destruct (processBatch_receive_within m p l H1 H2 (H3 Hpc)) as [W1 W2].
      destruct (processBatch_receive_flags p l) as (_ & _ & F3 & _).
      split; [by rewrite F3|]. split; [exact W1 | intros _; exact W2].
    - revert Hinit. unfold init, NewPublisher.
      destruct (makechan_panics h sizeof_RawTrafficEvent _); [discriminate|].
      destruct (makechan_panics h sizeof_pointer _); [discriminate|].
      destruct (wrap64 _ <=? 0); [discriminate|].
      intros [= <-]. cbn. split; [reflexivity|]. split; [constructor | discriminate]. }
  exact (proj1 (proj2 HP)).
Qed.

Lemma every_save_is_a_bounded_batch_witness :
  exists s0 s : System,
    init 112 true default_config (fun _ _ => None) = Returns s0 /\
    exec s0 (LPublisher SelTick :: LSession (test_event 7) :: LWorker 0 :: LWorker 0
             :: LPublisher SelIn :: quiet_shutdown) = Some s /\
    saved (publisher s) =
      [ {| ctx_cancelled := false; logs := [normalize (test_event 7)] |} ] /\
    Forall (Ledger.batch_within 100) (saved (publisher s)).
Proof.
  eexists. eexists.
  split; [reflexivity|]. split; [vm_compute; reflexivity|].
  split; [vm_compute; reflexivity|].
  refine (every_save_is_a_bounded_batch 112 true default_config (fun _ _ => None) _ _
            (LPublisher SelTick :: LSession (test_event 7) :: LWorker 0 :: LWorker 0
             :: LPublisher SelIn :: quiet_shutdown) eq_refl _).
  vm_compute. reflexivity.
Defined.

(** X13. Once [publisher.Stop()] has returned in [main], the repository
    is never called again: whatever the sessions and the workers do
    afterwards, the calls made are those made before. A record that
    reaches the output queue after that point is never stored. *)
Theorem nothing_is_saved_after_the_join
  (h : Z) (closes : bool) (c : Config.Config) (r : Repository)
  (s0 s s' : System) (before after : list label) :
  init h closes c r = Returns s0 ->
  exec s0 before = Some s ->
  publisher_joined_at (main s) = true ->
  exec s after = Some s' ->
  saved (publisher s') = saved (publisher s) /\ pc (publisher s') = PReturned.
Proof.
  intros Hinit Hbefore Hjoined Hafter.
  pose proof (exec_inv before s0 s (init_inv h closes c r s0 Hinit) Hbefore)
    as (_ & _ & _ & Hj & _).
  specialize (Hj Hjoined).
  pose (P := fun p : Publisher => pc p = PReturned /\ saved p = saved (publisher s)).
  assert (HP : P (publisher s')).
  { apply (exec_publisher P) with (ls := after) (s := s); try exact Hafter.
    - by intros p ch.
    - by intros p l.
    - by intros p.
    - intros p sc q [H1 _]. unfold processBatch_step. by rewrite H1.
    - intros p l [H1 _] H2. congruence.
    - by split. }
  destruct HP as [H1 H2]. by split.
Qed.

Lemma nothing_is_saved_after_the_join_witness :
  exists s0 s s' : System,
    init 112 true default_config (fun _ _ => None) = Returns s0 /\
    exec s0 ([LSession (test_event 7); LWorker 0] ++
             [LPublisher SelTick; LMain; LMain; LMain; LPublisher SelDone; LMain])
      = Some s /\
    exec s [LWorker 0; LPublisher SelIn] = None /\
    exec s [LWorker 0] = Some s' /\
    buf (normalizerOutputChan s') = [normalize (test_event 7)] /\
    saved (publisher s') = saved (publisher s).
Proof.
  eexists. eexists. eexists.
  split; [reflexivity|]. split; [vm_compute; reflexivity|].
  split; [vm_compute; reflexivity|]. split; [vm_compute; reflexivity|].
  split; [vm_compute; reflexivity|].
  refine (proj1 (nothing_is_saved_after_the_join 112 true default_config (fun _ _ => None)
                   _ _ _
                   ([LSession (test_event 7); LWorker 0] ++
                    [LPublisher SelTick; LMain; LMain; LMain; LPublisher SelDone; LMain])
                   [LWorker 0] eq_refl _ _ _)).
  - vm_compute. reflexivity.
  - vm_compute. reflexivity.
  - vm_compute. reflexivity.
Defined.

Lemma makeslice_in_range (b : Z) :
  0 <= b <= 2 ^ 45 -> makeslice_panics sizeof_pointer b = false.
Proof.
  intros Hb. unfold makeslice_panics, sizeof_pointer, maxAlloc.
  apply orb_false_iff. split; [apply Z.ltb_ge | apply Z.ltb_ge]; lia.
Qed.

Lemma send_Panics {A : Type} (c : chan A) (x : A) (msg : string) :
  send c x = Panics msg -> closed c = true /\ msg = "send on closed channel".
Proof.
  unfold send. destruct (closed c); [by intros [= <-]|].
  by destruct (chan_full c).
Qed.

Lemma Collect_Panics (c : Collector) (parked : bool) (event : RawTrafficEvent)
  (msg : string) :
  Collect c parked event = Panics msg ->
  closed (col_out c) = true /\ msg = "send on closed channel".
Proof.
  unfold Collect, selectnbsend. destruct (closed (col_out c)); [by intros [= <-]|].
  destruct parked; [discriminate|]. by destruct (chan_full (col_out c)).
Qed.

Lemma recv_never_panics {A : Type} (c : chan A) (msg : string) :
  recv c <> Panics msg.
Proof. unfold recv. destruct (buf c); [by destruct (closed c) | done]. Qed.

Lemma step_crash (s s' : System) (l : label) (msg : string) :
  shutdown_inv s -> 0 <= batchSize (publisher s) <= 2 ^ 45 ->
  step s l = Some s' -> crashed s' = Some msg ->
  msg = "send on closed channel" /\
  closed (normalizerOutputChan s') = true /\
  (exists i t, l = LWorker i /\ workers s !! i = Some (WSelect t)) \/
  msg = "send on closed channel" /\
  closed (normalizerOutputChan s') = true /\
  closed (collectorChan s') = true /\
  (exists event, l = LSession event).
Proof.
  intros (Hwg & Hout & Hin & Hj & Hcc & Hw) Hbs. unfold step.
  destruct (crashed s) eqn:Hcr; [discriminate|].
  assert (H : match l with
              | LMain => main_step s
              | LWorker i => worker_step s i
              | LPublisher c => publisher_step s c
              | LSession event => session_step s event
              | LHandoffIn event i => handoff_in_step s event i
              | LHandoffOut i => handoff_out_step s i
              end = Some s' -> crashed s' = Some msg ->
              msg = "send on closed channel" /\
              closed (normalizerOutputChan s') = true /\
              (exists i t, l = LWorker i /\ workers s !! i = Some (WSelect t)) \/
              msg = "send on closed channel" /\
              closed (normalizerOutputChan s') = true /\
              closed (collectorChan s') = true /\
              (exists event, l = LSession event)).
  { destruct l.
    - unfold main_step. destruct (main s) eqn:Hm; cbn in Hout, Hin.
      + intros [= <-]. cbn. congruence.
      + intros [= <-]. cbn. congruence.
      + intros [= <-]. cbn. congruence.
      + destruct (Publisher_wait (publisher s)); [|discriminate..].
        intros [= <-]. cbn. congruence.
      + unfold Normalizer_Close, close. cbn. rewrite Hout.
        intros [= <-]. cbn. congruence.
      + unfold close. rewrite Hin. intros [= <-]. cbn. congruence.
      + intros [= <-]. cbn. congruence.
      + discriminate.
    - unfold worker_step. destruct (workers s !! i) as [w|] eqn:Hwi; [|discriminate].
      destruct (process_step _ w) as [[n w1]| |] eqn:Hp; [|discriminate|].
      + intros [= <-]. cbn. congruence.
      + intros [= <-]. cbn. intros [= ->]. left.
        unfold process_step in Hp. cbn in Hp. destruct w as [|t|]; [| |discriminate].
        * destruct (recv (collectorChan s)) as [[[e|] ch]| |] eqn:Hr; try discriminate.
          by apply recv_never_panics in Hr.
        * destruct (send (normalizerOutputChan s) t) as [ch| |] eqn:Hsend;
            try discriminate.
          injection Hp as ->. apply send_Panics in Hsend as [Hc ->].
          split; [reflexivity|]. split; [exact Hc | eauto].
    - unfold publisher_step.
      destruct (processBatch_step _ c) as [p| |] eqn:Hp; [|discriminate|].
      + intros [= <-]. cbn. congruence.
      + exfalso. unfold processBatch_step in Hp.
        cbn [pc set_log set_in batchSize ctx_done p_in ticker_stopped batch] in Hp.
        destruct (pc (publisher s)); [| |discriminate].
        * rewrite (makeslice_in_range _ Hbs) in Hp. discriminate.
        * destruct c.
          -- by destruct (ctx_done (publisher s)).
          -- destruct (recv (normalizerOutputChan s)) as [[[e|] ch]| |] eqn:Hr;
               try discriminate.
             by apply recv_never_panics in Hr.
          -- destruct (ticker_stopped (publisher s)); [discriminate|].
             by destruct (Nat.ltb 0 (length (batch (publisher s)))).
    - unfold session_step.
      destruct (Collect _ _ _) as [[[e col] hd]| |] eqn:Hc; [|discriminate|].
      + intros [= <-]. cbn. congruence.
      + intros [= <-]. cbn. intros [= ->]. right.
        apply Collect_Panics in Hc as [Hc ->]. cbn in Hc.
        split; [reflexivity|]. rewrite Hout. rewrite Hc in Hin.
        split; [|split; [exact Hc | eauto]].
        by destruct (main s).
    - intros Hh. apply handoff_in_step_cases in Hh as (_ & _ & _ & ->). cbn. congruence.
    - unfold handoff_out_step.
      destruct (workers s !! i) as [[|t|]|]; try discriminate.
      destruct (buf (normalizerOutputChan s)); [|discriminate].
      destruct (closed (normalizerOutputChan s)); [discriminate|].
      destruct (pc (publisher s)); try discriminate.
      intros [= <-]. cbn. congruence. }
  destruct (main s); try discriminate; exact H.
Qed.

Lemma exec_after_crash (ls : list label) (s s' : System) :
  exec s ls = Some s' -> crashed s <> None -> ls = [] /\ s' = s.
Proof.
  destruct ls as [|l ls]; cbn.
  - by intros [= <-].
  - unfold step. by destruct (crashed s).
Qed.

Lemma processBatch_step_batchSize (p q : Publisher) (c : select_case) :
  processBatch_step p c = Returns q -> batchSize q = batchSize p.
Proof.
  unfold processBatch_step. destruct (pc p).
  - destruct (makeslice_panics sizeof_pointer (batchSize p)); [discriminate|]. by intros [= <-].
  - assert (Hret : batchSize (processBatch_return p) = batchSize p).
    { unfold processBatch_return. by destruct (Nat.ltb 0 (length (batch p))). }
    destruct c.
    + destruct (ctx_done p); [|discriminate]. by intros [= <-].
    + destruct (recv (p_in p)) as [[[l|] ch]| |]; try discriminate.
      * intros [= <-].
        by destruct (processBatch_receive_flags (set_in p ch) l) as (_ & _ & -> & _).
      * by intros [= <-].
    + destruct (ticker_stopped p); [discriminate|].
      by destruct (Nat.ltb 0 (length (batch p))); intros [= <-].
  - discriminate.
Qed.

Lemma step_batchSize (s s' : System) (l : label) :
  step s l = Some s' -> 0 <= batchSize (publisher s) <= 2 ^ 45 -> 0 <= batchSize (publisher s') <= 2 ^ 45.
Proof.
  apply (step_publisher (fun p => 0 <= batchSize p <= 2 ^ 45)).
  - by intros p ch.
  - by intros p lg.
  - by intros p.
  - intros p c q Hp Hs. by rewrite (processBatch_step_batchSize p q c Hs).
  - intros p lg Hp _.
    by destruct (processBatch_receive_flags p lg) as (_ & _ & -> & _).
Qed.

Lemma exec_crash (ls : list label) (s s' : System) (msg : string) :
  shutdown_inv s -> 0 <= batchSize (publisher s) <= 2 ^ 45 -> crashed s = None ->
  exec s ls = Some s' -> crashed s' = Some msg ->
  msg = "send on closed channel" /\ closed (normalizerOutputChan s') = true /\
  (closed (collectorChan s') = true \/
   exists i t, workers s' !! i = Some (WSelect t)).
Proof.
  revert s. induction ls as [|l ls IH]; intros s Hinv Hbs Hcr; cbn [exec].
  - intros [= <-]. congruence.
  - destruct (step s l) as [s1|] eqn:Hs; [|discriminate].
    intros He Hc. destruct (crashed s1) as [m1|] eqn:Hc1.
    + destruct (exec_after_crash ls s1 s' He) as [-> ->]; [congruence|].
      assert (m1 = msg) as -> by congruence.
      destruct (step_crash s s1 l msg Hinv Hbs Hs Hc1)
        as [(E1 & E2 & i & t & -> & Hi) | (E1 & E2 & E3 & _)].
      * split; [exact E1|]. split; [exact E2|]. right. exists i, t.
        revert Hs. unfold step. rewrite Hcr.
        assert (Hw : worker_step s i = Some s1 -> workers s1 !! i = Some (WSelect t)).
        { unfold worker_step. rewrite Hi.
          destruct (process_step _ _) as [[n w1]| |]; [|discriminate|].
          - intros [= <-]. cbn in Hc1. congruence.
          - by intros [= <-]. }
        destruct (main s); try discriminate; exact Hw.
      * split; [exact E1|]. split; [exact E2|]. by left.
    + apply (IH s1); try done.
      * eapply step_inv; eauto.
      * eapply step_batchSize; eauto.
Qed.

(** X14. Once [main] has built and started the pipeline, with a batch
    size between 0 and 2^45 (what [make] accepts for a slice of
    pointers), [main], the workers, the publisher and the [Collect]
    calls of the sessions panic in one way only: by a send on a channel
    that the shutdown has closed. In every execution that ends in a
    panic, the message is that of a send on a closed channel and
    [normalizer.Close()] has already been executed; the sender is a
    session whose connection is closed after [close(collectorChan)], or
    a worker still holding a record. Before the shutdown reaches
    [normalizer.Close()] nothing panics. Running out of memory is not a
    panic and is not covered. *)
Theorem only_panic_is_a_send_after_close
  (h : Z) (closes : bool) (c : Config.Config) (r : Repository)
  (s0 s : System) (ls : list label) (msg : string) :
  0 <= Config.Pipeline_BatchSize c <= 2 ^ 45 ->
  init h closes c r = Returns s0 ->
  exec s0 ls = Some s ->
  crashed s = Some msg ->
  msg = "send on closed channel" /\
  output_closed_at (main s) = true /\
  (closed (collectorChan s) = true \/
   exists i t, workers s !! i = Some (WSelect t)).
Proof.
  intros Hbs Hinit Hexec Hcr.
  pose proof (init_inv h closes c r s0 Hinit) as Hinv0.
  pose proof (exec_inv ls s0 s Hinv0 Hexec) as (_ & Hout & _).
  assert (H0 : 0 <= batchSize (publisher s0) <= 2 ^ 45 /\ crashed s0 = None).
  { revert Hinit. unfold init, NewPublisher.
    destruct (makechan_panics h sizeof_RawTrafficEvent _); [discriminate|].
    destruct (makechan_panics h sizeof_pointer _); [discriminate|].
    destruct (wrap64 _ <=? 0); [discriminate|].
    by intros [= <-]. }
  destruct H0 as [H1 H2].
  destruct (exec_crash ls s0 s msg Hinv0 H1 H2 Hexec Hcr) as (E1 & E2 & E3).
  split; [exact E1|]. split; [by rewrite <- Hout | exact E3].
Qed.

Lemma only_panic_is_a_send_after_close_witness :
  exists s0 s : System,
    init 112 true default_config (fun _ _ => None) = Returns s0 /\
    exec s0 racy_shutdown = Some s /\
    crashed s = Some "send on closed channel" /\
    output_closed_at (main s) = true.
Proof.
  eexists. eexists.
  split; [reflexivity|]. split; [vm_compute; reflexivity|].
  split; [vm_compute; reflexivity|].
  assert (Hbs : 0 <= Config.Pipeline_BatchSize default_config <= 2 ^ 45) by (cbn; lia).
  refine (proj1 (proj2 (only_panic_is_a_send_after_close 112 true default_config
                          (fun _ _ => None) _ _ racy_shutdown
                          "send on closed channel" Hbs eq_refl _ _))).
  - vm_compute. reflexivity.
  - vm_compute. reflexivity.
Defined.

Lemma held_insert (ws : list worker_pc) (i : nat) (w w' : worker_pc) :
  ws !! i = Some w ->
  Ledger.held (<[i := w']> ws) ++ Ledger.holding w ≡ₚ Ledger.holding w' ++ Ledger.held ws.
Proof.
  revert i. induction ws as [|a ws IH]; intros i; [done|].
  destruct i as [|i]; cbn.
  - intros [= ->]. unfold Ledger.held. solve_Permutation.
  - intros Hi. specialize (IH i Hi). unfold Ledger.held in *.
    rewrite <- app_assoc, IH. solve_Permutation.
Qed.

Lemma held_Normalizer_Start (n : Z) : Ledger.held (Normalizer_Start n) = [].
Proof.
  unfold Normalizer_Start. induction (Z.to_nat n) as [|k IH]; [done|]. exact IH.
Qed.

Lemma drops_Log (lg : Logger) (lv : Level) (msg : string) :
  Ledger.drops (Log lg lv msg) =
  (Ledger.drops lg + if Ledger.is_drop {| level := lv; message := msg |} then 1 else 0)%nat.
Proof. unfold Log. rewrite drops_app. cbn. lia. Qed.

Lemma main_step_ledger (s s' : System) :
  main_step s = Some s' -> crashed s' = None ->
  Accounts.fresh s ->
  Accounts.fresh s' /\
  Ledger.drops (zapLog s') = Ledger.drops (zapLog s) /\
  Accounts.ledger s' = Accounts.ledger s.
Proof.
  unfold main_step. destruct (main s).
  - intros [= <-] _ Hf. split; [exact Hf|]. split; [|reflexivity].
    cbn. rewrite drops_Log. cbn. lia.
  - by intros [= <-].
  - by intros [= <-].
  - destruct (Publisher_wait (publisher s)); [|discriminate..]. by intros [= <-].
  - unfold Normalizer_Close, close. cbn.
    destruct (closed (normalizerOutputChan s)); [intros [= <-]; discriminate|].
    by intros [= <-].
  - unfold close.
    destruct (closed (collectorChan s)); [intros [= <-]; discriminate|].
    by intros [= <-].
  - intros [= <-] _ Hf. split; [exact Hf|]. split; [|reflexivity].
    cbn. rewrite drops_Log. cbn. lia.
  - discriminate.
Qed.

Lemma worker_step_ledger (s s' : System) (i : nat) :
  worker_step s i = Some s' -> crashed s = None -> crashed s' = None ->
  Accounts.fresh s ->
  Accounts.fresh s' /\
  exists d, Ledger.drops (zapLog s') = (Ledger.drops (zapLog s) + length d)%nat /\
            Accounts.ledger s' ++ d ≡ₚ Accounts.ledger s.
Proof.
  unfold worker_step. destruct (workers s !! i) as [w|] eqn:Hwi; [|discriminate].
  destruct (process_step _ w) as [[n w1]| |] eqn:Hp; [|discriminate|].
  2: { intros [= <-] Hc. cbn. congruence. }
  intros [= <-] _ _ Hf. split; [exact Hf|].
  unfold process_step in Hp. cbn [NewNormalizer n_in n_out n_log] in Hp.
  unfold Accounts.ledger, Ledger.in_flight.
  cbn [publisher collectorChan normalizerOutputChan workers zapLog
       set_workers set_zapLog set_normalizerOutputChan set_collectorChan].
  destruct w as [|t|]; [| |discriminate].
  - destruct (recv (collectorChan s)) as [[[e|] ch]| |] eqn:Hr; try discriminate.
    + injection Hp as <- <-. cbn [n_in n_out n_log].
      apply recv_buf in Hr as [Hr _]. rewrite Hr. cbn [map].
      exists []. split; [cbn; lia|]. rewrite app_nil_r.
      pose proof (held_insert (workers s) i WRange (WSelect (normalize e)) Hwi) as Hh.
      cbn [Ledger.holding] in Hh. rewrite app_nil_r in Hh. rewrite Hh.
      solve_Permutation.
    + injection Hp as <- <-. cbn [n_in n_out n_log NewNormalizer].
      exists []. split; [cbn; lia|]. rewrite app_nil_r.
      pose proof (held_insert (workers s) i WRange WReturned Hwi) as Hh.
      cbn [Ledger.holding] in Hh. rewrite app_nil_r in Hh. cbn [app] in Hh.
      by rewrite Hh.
  - pose proof (held_insert (workers s) i (WSelect t) WRange Hwi) as Hh.
    cbn [Ledger.holding app] in Hh.
    unfold send in Hp. destruct (closed (normalizerOutputChan s)); [discriminate|].
    destruct (chan_full (normalizerOutputChan s)); injection Hp as <- <-;
      cbn [n_in n_out n_log buf].
    + exists [t]. split; [rewrite drops_Log; cbn; lia|].
      rewrite <- Hh. solve_Permutation.
    + exists []. split; [cbn; lia|]. rewrite app_nil_r, <- Hh. solve_Permutation.
Qed.

Lemma publisher_step_ledger (s s' : System) (c : select_case) :
  publisher_step s c = Some s' -> crashed s = None -> crashed s' = None ->
  Accounts.fresh s ->
  Accounts.fresh s' /\
  Ledger.drops (zapLog s') = Ledger.drops (zapLog s) /\
  Accounts.ledger s' ≡ₚ Accounts.ledger s.
Proof.
  unfold publisher_step.
  destruct (processBatch_step _ c) as [p| |] eqn:Hp; [|discriminate|].
  2: { intros [= <-] Hc. cbn. congruence. }
  intros [= <-] _ _ Hf.
  apply processBatch_step_ledger in Hp as (E & D & F); [|exact Hf].
  split; [exact F|]. split; [exact D|].
  unfold Accounts.ledger, Ledger.in_flight.
  cbn [publisher collectorChan normalizerOutputChan workers zapLog
       set_publisher set_zapLog set_normalizerOutputChan].
  transitivity ((Runs.stored p ++ Runs.pending p ++ buf (p_in p)) ++
                map normalize (buf (collectorChan s)) ++ Ledger.held (workers s));
    [solve_Permutation|].
  rewrite E. change (Runs.stored (set_log (set_in ?x ?ch) ?lg)) with (Runs.stored x).
  change (Runs.pending (set_log (set_in ?x ?ch) ?lg)) with (Runs.pending x).
  cbn [p_in set_log set_in]. solve_Permutation.
Qed.

Lemma session_step_ledger (s s' : System) (event : RawTrafficEvent) :
  session_step s event = Some s' -> crashed s = None -> crashed s' = None ->
  Accounts.fresh s ->
  Accounts.fresh s' /\
  exists d, Ledger.drops (zapLog s') = (Ledger.drops (zapLog s) + length d)%nat /\
            Accounts.ledger s' ++ d ≡ₚ normalize event :: Accounts.ledger s.
Proof.
  unfold session_step, Collect, selectnbsend. cbn [NewCollector col_out col_log].
  destruct (closed (collectorChan s)).
  { intros [= <-] Hc. cbn. congruence. }
  intros Hs _ _ Hf.
  unfold Accounts.ledger, Ledger.in_flight.
  destruct (chan_full (collectorChan s)); injection Hs as <-;
    (split; [exact Hf|]);
    cbn [publisher collectorChan normalizerOutputChan workers zapLog
         set_zapLog set_collectorChan col_out col_log buf].
  - exists [normalize event]. split; [rewrite drops_Log; cbn; lia|]. solve_Permutation.
  - exists []. split; [cbn; lia|]. rewrite map_app. cbn [map]. solve_Permutation.
Qed.

Lemma handoff_in_step_ledger (s s' : System) (event : RawTrafficEvent) (i : nat) :
  handoff_in_step s event i = Some s' ->
  Accounts.fresh s ->
  Accounts.fresh s' /\
  Ledger.drops (zapLog s') = Ledger.drops (zapLog s) /\
  Accounts.ledger s' ≡ₚ normalize event :: Accounts.ledger s.
Proof.
  intros Hh Hf. apply handoff_in_step_cases in Hh as (Hwi & Hb & _ & ->).
  split; [exact Hf|]. split; [reflexivity|].
  unfold Accounts.ledger, Ledger.in_flight.
  cbn [publisher collectorChan normalizerOutputChan workers zapLog set_workers
       set_zapLog set_collectorChan].
  pose proof (held_insert (workers s) i WRange (WSelect (normalize event)) Hwi) as Hh.
  cbn [Ledger.holding] in Hh. rewrite app_nil_r in Hh. rewrite Hh, Hb.
  solve_Permutation.
Qed.

Lemma handoff_out_step_ledger (s s' : System) (i : nat) :
  handoff_out_step s i = Some s' ->
  Accounts.fresh s ->
  Accounts.fresh s' /\
  Ledger.drops (zapLog s') = Ledger.drops (zapLog s) /\
  Accounts.ledger s' ≡ₚ Accounts.ledger s.
Proof.
  unfold handoff_out_step.
  destruct (workers s !! i) as [[|t|]|] eqn:Hwi; try discriminate.
  destruct (buf (normalizerOutputChan s)) eqn:Hb; [|discriminate].
  destruct (closed (normalizerOutputChan s)); [discriminate|].
  destruct (pc (publisher s)) eqn:Hpc; try discriminate.
  intros [= <-] Hf.
  set (p0 := set_log (set_in (publisher s) (normalizerOutputChan s)) (zapLog s)).
  destruct (processBatch_receive_ledger p0 t Hpc) as (E1 & E2 & E3 & E4).
  split; [unfold Accounts.fresh; cbn [publisher set_workers set_publisher];
          rewrite E2; discriminate|].
  split; [exact E4|].
  unfold Accounts.ledger, Ledger.in_flight.
  cbn [publisher collectorChan normalizerOutputChan workers zapLog
       set_workers set_publisher set_zapLog].
  pose proof (held_insert (workers s) i (WSelect t) WRange Hwi) as Hh.
  cbn [Ledger.holding app] in Hh.
  transitivity ((Runs.stored (processBatch_receive p0 t) ++
                 Runs.pending (processBatch_receive p0 t)) ++
                map normalize (buf (collectorChan s)) ++
                Ledger.held (<[i := WRange]> (workers s)) ++
                buf (normalizerOutputChan s)); [solve_Permutation|].
  rewrite E1, <- Hh.
  change (Runs.stored p0) with (Runs.stored (publisher s)).
  change (Runs.pending p0) with (Runs.pending (publisher s)).
  solve_Permutation.
Qed.

Lemma step_ledger (s s' : System) (l : label) :
  step s l = Some s' -> crashed s' = None ->
  Accounts.fresh s ->
  Accounts.fresh s' /\
  exists d, Ledger.drops (zapLog s') = (Ledger.drops (zapLog s) + length d)%nat /\
            Accounts.ledger s' ++ d ≡ₚ map normalize (Ledger.handed l) ++ Accounts.ledger s.
Proof.
  unfold step. destruct (crashed s) eqn:Hcr; [discriminate|].
  assert (H : match l with
              | LMain => main_step s
              | LWorker i => worker_step s i
              | LPublisher c => publisher_step s c
              | LSession event => session_step s event
              | LHandoffIn event i => handoff_in_step s event i
              | LHandoffOut i => handoff_out_step s i
              end = Some s' -> crashed s' = None ->
              Accounts.fresh s ->
              Accounts.fresh s' /\
              exists d, Ledger.drops (zapLog s') = (Ledger.drops (zapLog s) + length d)%nat /\
                        Accounts.ledger s' ++ d
                        ≡ₚ map normalize (Ledger.handed l) ++ Accounts.ledger s).
  { destruct l; cbn [Ledger.handed map app].
    - intros Hs Hc Hf. destruct (main_step_ledger s s' Hs Hc Hf) as (F & D & E).
      split; [exact F|]. exists []. rewrite app_nil_r, E, D. split; [cbn; lia | done].
    - intros Hs Hc Hf. exact (worker_step_ledger s s' i Hs Hcr Hc Hf).
    - intros Hs Hc Hf. destruct (publisher_step_ledger s s' c Hs Hcr Hc Hf) as (F & D & E).
      split; [exact F|]. exists []. rewrite app_nil_r, D. split; [cbn; lia | exact E].
    - intros Hs Hc Hf. exact (session_step_ledger s s' event Hs Hcr Hc Hf).
    - intros Hs Hc Hf. destruct (handoff_in_step_ledger s s' event i Hs Hf) as (F & D & E).
      split; [exact F|]. exists []. rewrite app_nil_r, D. split; [cbn; lia | exact E].
    - intros Hs Hc Hf. destruct (handoff_out_step_ledger s s' i Hs Hf) as (F & D & E).
      split; [exact F|]. exists []. rewrite app_nil_r, D. split; [cbn; lia | exact E]. }
  destruct (main s); try discriminate; exact H.
Qed.

Lemma exec_ledger (ls : list label) (s s' : System) :
  exec s ls = Some s' -> crashed s' = None ->
  Accounts.fresh s ->
  exists d, Ledger.drops (zapLog s') = (Ledger.drops (zapLog s) + length d)%nat /\
            Accounts.ledger s' ++ d
            ≡ₚ map normalize (Ledger.offered ls) ++ Accounts.ledger s.
Proof.
  revert s. induction ls as [|l ls IH]; intros s; cbn [exec].
  - intros [= <-] _ _. exists []. cbn. rewrite app_nil_r. split; [lia | done].
  - destruct (step s l) as [s1|] eqn:Hs; [|discriminate].
    intros He Hc Hf.
    assert (Hc1 : crashed s1 = None).
    { destruct (crashed s1) eqn:E; [|done].
      destruct (exec_after_crash ls s1 s' He) as [_ ->]; congruence. }
    destruct (step_ledger s s1 l Hs Hc1 Hf) as (Hf1 & d1 & D1 & E1).
    destruct (IH s1 He Hc Hf1) as (d2 & D2 & E2).
    exists (d2 ++ d1). split; [rewrite length_app; lia|].
    unfold Ledger.offered. cbn [flat_map]. rewrite map_app.
    fold (Ledger.offered ls).
    rewrite app_assoc, E2, <- app_assoc, E1. solve_Permutation.
Qed.

(** X15. Every event a session hands over is accounted for exactly once.
    In every execution that has not panicked, the records made from the
    events handed over are, as a multiset, the records handed to the
    repository, those still on their way (queued events, records held
    by workers, queued records, the batch in hand) and the dropped ones;
    and each dropped one has its warning in the log. No record is
    duplicated, and none is made up. *)
Theorem every_event_is_accounted_for
  (h : Z) (closes : bool) (c : Config.Config) (r : Repository)
  (s0 s : System) (ls : list label) :
  init h closes c r = Returns s0 ->
  exec s0 ls = Some s ->
  crashed s = None ->
  exists dropped : list Models.TrafficLog,
    length dropped = Ledger.drops (zapLog s) /\
    map normalize (Ledger.offered ls)
    ≡ₚ Runs.stored (publisher s) ++ Ledger.in_flight s ++ dropped.
Proof.
  intros Hinit Hexec Hcr.
  assert (H0 : Accounts.fresh s0 /\ zapLog s0 = [] /\ Accounts.ledger s0 = []).
  { revert Hinit. unfold init, NewPublisher.
    destruct (makechan_panics h sizeof_RawTrafficEvent _); [discriminate|].
    destruct (makechan_panics h sizeof_pointer _); [discriminate|].
    destruct (wrap64 _ <=? 0); [discriminate|].
    intros [= <-]. split; [done|]. split; [done|].
    unfold Accounts.ledger, Ledger.in_flight. cbn.
    by rewrite held_Normalizer_Start. }
  destruct H0 as (Hf & Hl & Hz).
  destruct (exec_ledger ls s0 s Hexec Hcr Hf) as (d & D & E).
  exists d. rewrite Hl in D. cbn in D. split; [lia|].
  rewrite Hz, app_nil_r in E. rewrite <- E. unfold Accounts.ledger.
  by rewrite <- app_assoc.
Qed.

Lemma every_event_is_accounted_for_witness :
  exists s0 s : System,
    init 112 true unbuffered_config (fun _ _ => None) = Returns s0 /\
    exec s0 [LPublisher SelTick; LHandoffIn (test_event 7) 0; LSession (test_event 8);
             LHandoffOut 0; LPublisher SelTick] = Some s /\
    Runs.stored (publisher s) = [normalize (test_event 7)] /\
    exists dropped : list Models.TrafficLog,
      length dropped = 1%nat /\
      [normalize (test_event 7); normalize (test_event 8)]
      ≡ₚ Runs.stored (publisher s) ++ Ledger.in_flight s ++ dropped.
Proof.
  eexists. eexists.
  split; [reflexivity|]. split; [vm_compute; reflexivity|].
  split; [vm_compute; reflexivity|].
  lazymatch goal with
  | |- exists d, _ /\ _ ≡ₚ Runs.stored (publisher ?s) ++ _ =>
      destruct (every_event_is_accounted_for 112 true unbuffered_config (fun _ _ => None) _ s
                  [LPublisher SelTick; LHandoffIn (test_event 7) 0;
                   LSession (test_event 8); LHandoffOut 0; LPublisher SelTick]
                  eq_refl eq_refl eq_refl)
        as (dropped & H1 & H2)
  end.
  exists dropped. split; [exact H1 | exact H2].
Defined.

(* ===================================================================== *)
(** * Further properties of internal/proxy: what a session records *)
(* ===================================================================== *)

Lemma wrap64_add_l (a b : Z) : wrap64 (wrap64 a + b) = wrap64 (a + b).
Proof.
  unfold wrap64. f_equal.
  replace ((a + 2 ^ 63) mod 2 ^ 64 - 2 ^ 63 + b + 2 ^ 63)
    with ((a + 2 ^ 63) mod 2 ^ 64 + b) by ring.
  rewrite Zplus_mod_idemp_l. f_equal. ring.
Qed.

Lemma fold_do_io_fields (relay : list io_event) (tc : trackedConn) (a b : Z) :
  bytesIn tc = wrap64 a -> bytesOut tc = wrap64 b ->
  tc_Conn (fold_left do_io relay tc) = tc_Conn tc /\
  destAddr (fold_left do_io relay tc) = destAddr tc /\
  timestamp (fold_left do_io relay tc) = timestamp tc /\
  latency (fold_left do_io relay tc) = latency tc /\
  bytesIn (fold_left do_io relay tc) = wrap64 (a + Runs.total Runs.read_bytes relay) /\
  bytesOut (fold_left do_io relay tc) = wrap64 (b + Runs.total Runs.written_bytes relay).
Proof.
  revert tc a b. induction relay as [|e relay IH]; intros tc a b Ha Hb.
  - cbn. rewrite !Z.add_0_r. done.
  - cbn [fold_left Runs.total fold_right].
    fold (Runs.total Runs.read_bytes relay). fold (Runs.total Runs.written_bytes relay).
    destruct e as [n|n]; cbn [do_io Runs.read_bytes Runs.written_bytes].
    + destruct (IH (tc_Read tc n) (a + n) b) as (H1 & H2 & H3 & H4 & H5 & H6).
      * cbn. by rewrite Ha, wrap64_add_l.
      * exact Hb.
      * rewrite H1, H2, H3, H4, H5, H6.
        split; [done|]. split; [done|]. split; [done|]. split; [done|].
        split; f_equal; lia.
    + destruct (IH (tc_Write tc n) a (b + n)) as (H1 & H2 & H3 & H4 & H5 & H6).
      * exact Ha.
      * cbn. by rewrite Hb, wrap64_add_l.
      * rewrite H1, H2, H3, H4, H5, H6.
        split; [done|]. split; [done|]. split; [done|]. split; [done|].
        split; f_equal; lia.
Qed.

Lemma close_event_session (net : NetLib) (addr : string) (d : Dial) (conn : Conn)
  (io : list io_event) :
  close_event net
    (fold_left do_io io
       {| tc_Conn := conn; destAddr := addr; timestamp := dial_start d;
          latency := Duration_Milliseconds (dial_elapsed d);
          bytesIn := 0; bytesOut := 0 |})
  = session_event net addr d conn io.
Proof.
  set (tc0 := {| tc_Conn := conn; destAddr := addr; timestamp := dial_start d;
                 latency := Duration_Milliseconds (dial_elapsed d);
                 bytesIn := 0; bytesOut := 0 |}).
  destruct (fold_do_io_fields io tc0 0 0 eq_refl eq_refl)
    as (H1 & H2 & H3 & H4 & H5 & H6).
  unfold close_event, session_event. rewrite H1, H2, H3, H4, H5, H6.
  cbn [tc0 tc_Conn destAddr timestamp latency]. rewrite !Z.add_0_l.
  by destruct (parseAddress net addr).
Qed.

(** X16. What a relayed session records. When the library has called
    the dialer for a session, the dial has succeeded and the connection
    is closed, the collector afterwards is what one call of [Collect]
    makes of the collector before, with this event: as source IP the IP
    of the remote end of the connection the proxy dialed (empty when
    that end is not a TCP address), as destination the host and the port
    parsed from the address that the library passed to the dialer, an
    empty domain, the clock reading taken before the dial, the duration
    of the dial in milliseconds, the sums of the bytes read from and
    written to the destination (as 64-bit integers), and the protocol
    tcp. On a queue with room on which no receiver is parked, that event
    is then the last of the queue. The client appears nowhere in it: the
    outcome is the same for every client. *)
Theorem relayed_session_records
  (net : NetLib) (s : Server) (x : Session) (r : Served)
  (addr : string) (d : Dial) (conn : Conn) :
  serve net s x = Returns r ->
  dialed x = Some (addr, d) -> dial_conn d = Some conn -> closes_conn x = true ->
  Collect (collector s) (receiver_parked x) (session_event net addr d conn (relay x))
    = Returns (None, collector (server r), handed r) /\
  (receiver_parked x = false -> chan_full (col_out (collector s)) = false ->
   buf (col_out (collector (server r)))
   = buf (col_out (collector s)) ++ [session_event net addr d conn (relay x)]) /\
  (forall (ip user pass : string) (t : Time),
      serve net s (Runs.set_client x ip user pass t) = Returns r).
Proof.
  intros Hserve Hx Hd Hcl.
  assert (Hc : Collect (collector s) (receiver_parked x)
                 (session_event net addr d conn (relay x))
               = Returns (None, collector (server r), handed r)).
  { destruct (serve_cases net s x r Hserve)
      as [(addr' & d' & conn' & Hx' & Hd' & _ & Hc) | (Hno & _)].
    - rewrite Hx in Hx'. injection Hx' as <- <-.
      rewrite Hd in Hd'. injection Hd' as <-.
      rewrite Hcl in Hc. by rewrite close_event_session in Hc.
    - destruct Hno as [Hno|(addr' & d' & Hx' & Hd')]; congruence. }
  split; [exact Hc|]. split; [|intros ip user pass t; exact Hserve].
  intros Hp Hroom. rewrite Hp in Hc.
  destruct (Collect_nil_error _ _ _ _ _ _ Hc) as (_ & Hopen & _).
  rewrite (Collect_cases _ _ _ Hopen), Hroom in Hc.
  by injection Hc as <- _.
Qed.

Lemma relayed_session_records_witness :
  exists r,
    serve example_net strict_server intruder = Returns r /\
    buf (col_out (collector (server r))) =
    [ {| SourceIP := "93.184.216.34"; DestinationIP := "93.184.216.34";
         Domain := ""; Port := 443; Timestamp := 1700000000; LatencyMs := 25;
         BytesIn := 1024; BytesOut := 512; Protocol := "tcp" |} ].
Proof.
  eexists.
  lazymatch goal with
  | |- ?A /\ _ => assert (HA : A) by (vm_compute; reflexivity)
  end.
  split; [exact HA|].
  exact (proj1 (proj2 (relayed_session_records example_net strict_server intruder _
                         _ _ _ HA eq_refl eq_refl eq_refl))
               eq_refl eq_refl).
Defined.

(* ===================================================================== *)
(** * Properties of internal/pipeline: WorkerPool *)
(* ===================================================================== *)

Lemma tasks_of_app (a b : list (option Pool.Task)) :
  Pool.tasks_of (a ++ b) = Pool.tasks_of a ++ Pool.tasks_of b.
Proof. unfold Pool.tasks_of. apply omap_app. Qed.

Lemma pool_worker_queue (run : Pool.Task -> error) (wp wp' : Pool.WorkerPool)
  (i : nat) (c : Pool.choice) :
  Pool.worker run wp i c = Returns wp' ->
  Pool.accepted wp' = Pool.accepted wp /\
  Pool.executed wp' ++ Pool.tasks_of (buf (Pool.taskChan wp'))
    = Pool.executed wp ++ Pool.tasks_of (buf (Pool.taskChan wp)) /\
  closed (Pool.taskChan wp') = closed (Pool.taskChan wp) /\
  Pool.ctx_done wp' = Pool.ctx_done wp.
Proof.
  unfold Pool.worker. destruct (Pool.workers wp !! i) as [[|]|]; try discriminate.
  destruct c.
  - destruct (Pool.ctx_done wp) eqn:Hd; [|discriminate]. by intros [= <-].
  - destruct (recv (Pool.taskChan wp)) as [[[[task|]|] ch]| |] eqn:Hr; try discriminate.
    + intros [= <-]. cbn. pose proof (recv_closed _ _ _ Hr) as Hc.
      apply recv_buf in Hr as [-> _]. cbn. by rewrite <- app_assoc.
    + intros [= <-]. cbn. pose proof (recv_closed _ _ _ Hr) as Hc.
      apply recv_buf in Hr as [-> _]. done.
    + by intros [= <-].
Qed.

Lemma pool_step_queue (run : Pool.Task -> error) (wp wp' : Pool.WorkerPool)
  (l : Pool.label) :
  Pool.step run wp l = Some wp' ->
  Pool.executed wp ++ Pool.tasks_of (buf (Pool.taskChan wp)) = Pool.tasks_of (Pool.accepted wp) ->
  Pool.executed wp' ++ Pool.tasks_of (buf (Pool.taskChan wp')) = Pool.tasks_of (Pool.accepted wp').
Proof.
  destruct l as [task c|i c|]; cbn [Pool.step].
  - unfold Pool.Submit. destruct c.
    + destruct (Pool.ctx_done wp); [|discriminate]. by intros [= <-].
    + unfold send. destruct (closed (Pool.taskChan wp)); [discriminate|].
      destruct (chan_full (Pool.taskChan wp)); [discriminate|].
      intros [= <-] H. cbn. by rewrite !tasks_of_app, app_assoc, H.
  - destruct (Pool.worker run wp i c) as [wp1| |] eqn:Hw; try discriminate.
    intros [= <-] H. apply pool_worker_queue in Hw as (E1 & E2 & _).
    by rewrite E1, E2.
  - unfold Pool.Stop_close, close.
    destruct (closed (Pool.taskChan wp)); [discriminate|]. by intros [= <-].
Qed.

(** X17. The worker pool runs tasks in the order [Submit] accepted them
    and each one at most once: in every execution of a started pool,
    the tasks taken by the workers so far, followed by the tasks still
    queued, are the tasks accepted, in order (nil tasks aside, which are
    never run). *)
Theorem pool_runs_tasks_in_order
  (run : Pool.Task -> error) (h n : Z) (l : Logger)
  (wp0 wp : Pool.WorkerPool) (ls : list Pool.label) :
  Pool.NewWorkerPool h n l = Returns wp0 ->
  Pool.exec run (Pool.Start wp0) ls = Some wp ->
  Pool.executed wp ++ Pool.tasks_of (buf (Pool.taskChan wp))
    = Pool.tasks_of (Pool.accepted wp).
Proof.
  intros Hnew Hexec.
  assert (H0 : Pool.executed (Pool.Start wp0) ++
               Pool.tasks_of (buf (Pool.taskChan (Pool.Start wp0)))
               = Pool.tasks_of (Pool.accepted (Pool.Start wp0))).
  { revert Hnew. unfold Pool.NewWorkerPool.
    destruct (makechan_panics h sizeof_pointer (wrap64 (n * 2))); [discriminate|]. by intros [= <-]. }
  revert Hexec H0. generalize (Pool.Start wp0). clear Hnew wp0.
  induction ls as [|lb ls IH]; intros w; cbn [Pool.exec].
  - by intros [= <-].
  - destruct (Pool.step run w lb) as [w1|] eqn:Hs; [|discriminate].
    intros He H. apply (IH w1 He). eapply pool_step_queue; eauto.
Qed.

Lemma pool_runs_tasks_in_order_witness :
  exists wp0 wp,
    Pool.NewWorkerPool 112 2 [] = Returns wp0 /\
    Pool.exec (fun _ => None) (Pool.Start wp0)
      [Pool.LSubmit (Some 7%nat) Pool.PickChan; Pool.LSubmit (Some 8%nat) Pool.PickChan;
       Pool.LWorker 1 Pool.PickChan; Pool.LSubmit (Some 9%nat) Pool.PickChan;
       Pool.LWorker 0 Pool.PickChan] = Some wp /\
    Pool.executed wp = [7%nat; 8%nat] /\
    Pool.executed wp ++ Pool.tasks_of (buf (Pool.taskChan wp))
      = Pool.tasks_of (Pool.accepted wp).
Proof.
  eexists. eexists. split; [reflexivity|]. split; [vm_compute; reflexivity|].
  split; [vm_compute; reflexivity|].
  refine (pool_runs_tasks_in_order (fun _ => None) 112 2 [] _ _
            [Pool.LSubmit (Some 7%nat) Pool.PickChan; Pool.LSubmit (Some 8%nat) Pool.PickChan;
             Pool.LWorker 1 Pool.PickChan; Pool.LSubmit (Some 9%nat) Pool.PickChan;
             Pool.LWorker 0 Pool.PickChan] eq_refl _).
  vm_compute. reflexivity.
Defined.

Lemma pool_step_stopped (run : Pool.Task -> error) (wp wp' : Pool.WorkerPool)
  (l : Pool.label) :
  Pool.step run wp l = Some wp' ->
  closed (Pool.taskChan wp) = true -> Pool.ctx_done wp = true ->
  closed (Pool.taskChan wp') = true /\ Pool.ctx_done wp' = true /\
  Pool.accepted wp' = Pool.accepted wp.
Proof.
  destruct l as [task c|i c|]; cbn [Pool.step].
  - unfold Pool.Submit. destruct c.
    + intros H Hc Hd. rewrite Hd in H. by injection H as <-.
    + unfold send. intros H Hc. rewrite Hc in H. discriminate.
  - destruct (Pool.worker run wp i c) as [wp1| |] eqn:Hw; try discriminate.
    intros [= <-] Hc Hd. apply pool_worker_queue in Hw as (E1 & _ & E3 & E4).
    by rewrite E1, E3, E4.
  - unfold Pool.Stop_close, close. intros H Hc. rewrite Hc in H. discriminate.
Qed.

(** X18. Once [Stop] has cancelled the context and closed the task
    queue, no task is accepted any more, whatever the workers do
    afterwards: a [Submit] whose [select] picks the cancellation returns
    the error of the context, one whose [select] picks the send panics
    on the closed queue, and a second [Stop] panics. *)
Theorem pool_accepts_nothing_after_Stop
  (run : Pool.Task -> error) (wp wp1 wp2 : Pool.WorkerPool) (ls : list Pool.label) :
  Pool.Stop_close wp = Returns wp1 ->
  Pool.exec run wp1 ls = Some wp2 ->
  Pool.accepted wp2 = Pool.accepted wp /\
  (forall task,
     Pool.Submit wp2 task Pool.PickDone = Returns (Some "context canceled", wp2) /\
     Pool.Submit wp2 task Pool.PickChan = Panics "send on closed channel") /\
  Pool.Stop_close wp2 = Panics "close of closed channel".
Proof.
  intros Hstop Hexec.
  assert (H1 : closed (Pool.taskChan wp1) = true /\ Pool.ctx_done wp1 = true /\
               Pool.accepted wp1 = Pool.accepted wp).
  { revert Hstop. unfold Pool.Stop_close, close.
    destruct (closed (Pool.taskChan wp)); [discriminate|]. by intros [= <-]. }
  assert (H2 : closed (Pool.taskChan wp2) = true /\ Pool.ctx_done wp2 = true /\
               Pool.accepted wp2 = Pool.accepted wp).
  { clear Hstop. revert wp1 Hexec H1.
    induction ls as [|lb ls IH]; intros w; cbn [Pool.exec].
    - by intros [= <-].
    - destruct (Pool.step run w lb) as [w1|] eqn:Hs; [|discriminate].
      intros He (A & B & C). apply (IH w1 He).
      destruct (pool_step_stopped run w w1 lb Hs A B) as (A1 & B1 & C1).
      split; [exact A1|]. split; [exact B1 | congruence]. }
  destruct H2 as (A & B & C). split; [exact C|]. split.
  - intros task. unfold Pool.Submit, send. by rewrite A, B.
  - unfold Pool.Stop_close, close. by rewrite A.
Qed.

Lemma pool_accepts_nothing_after_Stop_witness :
  exists wp1 wp2,
    Pool.Stop_close (Pool.Start
       {| Pool.taskChan := make_chan 4; Pool.numWorkers := 2; Pool.wg := 0;
          Pool.ctx_done := false; Pool.log := []; Pool.workers := [];
          Pool.executed := []; Pool.accepted := [] |}) = Returns wp1 /\
    Pool.exec (fun _ => None) wp1 [Pool.LWorker 0 Pool.PickChan] = Some wp2 /\
    Pool.Submit wp2 (Some 7%nat) Pool.PickChan = Panics "send on closed channel".
Proof.
  eexists. eexists.
  lazymatch goal with
  | |- ?A /\ ?B /\ _ =>
      assert (HA : A) by (vm_compute; reflexivity);
      assert (HB : B) by (vm_compute; reflexivity)
  end.
  split; [exact HA|]. split; [exact HB|].
  exact (proj2 (proj1 (proj2 (pool_accepts_nothing_after_Stop (fun _ => None)
                                _ _ _ _ HA HB))
                      (Some 7%nat))).
Defined.

Lemma pool_all_pick_done (run : Pool.Task -> error) (k : nat) :
  forall (pre : list Pool.worker_pc) (wp : Pool.WorkerPool),
    Pool.workers wp = pre ++ repeat Pool.WSelect k ->
    Pool.ctx_done wp = true ->
    exists wp',
      Pool.exec run wp
        (map (fun i => Pool.LWorker i Pool.PickDone) (seq (length pre) k)) = Some wp' /\
      Pool.workers wp' = pre ++ repeat Pool.WReturned k /\
      Pool.wg wp' = Pool.wg wp - Z.of_nat k /\
      Pool.executed wp' = Pool.executed wp /\
      Pool.taskChan wp' = Pool.taskChan wp /\
      Pool.accepted wp' = Pool.accepted wp.
Proof.
  induction k as [|k IH]; intros pre wp Hw Hd.
  - exists wp. cbn. rewrite Z.sub_0_r. by rewrite Hw.
  - cbn [seq map Pool.exec Pool.step]. unfold Pool.worker.
    rewrite Hw. cbn [repeat]. rewrite list_lookup_middle by reflexivity.
    rewrite Hd.
    destruct (IH (pre ++ [Pool.WReturned]) (Pool.worker_return wp (length pre)))
      as (wp' & He & W1 & W2 & W3 & W4 & W5).
    + unfold Pool.worker_return. cbn [Pool.workers]. rewrite Hw. cbn [repeat].
      pose proof (insert_app_r pre (Pool.WSelect :: repeat Pool.WSelect k) 0
                    Pool.WReturned) as Hins.
      rewrite Nat.add_0_r in Hins. rewrite Hins. cbn. by rewrite <- app_assoc.
    + exact Hd.
    + exists wp'. rewrite length_app in He. cbn [length] in He.
      rewrite Nat.add_1_r in He. split; [exact He|].
      rewrite W1, W2, W3, W4, W5. cbn [repeat Pool.worker_return Pool.wg Pool.executed
        Pool.taskChan Pool.accepted]. rewrite <- app_assoc.
      split; [reflexivity|]. split; [lia | done].
Qed.

(** X19. [Stop] does not wait for the queued tasks. When every worker of
    a stopped pool sees the cancellation first, all the workers return
    and the wait of [Stop] is released, while the tasks that were queued
    are still in the queue and are never run. *)
Theorem pool_Stop_may_abandon_queued_tasks
  (run : Pool.Task -> error) (wp wp1 : Pool.WorkerPool) (k : nat) :
  Pool.workers wp = repeat Pool.WSelect k ->
  Pool.wg wp = Z.of_nat k ->
  Pool.Stop_close wp = Returns wp1 ->
  exists wp2,
    Pool.exec run wp1 (Pool.all_pick_done k) = Some wp2 /\
    Pool.Stop_wait wp2 = Returns wp2 /\
    Pool.workers wp2 = repeat Pool.WReturned k /\
    Pool.executed wp2 = Pool.executed wp /\
    buf (Pool.taskChan wp2) = buf (Pool.taskChan wp).
Proof.
  intros Hw Hwg Hstop.
  assert (H1 : Pool.workers wp1 = repeat Pool.WSelect k /\ Pool.wg wp1 = Z.of_nat k /\
               Pool.ctx_done wp1 = true /\ Pool.executed wp1 = Pool.executed wp /\
               buf (Pool.taskChan wp1) = buf (Pool.taskChan wp)).
  { revert Hstop. unfold Pool.Stop_close, close.
    destruct (closed (Pool.taskChan wp)); [discriminate|]. by intros [= <-]. }
  destruct H1 as (A & B & C & D & E).
  destruct (pool_all_pick_done run k [] wp1 A C) as (wp2 & He & W1 & W2 & W3 & W4 & _).
  exists wp2. split; [exact He|].
  split; [unfold Pool.Stop_wait; rewrite W2, B, Z.sub_diag; reflexivity|].
  split; [exact W1|]. split; [congruence|]. by rewrite W4.
Qed.

Lemma pool_Stop_may_abandon_queued_tasks_witness :
  exists wp wp1 wp2,
    Pool.exec (fun _ => None) (Pool.Start
       {| Pool.taskChan := make_chan 4; Pool.numWorkers := 2; Pool.wg := 0;
          Pool.ctx_done := false; Pool.log := []; Pool.workers := [];
          Pool.executed := []; Pool.accepted := [] |})
      [Pool.LSubmit (Some 7%nat) Pool.PickChan] = Some wp /\
    Pool.Stop_close wp = Returns wp1 /\
    Pool.exec (fun _ => None) wp1 (Pool.all_pick_done 2) = Some wp2 /\
    Pool.Stop_wait wp2 = Returns wp2 /\
    Pool.executed wp2 = [] /\
    buf (Pool.taskChan wp2) = [Some 7%nat].
Proof.
  eexists. eexists.
  lazymatch goal with
  | |- exists wp2, ?A /\ ?B /\ _ =>
      assert (HA : A) by (vm_compute; reflexivity);
      assert (HB : B) by (vm_compute; reflexivity)
  end.
  pose proof (fun Hw Hg =>
                pool_Stop_may_abandon_queued_tasks (fun _ => None) _ _ 2 Hw Hg HB) as H.
  destruct (H eq_refl eq_refl) as (wp2 & H1 & H2 & _ & H4 & H5).
  exists wp2. split; [exact HA|]. split; [exact HB|]. split; [exact H1|].
  split; [exact H2|]. split; [exact H4 | exact H5].
Defined.

Lemma running_repeat_WSelect (k : nat) : Pool.running (repeat Pool.WSelect k) = k.
Proof. induction k as [|k IH]; cbn; [done | by rewrite IH]. Qed.

Lemma running_return (ws : list Pool.worker_pc) (i : nat) :
  ws !! i = Some Pool.WSelect ->
  Pool.running ws = S (Pool.running (<[i := Pool.WReturned]> ws)).
Proof.
  revert i. induction ws as [|w ws IH]; intros i; [done|].
  destruct i as [|i]; cbn.
  - by intros [= ->].
  - intros Hi. destruct w; cbn; by rewrite (IH i Hi).
Qed.

Lemma running_zero (ws : list Pool.worker_pc) :
  Pool.running ws = 0%nat <-> Forall (fun w => w = Pool.WReturned) ws.
Proof.
  induction ws as [|w ws IH]; cbn.
  - split; [constructor | done].
  - destruct w.
    + split; [discriminate | intros H; inversion H; discriminate].
    + rewrite IH. split; [by constructor | by intros H; inversion H].
Qed.

Lemma pool_worker_wg (run : Pool.Task -> error) (wp wp' : Pool.WorkerPool)
  (i : nat) (c : Pool.choice) :
  Pool.worker run wp i c = Returns wp' ->
  Pool.wg wp = Z.of_nat (Pool.running (Pool.workers wp)) ->
  Pool.wg wp' = Z.of_nat (Pool.running (Pool.workers wp')).
Proof.
  unfold Pool.worker. destruct (Pool.workers wp !! i) as [[|]|] eqn:Hi; try discriminate.
  pose proof (running_return _ _ Hi) as Hr.
  destruct c.
  - destruct (Pool.ctx_done wp); [|discriminate]. intros [= <-] H. cbn. lia.
  - destruct (recv (Pool.taskChan wp)) as [[[[task|]|] ch]| |]; try discriminate.
    + by intros [= <-].
    + intros [= <-] H. cbn. lia.
    + intros [= <-] H. cbn. lia.
Qed.

Lemma pool_step_wg (run : Pool.Task -> error) (wp wp' : Pool.WorkerPool)
  (l : Pool.label) :
  Pool.step run wp l = Some wp' ->
  Pool.wg wp = Z.of_nat (Pool.running (Pool.workers wp)) ->
  Pool.wg wp' = Z.of_nat (Pool.running (Pool.workers wp')).
Proof.
  destruct l as [task c|i c|]; cbn [Pool.step].
  - unfold Pool.Submit. destruct c.
    + destruct (Pool.ctx_done wp); [|discriminate]. by intros [= <-].
    + destruct (send (Pool.taskChan wp) task); try discriminate. by intros [= <-].
  - destruct (Pool.worker run wp i c) as [wp1| |] eqn:Hw; try discriminate.
    intros [= <-]. exact (pool_worker_wg run wp wp1 i c Hw).
  - unfold Pool.Stop_close.
    destruct (close (Pool.taskChan wp)); try discriminate. by intros [= <-].
Qed.

(** X20. The wait group of a started pool counts the workers that have
    not returned, in every execution: it never goes negative, and the
    wait of [Stop] is released exactly when every worker has
    returned. *)
Theorem pool_wait_counts_running_workers
  (run : Pool.Task -> error) (h n : Z) (l : Logger)
  (wp0 wp : Pool.WorkerPool) (ls : list Pool.label) :
  Pool.NewWorkerPool h n l = Returns wp0 ->
  Pool.exec run (Pool.Start wp0) ls = Some wp ->
  Pool.wg wp = Z.of_nat (Pool.running (Pool.workers wp)) /\
  (Pool.Stop_wait wp = Returns wp <->
   Forall (fun w => w = Pool.WReturned) (Pool.workers wp)).
Proof.
  intros Hnew Hexec.
  assert (H0 : Pool.wg (Pool.Start wp0)
               = Z.of_nat (Pool.running (Pool.workers (Pool.Start wp0)))).
  { revert Hnew. unfold Pool.NewWorkerPool.
    destruct (makechan_panics h sizeof_pointer (wrap64 (n * 2))); [discriminate|]. intros [= <-]. cbn.
    rewrite running_repeat_WSelect. lia. }
  assert (H : Pool.wg wp = Z.of_nat (Pool.running (Pool.workers wp))).
  { revert Hexec H0. generalize (Pool.Start wp0). clear Hnew wp0.
    induction ls as [|lb ls IH]; intros w; cbn [Pool.exec].
    - by intros [= <-].
    - destruct (Pool.step run w lb) as [w1|] eqn:Hs; [|discriminate].
      intros He Hw. apply (IH w1 He). eapply pool_step_wg; eauto. }
  split; [exact H|]. rewrite <- running_zero. unfold Pool.Stop_wait.
  destruct (Z.eqb_spec (Pool.wg wp) 0) as [E|E].
  - split; [intros _; lia | done].
  - split; [discriminate | intros Hz; lia].
Qed.

Lemma pool_wait_counts_running_workers_witness :
  exists wp0 wp,
    Pool.NewWorkerPool 112 2 [] = Returns wp0 /\
    Pool.exec (fun _ => None) (Pool.Start wp0)
      [Pool.LSubmit None Pool.PickChan; Pool.LWorker 1 Pool.PickChan] = Some wp /\
    Pool.wg wp = 1.
Proof.
  eexists. eexists. split; [reflexivity|]. split; [vm_compute; reflexivity|].
  refine (proj1 (pool_wait_counts_running_workers (fun _ => None) 112 2 [] _ _
                   [Pool.LSubmit None Pool.PickChan; Pool.LWorker 1 Pool.PickChan]
                   eq_refl _)).
  vm_compute. reflexivity.
Defined.

(* ===================================================================== *)
(** * The shutdown can always be completed *)
(* ===================================================================== *)

Lemma step_main_eq (s : System) :
  crashed s = None -> main s <> MExited -> step s LMain = main_step s.
Proof. intros Hc Hm. unfold step. rewrite Hc. by destruct (main s). Qed.

Lemma step_publisher_eq (s : System) (c : select_case) :
  crashed s = None -> main s <> MExited -> step s (LPublisher c) = publisher_step s c.
Proof. intros Hc Hm. unfold step. rewrite Hc. by destruct (main s). Qed.

Lemma live_step (s s' : System) (l : label) :
  live s -> step s l = Some s' -> crashed s' = None ->
  (main s' = MPublisherWait -> ctx_done (publisher s') = true) ->
  live s'.
Proof.
  intros (Hinv & Hbs & _ & _) Hs Hc Hctx.
  split; [eapply step_inv; eauto|]. split; [eapply step_batchSize; eauto|].
  split; [exact Hc | exact Hctx].
Qed.

Lemma live_progress (s : System) :
  live s -> main s <> MExited ->
  exists l s', (l = LMain \/ l = LPublisher SelDone) /\
               step s l = Some s' /\ live s' /\ (rank s' < rank s)%nat.
Proof.
  intros Hlive Hne.
  pose proof Hlive as ((Hwg & Hout & Hin & Hj & Hcc & Hw) & Hbs & Hcr & Hctx).
  unfold rank. destruct (main s) eqn:Hm; cbn in Hout, Hin; [| | | | | | |done].
  - exists LMain. eexists. split; [auto|]. rewrite step_main_eq by congruence.
    unfold main_step. rewrite Hm. split; [reflexivity|].
    split; [|cbn; lia]. eapply live_step; [exact Hlive | | exact Hcr | discriminate].
    rewrite step_main_eq by congruence. unfold main_step. by rewrite Hm.
  - exists LMain. eexists. split; [auto|]. rewrite step_main_eq by congruence.
    unfold main_step. rewrite Hm. split; [reflexivity|].
    split; [|cbn; lia]. eapply live_step; [exact Hlive | | exact Hcr | discriminate].
    rewrite step_main_eq by congruence. unfold main_step. by rewrite Hm.
  - exists LMain. eexists. split; [auto|]. rewrite step_main_eq by congruence.
    unfold main_step. rewrite Hm. split; [reflexivity|].
    split; [|cbn; lia]. eapply live_step; [exact Hlive | | exact Hcr | done].
    rewrite step_main_eq by congruence. unfold main_step. by rewrite Hm.
  - specialize (Hctx eq_refl). destruct (pc (publisher s)) eqn:Hpc.
    + exists (LPublisher SelDone). eexists. split; [auto|]. rewrite step_publisher_eq by congruence.
      assert (Hstep : publisher_step s SelDone = Some
                (set_publisher
                   (set_zapLog (set_normalizerOutputChan s (normalizerOutputChan s))
                               (zapLog s))
                   {| p_in := normalizerOutputChan s; repo := repo (publisher s);
                      batchSize := batchSize (publisher s);
                      ticker_stopped := ticker_stopped (publisher s);
                      ctx_done := ctx_done (publisher s);
                      wg := wg (publisher s); pc := PLoop; batch := [];
                      saved := saved (publisher s); p_log := zapLog s |})).
      { unfold publisher_step, processBatch_step. cbn [pc set_log set_in batchSize].
        rewrite Hpc, (makeslice_in_range _ Hbs). reflexivity. }
      split; [exact Hstep|]. split; [|cbn; rewrite Hm; cbn; lia].
      eapply live_step; [exact Hlive | | exact Hcr | intros _; exact Hctx].
      by rewrite step_publisher_eq by congruence.
    + exists (LPublisher SelDone).
      set (p0 := set_log (set_in (publisher s) (normalizerOutputChan s)) (zapLog s)).
      assert (Hstep : publisher_step s SelDone = Some
                (set_publisher
                   (set_zapLog (set_normalizerOutputChan s
                                  (p_in (processBatch_return p0)))
                               (p_log (processBatch_return p0)))
                   (processBatch_return p0))).
      { unfold publisher_step, processBatch_step. fold p0.
        cbn [pc p0 set_log set_in ctx_done]. by rewrite Hpc, Hctx. }
      eexists. split; [auto|]. rewrite step_publisher_eq by congruence.
      split; [exact Hstep|].
      assert (Hret : pc (processBatch_return p0) = PReturned /\
                     ctx_done (processBatch_return p0) = true).
      { unfold processBatch_return.
        destruct (Nat.ltb 0 (length (batch p0))); by cbn. }
      destruct Hret as [R1 R2].
      split; [|cbn [main publisher set_publisher set_zapLog set_normalizerOutputChan];
               rewrite Hm, R1; cbn; lia].
      eapply live_step; [exact Hlive | | exact Hcr | intros _; exact R2].
      by rewrite step_publisher_eq by congruence.
    + exists LMain. eexists. split; [auto|]. rewrite step_main_eq by congruence.
      assert (Hstep : main_step s = Some (set_main s MNormalizerClose)).
      { unfold main_step, Publisher_wait. rewrite Hm. by rewrite Hwg. }
      split; [exact Hstep|]. split; [|cbn; rewrite Hpc; cbn; lia].
      eapply live_step; [exact Hlive | | exact Hcr | discriminate].
      by rewrite step_main_eq by congruence.
  - exists LMain.
    assert (Hstep : main_step s = Some
              (set_main (set_normalizerOutputChan s
                           {| buf := buf (normalizerOutputChan s);
                              cap := cap (normalizerOutputChan s); closed := true |})
                        (if closes_collector s then MCloseCollector
                         else MShutdownComplete))).
    { unfold main_step, Normalizer_Close, close. rewrite Hm. cbn. by rewrite Hout. }
    eexists. split; [auto|]. rewrite step_main_eq by congruence. split; [exact Hstep|].
    split; [|cbn; destruct (closes_collector s); cbn; lia].
    eapply live_step; [exact Hlive | | exact Hcr | by cbn; destruct (closes_collector s)].
    by rewrite step_main_eq by congruence.
  - exists LMain.
    assert (Hstep : main_step s = Some
              (set_main (set_collectorChan s
                           {| buf := buf (collectorChan s);
                              cap := cap (collectorChan s); closed := true |})
                        MShutdownComplete)).
    { unfold main_step, close. rewrite Hm. by rewrite Hin. }
    eexists. split; [auto|]. rewrite step_main_eq by congruence. split; [exact Hstep|].
    split; [|cbn; lia].
    eapply live_step; [exact Hlive | | exact Hcr | discriminate].
    by rewrite step_main_eq by congruence.
  - exists LMain. eexists. split; [auto|]. rewrite step_main_eq by congruence.
    unfold main_step. rewrite Hm. split; [reflexivity|].
    split; [|cbn; lia]. eapply live_step; [exact Hlive | | exact Hcr | discriminate].
    rewrite step_main_eq by congruence. unfold main_step. by rewrite Hm.
Qed.

Lemma live_finish (k : nat) (s : System) :
  (rank s < k)%nat -> live s ->
  exists rest s',
    Forall (fun l => l = LMain \/ l = LPublisher SelDone) rest /\
    exec s rest = Some s' /\ main s' = MExited /\ crashed s' = None.
Proof.
  revert s. induction k as [|k IH]; intros s Hk Hlive; [lia|].
  assert (Hdec : main s = MExited \/ main s <> MExited)
    by (destruct (main s); (by left) || (by right)).
  destruct Hdec as [Hm|Hm].
  - exists [], s. split; [constructor|]. split; [done|]. split; [exact Hm|].
    by destruct Hlive as (_ & _ & ? & _).
  - destruct (live_progress s Hlive Hm) as (l & s1 & Hl & Hs & Hl1 & Hr).
    destruct (IH s1) as (rest & s' & Hall & He & Hf & Hc); [lia | exact Hl1 |].
    exists (l :: rest), s'. split; [by constructor|].
    cbn [exec]. rewrite Hs. done.
Qed.

Lemma step_cancelled (s s' : System) (l : label) :
  step s l = Some s' ->
  (main s = MPublisherWait -> ctx_done (publisher s) = true) ->
  main s' = MPublisherWait -> ctx_done (publisher s') = true.
Proof.
  unfold step. destruct (crashed s); [discriminate|].
  assert (H : match l with
              | LMain => main_step s
              | LWorker i => worker_step s i
              | LPublisher c => publisher_step s c
              | LSession event => session_step s event
              | LHandoffIn event i => handoff_in_step s event i
              | LHandoffOut i => handoff_out_step s i
              end = Some s' ->
              (main s = MPublisherWait -> ctx_done (publisher s) = true) ->
              main s' = MPublisherWait -> ctx_done (publisher s') = true).
  { destruct l.
    - unfold main_step. destruct (main s) eqn:Hm.
      + by intros [= <-].
      + by intros [= <-].
      + by intros [= <-].
      + destruct (Publisher_wait (publisher s)); [|discriminate..]. by intros [= <-].
      + destruct (Normalizer_Close _); [|discriminate|]; intros [= <-]; cbn.
        * by destruct (closes_collector s).
        * congruence.
      + destruct (close _); [|discriminate|]; intros [= <-]; cbn; [done | congruence].
      + by intros [= <-].
      + discriminate.
    - unfold worker_step. destruct (workers s !! i); [|discriminate].
      destruct (process_step _ _) as [[n w1]| |]; [|discriminate|]; by intros [= <-].
    - unfold publisher_step.
      destruct (processBatch_step _ c) as [p| |] eqn:Hp; [|discriminate|].
      + intros [= <-]. cbn. rewrite (processBatch_step_ctx_done _ _ _ Hp). by cbn.
      + by intros [= <-].
    - unfold session_step.
      destruct (Collect _ _ _) as [[[e col] hd]| |]; [|discriminate|]; by intros [= <-].
    - intros Hh. apply handoff_in_step_cases in Hh as (_ & _ & _ & ->). cbn. auto.
    - unfold handoff_out_step.
      destruct (workers s !! i) as [[|t|]|]; try discriminate.
      destruct (buf (normalizerOutputChan s)); [|discriminate].
      destruct (closed (normalizerOutputChan s)); [discriminate|].
      destruct (pc (publisher s)); try discriminate.
      intros [= <-]. cbn.
      destruct (processBatch_receive_frame
                  (set_log (set_in (publisher s) (normalizerOutputChan s)) (zapLog s)) t)
        as (-> & _).
      by cbn. }
  destruct (main s); try discriminate; exact H.
Qed.

Lemma exec_cancelled (ls : list label) (s s' : System) :
  exec s ls = Some s' ->
  (main s = MPublisherWait -> ctx_done (publisher s) = true) ->
  main s' = MPublisherWait -> ctx_done (publisher s') = true.
Proof.
  revert s. induction ls as [|l ls IH]; intros s; cbn [exec].
  - by intros [= <-].
  - destruct (step s l) as [s1|] eqn:Hs; [|discriminate].
    intros He H. apply (IH s1 He). by apply (step_cancelled s s1 l).
Qed.

Lemma exec_batchSize (ls : list label) (s s' : System) :
  exec s ls = Some s' -> 0 <= batchSize (publisher s) <= 2 ^ 45 -> 0 <= batchSize (publisher s') <= 2 ^ 45.
Proof.
  revert s. induction ls as [|l ls IH]; intros s; cbn [exec].
  - by intros [= <-].
  - destruct (step s l) as [s1|] eqn:Hs; [|discriminate].
    intros He H. apply (IH s1 He). by apply (step_batchSize s s1 l).
Qed.

(** X21. The shutdown can always be completed. Once [main] has built and
    started the pipeline with a batch size between 0 and 2^45 (what
    [make] accepts for a slice of pointers), from every state that an
    execution reaches without a panic [main] can be brought to its end
    by steps of [main] and of the publisher alone, the publisher picking
    the cancellation: no state is stuck waiting for a session or for a
    worker, and these steps never panic. Running out of memory is not
    covered. *)
Theorem shutdown_can_always_complete
  (h : Z) (closes : bool) (c : Config.Config) (r : Repository)
  (s0 s : System) (ls : list label) :
  0 <= Config.Pipeline_BatchSize c <= 2 ^ 45 ->
  init h closes c r = Returns s0 ->
  exec s0 ls = Some s ->
  crashed s = None ->
  exists rest s',
    Forall (fun l => l = LMain \/ l = LPublisher SelDone) rest /\
    exec s rest = Some s' /\ main s' = MExited /\ crashed s' = None.
Proof.
  intros Hbs Hinit Hexec Hcr.
  assert (H0 : 0 <= batchSize (publisher s0) <= 2 ^ 45 /\ main s0 = MSignal).
  { revert Hinit. unfold init, NewPublisher.
    destruct (makechan_panics h sizeof_RawTrafficEvent _); [discriminate|].
    destruct (makechan_panics h sizeof_pointer _); [discriminate|].
    destruct (wrap64 _ <=? 0); [discriminate|].
    by intros [= <-]. }
  destruct H0 as [H1 H2].
  apply (live_finish (S (rank s)) s); [lia|].
  split; [exact (exec_inv ls s0 s (init_inv h closes c r s0 Hinit) Hexec)|].
  split; [exact (exec_batchSize ls s0 s Hexec H1)|]. split; [exact Hcr|].
  apply (exec_cancelled ls s0 s Hexec). rewrite H2. discriminate.
Qed.

Lemma shutdown_can_always_complete_witness :
  exists s0 s : System,
    init 112 true default_config (fun _ _ => None) = Returns s0 /\
    exec s0 [LSession (test_event 7); LWorker 0; LPublisher SelTick; LMain; LMain]
      = Some s /\
    exists rest s',
      Forall (fun l => l = LMain \/ l = LPublisher SelDone) rest /\
      exec s rest = Some s' /\ main s' = MExited /\ crashed s' = None.
Proof.
  eexists. eexists. split; [reflexivity|]. split; [vm_compute; reflexivity|].
  assert (Hbs : 0 <= Config.Pipeline_BatchSize default_config <= 2 ^ 45) by (cbn; lia).
  refine (shutdown_can_always_complete 112 true default_config (fun _ _ => None) _ _
            [LSession (test_event 7); LWorker 0; LPublisher SelTick; LMain; LMain]
            Hbs eq_refl _ _).
  - vm_compute. reflexivity.
  - vm_compute. reflexivity.
Defined.
